(** * Orchestration and job-execution engine: a shallow embedding

    The development follows the TypeScript sources module by module:

    - [JS]: the JavaScript values the code manipulates (JSON values,
      truthiness, [Date] objects);
    - [Eff]: the state-and-exception monad used to transcribe methods that
      mutate [this] and use [try]/[catch]/[finally];
    - [FunctionsManager]: the registry and [executeFunction], with the race
      between the handler and its timer;
    - [JobsQueueManager]: the job-status map, the callbacks of the queue
      driver, [addJob] and [cancelJob];
    - [Json]: [JSON.parse];
    - [MathUtils]: the handler of the [mathUtils] function;
    - [LLMManager]: the instances and their [cleanup];
    - [MessagingManager]: [sendMessage] and the schema of outgoing
      messages;
    - [AgentMaster]: [handleIncomingMessage], [orchestrationMaster],
      [parseLLMDecision] and the execution of a decision.

    What the process does not control is part of the state it runs in: the
    clock, the values of [uuidv4()], the replies of the model, the
    callbacks of the queue driver, the availability of the brokers.

    Numbers.  JavaScript numbers are IEEE doubles.  Time values
    ([Date.now()], [getTime()]) are integral numbers of milliseconds or
    [NaN]; they are modelled by [Z] with an explicit [NaN] case.  The
    numbers of JSON texts and of [mathUtils] are modelled by exact
    rationals. *)

From Stdlib Require Import ZArith QArith Qround Ascii String List.
From stdpp Require Import gmap strings list fin_maps pretty.

Local Open Scope string_scope.
Local Open Scope Z_scope.

(* ===================================================================== *)
(** ** JavaScript values *)
(* ===================================================================== *)

Module JS.

(** JSON-shaped values, the [any] of the source.  Objects keep their
    properties in insertion order. *)
#[warnings="-register-all"]
Inductive JSValue : Type :=
| JUndefined
| JNull
| JBool (b : bool)
| JNum (q : Q)
| JStr (s : string)
| JArr (items : list JSValue)
| JObj (props : list (string * JSValue)).

(** ToBoolean: [undefined], [null], [false], [0], and the empty string are
    falsy; every object (and array) is truthy. *)
Definition truthy (v : JSValue) : bool :=
  match v with
  | JUndefined | JNull => false
  | JBool b => b
  | JNum q => negb (Qnum q =? 0)
  | JStr s => negb (String.eqb s "")
  | JArr _ | JObj _ => true
  end.

(** [a || b] *)
Definition or_else (a b : JSValue) : JSValue := if truthy a then a else b.

(** Own-property lookup in a property list. *)
Fixpoint lookup_prop (k : string) (props : list (string * JSValue)) : option JSValue :=
  match props with
  | [] => None
  | (k', v) :: rest => if String.eqb k k' then Some v else lookup_prop k rest
  end.

(** [o.k] for a value that is known not to be [null]/[undefined]: a missing
    property reads as [undefined]; primitives have none of the properties
    the sources read. *)
Definition get (v : JSValue) (k : string) : JSValue :=
  match v with
  | JObj props => default JUndefined (lookup_prop k props)
  | _ => JUndefined
  end.

(** [v === "s"] against a string constant. *)
Definition is_string (v : JSValue) (s : string) : bool :=
  match v with
  | JStr s' => String.eqb s' s
  | _ => false
  end.

(** [a === b] where [b] is one of the string constants of an enum. *)
Definition strict_eq (a b : JSValue) : bool :=
  match b with
  | JStr s => is_string a s
  | _ => false
  end.

(** The line break of template literals. *)
Definition nl : string := String (ascii_of_N 10) EmptyString.

(** Decimal text of an integer. *)
Definition show_Z (z : Z) : string := pretty z.

(** ToString, as template literals apply it.  An integral number prints
    as its decimal digits.  A number with a fractional part is printed
    here as an exact fraction, which is not the text JavaScript prints
    (the shortest decimal that reads back as the same double); no statement
    below depends on the text of such a number. *)
Fixpoint to_string (v : JSValue) : string :=
  match v with
  | JUndefined => "undefined"
  | JNull => "null"
  | JBool true => "true"
  | JBool false => "false"
  | JNum q =>
      if (Zpos (Qden q) =? 1)%Z then show_Z (Qnum q)
      else show_Z (Qnum q) ++ "/" ++ show_Z (Zpos (Qden q))
  | JStr s => s
  | JArr items =>
      (fix join (l : list JSValue) : string :=
         match l with
         | [] => ""
         | [x] => match x with JUndefined | JNull => "" | _ => to_string x end
         | x :: rest =>
             (match x with JUndefined | JNull => "" | _ => to_string x end)
               ++ "," ++ join rest
         end) items
  | JObj _ => "[object Object]"
  end.

(** A [Date] object: a time value in milliseconds since the epoch, or the
    Invalid Date, whose time value is [NaN]. *)
Inductive JSDate : Type :=
| ValidDate (ms : Z)
| InvalidDate.

(** A time difference as computed by [a.getTime() - b]: an integer, or
    [NaN]. *)
Inductive JSTime : Type :=
| Millis (ms : Z)
| NaN.

Definition getTime (d : JSDate) : JSTime :=
  match d with ValidDate ms => Millis ms | InvalidDate => NaN end.

(** [t - n] *)
Definition time_sub (t : JSTime) (n : Z) : JSTime :=
  match t with Millis ms => Millis (ms - n) | NaN => NaN end.

(** [t <= n]: every comparison with [NaN] is false. *)
Definition time_le (t : JSTime) (n : Z) : bool :=
  match t with Millis ms => ms <=? n | NaN => false end.

(** [a < b] on two dates (both converted with [valueOf]). *)
Definition date_lt (a b : JSDate) : bool :=
  match a, b with
  | ValidDate x, ValidDate y => x <? y
  | _, _ => false
  end.

End JS.

(* ===================================================================== *)
(** ** Effects: mutable state and exceptions *)
(* ===================================================================== *)

Module Eff.

(** The outcome of a call: a returned value or a thrown [Error], carried by
    its message. *)
Inductive Res (A : Type) : Type :=
| Ok (a : A)
| Throw (message : string).
Arguments Ok {A} a.
Arguments Throw {A} message.

(** A method of an object whose fields are [S].  State changes made before
    a [throw] persist, as in JavaScript. *)
Definition M (S A : Type) : Type := S -> Res A * S.

Definition ret {S A} (a : A) : M S A := fun s => (Ok a, s).

Definition bind {S A B} (m : M S A) (k : A -> M S B) : M S B :=
  fun s => match m s with
           | (Ok a, s') => k a s'
           | (Throw e, s') => (Throw e, s')
           end.

Definition throw {S A} (e : string) : M S A := fun s => (Throw e, s).

(** [try { m } catch (error) { h error.message }] *)
Definition try_catch {S A} (m : M S A) (h : string -> M S A) : M S A :=
  fun s => match m s with
           | (Ok a, s') => (Ok a, s')
           | (Throw e, s') => h e s'
           end.

(** [try { m } finally { f }], for a [finally] block that does not throw. *)
Definition finally {S A} (m : M S A) (f : S -> S) : M S A :=
  fun s => let '(r, s') := m s in (r, f s').

Definition gets {S A} (f : S -> A) : M S A := fun s => (Ok (f s), s).
Definition modify {S} (f : S -> S) : M S unit := fun s => (Ok tt, f s).

(** Run a method of a component stored in a field of a larger object. *)
Definition zoom {S T A} (proj : S -> T) (upd : T -> S -> S) (m : M T A) : M S A :=
  fun s => let '(r, t') := m (proj s) in (r, upd t' s).

Definition result {S A} (x : Res A * S) : Res A := fst x.
Definition final {S A} (x : Res A * S) : S := snd x.

Definition is_throw {A} (r : Res A) : bool :=
  match r with Throw _ => true | Ok _ => false end.

End Eff.

Export Eff.

Declare Scope eff_scope.
Delimit Scope eff_scope with eff.
Notation "x <~ c ;; k" := (bind c (fun x => k))
  (at level 100, c at next level, right associativity) : eff_scope.
Notation "c ;;; k" := (bind c (fun _ => k))
  (at level 100, right associativity) : eff_scope.
Local Open Scope eff_scope.

(* ===================================================================== *)
(** ** types/index.ts *)
(* ===================================================================== *)

Export JS.

(** [enum FunctionType] *)
Inductive FunctionType : Type := HELPER | RUNNER | WORKER.

(** [enum JobStatus] *)
Inductive JobStatus : Type := PENDING | RUNNING | COMPLETED | FAILED | CANCELLED.

(** [enum JobExecutionType]: a string enum.  The value reaches the job
    engine from the model's reply without a run-time check, so the
    [default:] arm of the [switch] in [addJob] is live; the tag is kept as
    the value it is at run time. *)
Definition INSTANT : JSValue := JStr "instant".
Definition SCHEDULE : JSValue := JStr "schedule".
Definition REPEAT : JSValue := JStr "repeat".

Record IFunctionParameter : Type := {
  param_name : string;
  param_type : string;
  param_description : string;
  param_required : bool;
}.

Record IFunctionDefinition : Type := {
  def_name : string;
  def_description : string;
  def_type : FunctionType;
  def_parameters : list IFunctionParameter;
  def_timeout : option Z;
  def_retries : option Z;
}.

(** What a call [handler(params, context)] does, as seen by its caller:
    it throws before returning a promise, or returns a promise that settles
    [after] milliseconds later with a value or a rejection, or returns a
    promise that never settles. *)
Inductive HandlerRun : Type :=
| ThrowsSync (message : string)
| Settles (after : Z) (outcome : Res JSValue)
| NeverSettles.

Record ICustomFunction : Type := {
  definition : IFunctionDefinition;
  handler : JSValue -> HandlerRun;
}.

Record IJobData : Type := {
  functionName : string;
  parameters : JSValue;
  executionType : JSValue;
  scheduleTime : option JSDate;
  repeatInterval : JSValue;
  repeatDeadline : option JSDate;
  priority : option Z;
  retries : option Z;
}.

Record IJob : Type := {
  job_id : string;
  job_data : IJobData;
  status : JobStatus;
  createdAt : Z;
  startedAt : option Z;
  completedAt : option Z;
  job_result : JSValue;          (* [undefined] until a result is stored *)
  job_error : option string;
}.

Definition is_terminal (s : JobStatus) : bool :=
  match s with
  | COMPLETED | FAILED | CANCELLED => true
  | PENDING | RUNNING => false
  end.

(** [x || d] for an optional number: [undefined], [0] (and [NaN]) give [d]. *)
Definition num_or (x : option Z) (d : Z) : Z :=
  match x with
  | Some n => if n =? 0 then d else n
  | None => d
  end.


(* ===================================================================== *)
(** ** modules/FunctionsManager.ts *)
(* ===================================================================== *)

Module FunctionsManager.

(** [private functions: Map<string, ICustomFunction>] *)
Abbreviation registry := (gmap string ICustomFunction).

Definition getFunction (fm : registry) (name : string) : option ICustomFunction :=
  fm !! name.

(** [validateFunctionCall]: every required parameter is a key of the
    [parameters] object ([param.name in parameters]).  [has_key] looks at
    the own properties of an object.  It is the [in] operator of the
    source for a parameters object and a name that objects do not inherit
    (see [inherited] below); on a name that is inherited [in] answers
    [true], and on a primitive value [in] throws a [TypeError], where
    [has_key] answers [false].  The statements about [has_key] below are
    for objects and names that are not inherited. *)
Definition has_key (params : JSValue) (k : string) : bool :=
  match params with
  | JObj props => bool_decide (is_Some (lookup_prop k props))
  | _ => false
  end.

Definition validateFunctionCall (fm : registry) (name : string) (params : JSValue) : bool :=
  match fm !! name with
  | None => false
  | Some func =>
      forallb (fun p => negb (param_required p && negb (has_key params (param_name p))))
              (def_parameters (definition func))
  end.

(** *** [executeFunction]: the handler raced against a timer

    [Promise.race([func.handler(parameters, context), new Promise((_, reject)
    => setTimeout(() => reject(new Error('Function execution timeout')),
    timeout))])].

    Time is counted in milliseconds from the call.  The array literal is
    evaluated left to right: the handler is called first and the timer is
    armed afterwards, so a handler that throws synchronously leaves no
    timer behind, and a handler that settles at the very millisecond of the
    deadline is served first. *)

Definition timeout_message : string := "Function execution timeout".

(** [func.definition.timeout || 30000] *)
Definition effective_timeout (d : IFunctionDefinition) : Z :=
  num_or (def_timeout d) 30000.

(** The delay [setTimeout] really uses: Node replaces a delay below 1 or
    above 2^31-1 by 1. *)
Definition timer_delay (t : Z) : Z :=
  if (t <? 1) || (2147483647 <? t) then 1 else t.

Inductive Event : Type :=
| HandlerSettled (outcome : Res JSValue)
| TimerFired.

(** The events that follow the call, in the order the event loop runs
    them, each with its time. *)
Definition timeline (run : HandlerRun) (timeout : Z) : list (Z * Event) :=
  let deadline := timer_delay timeout in
  match run with
  | ThrowsSync _ => []
  | Settles t o =>
      if t <=? deadline
      then [(t, HandlerSettled o); (deadline, TimerFired)]
      else [(deadline, TimerFired); (t, HandlerSettled o)]
  | NeverSettles => [(deadline, TimerFired)]
  end.

(** A promise is pending ([None]) or settled, once and for all. *)
Definition Promise : Type := option (Z * Res JSValue).

Definition settle (p : Promise) (t : Z) (o : Res JSValue) : Promise :=
  match p with
  | Some s => Some s
  | None => Some (t, o)
  end.

(** The two promises of interest: the one returned by the handler, which
    nothing cancels, and the race awaited by [executeFunction]. *)
Record Race : Type := {
  handlerPromise : Promise;
  racePromise : Promise;
}.

Definition on_event (r : Race) (ev : Z * Event) : Race :=
  match ev with
  | (t, HandlerSettled o) =>
      {| handlerPromise := settle (handlerPromise r) t o;
         racePromise := settle (racePromise r) t o |}
  | (t, TimerFired) =>
      {| handlerPromise := handlerPromise r;
         racePromise := settle (racePromise r) t (Throw timeout_message) |}
  end.

Definition run_events (evs : list (Z * Event)) : Race :=
  fold_left on_event evs {| handlerPromise := None; racePromise := None |}.

(** What the caller of [executeFunction] observes: when the returned
    promise settles and how, together with the final state of the handler's
    own promise once the event loop has drained. *)
Record Execution : Type := {
  settledAt : Z;
  outcome : Res JSValue;
  handlerFinal : Promise;
}.

Definition executeFunction (fm : registry) (name : string) (params : JSValue)
  : Execution :=
  match fm !! name with
  | None =>
      {| settledAt := 0;
         outcome := Throw ("Function " ++ name ++ " not found");
         handlerFinal := None |}
  | Some func =>
      let timeout := effective_timeout (definition func) in
      match handler func params with
      | ThrowsSync e =>
          {| settledAt := 0; outcome := Throw e; handlerFinal := None |}
      | run =>
          let r := run_events (timeline run timeout) in
          match racePromise r with
          | Some (t, o) =>
              {| settledAt := t; outcome := o; handlerFinal := handlerPromise r |}
          | None =>
              (* unreachable: the timer always fires *)
              {| settledAt := timer_delay timeout;
                 outcome := Throw timeout_message;
                 handlerFinal := handlerPromise r |}
          end
      end
  end.

(** The keys that every plain object inherits from [Object.prototype]:
    the [in] operator finds them in any parameters object, whereas
    [has_key] looks at own properties only.  The two agree on all other
    names. *)
Definition inherited (name : string) : bool :=
  bool_decide (name ∈ ["constructor"; "__proto__"; "hasOwnProperty";
                       "isPrototypeOf"; "propertyIsEnumerable";
                       "toLocaleString"; "toString"; "valueOf";
                       "__defineGetter__"; "__defineSetter__";
                       "__lookupGetter__"; "__lookupSetter__"]).

End FunctionsManager.

(* ===================================================================== *)
(** ** modules/JobsQueueManager.ts *)
(* ===================================================================== *)

Module JobsQueueManager.

(** *** The BullMQ queue, at its interface

    The driver is an external collaborator.  What the manager relies on:
    [queue.add] stores a job under its [jobId], [queue.getJob] finds it,
    [job.remove()] deletes it and throws when the job is locked by a worker
    that is processing it, and every call throws when the Redis connection
    is down. *)

Record RepeatOptions : Type := {
  every : JSValue;
  endDate : JSDate;
}.

Record JobsOptions : Type := {
  opt_jobId : string;
  opt_priority : Z;
  opt_attempts : Z;
  opt_delay : option JSTime;
  opt_repeat : option RepeatOptions;
}.

Record BullJob : Type := {
  bull_name : string;
  bull_data : IJobData;
  bull_opts : JobsOptions;
  bull_locked : bool;
}.

(** What [queue.getJobCounts] reports. *)
Record JobCounts : Type := {
  waiting : Z; active : Z; completed : Z; failed : Z; delayed : Z; paused : Z;
}.

Record Queue : Type := {
  connected : bool;
  stored : gmap string BullJob;
  counts : JobCounts;
}.

Definition connection_closed : string := "Connection is closed.".
Definition job_locked : string := "Job could not be removed because it is locked by another worker".

(** [private jobs: Map<string, IJob>] and the other fields of the class. *)
Record t : Type := {
  jobs : gmap string IJob;
  scheduledJobs : gmap string unit;   (* cron.ScheduledTask handles *)
  repeatJobs : gmap string unit;      (* NodeJS.Timeout handles *)
  queue : Queue;
}.

Definition set_jobs (f : gmap string IJob -> gmap string IJob) (s : t) : t :=
  {| jobs := f (jobs s); scheduledJobs := scheduledJobs s;
     repeatJobs := repeatJobs s; queue := queue s |}.

Definition set_queue (q : Queue) (s : t) : t :=
  {| jobs := jobs s; scheduledJobs := scheduledJobs s;
     repeatJobs := repeatJobs s; queue := q |}.

Definition queue_add (name : string) (data : IJobData) (opts : JobsOptions) : M t unit :=
  fun s =>
    let q := queue s in
    if connected q then
      let entry := {| bull_name := name; bull_data := data; bull_opts := opts;
                      bull_locked := false |} in
      (Ok tt, set_queue {| connected := true;
                           stored := <[opt_jobId opts := entry]> (stored q);
                           counts := counts q |} s)
    else (Throw connection_closed, s).

Definition queue_getJob (jobId : string) : M t (option BullJob) :=
  fun s =>
    if connected (queue s) then (Ok (stored (queue s) !! jobId), s)
    else (Throw connection_closed, s).

Definition bullJob_remove (jobId : string) (bj : BullJob) : M t unit :=
  fun s =>
    let q := queue s in
    if negb (connected q) then (Throw connection_closed, s)
    else if bull_locked bj then (Throw job_locked, s)
    else (Ok tt, set_queue {| connected := true; stored := delete jobId (stored q);
                              counts := counts q |} s).

(** *** [processJob]: what the worker callback returns or throws *)

Definition invalid_parameters (name : string) : string :=
  "Invalid parameters for function " ++ name.

Definition processJob (fm : FunctionsManager.registry) (jobData : IJobData)
  : Res JSValue :=
  match FunctionsManager.getFunction fm (functionName jobData) with
  | None => Throw ("Function " ++ functionName jobData ++ " not found")
  | Some _ =>
      if negb (FunctionsManager.validateFunctionCall fm (functionName jobData)
                 (parameters jobData))
      then Throw (invalid_parameters (functionName jobData))
      else FunctionsManager.outcome
             (FunctionsManager.executeFunction fm (functionName jobData)
                (parameters jobData))
  end.

(** *** [updateJobStatus] *)

Definition is_undefined (v : JSValue) : bool :=
  match v with JUndefined => true | _ => false end.

(** [if (error)] on an optional string *)
Definition str_truthy (e : option string) : bool :=
  match e with
  | Some s => negb (String.eqb s "")
  | None => false
  end.

Definition update_record (job : IJob) (st : JobStatus) (result : JSValue)
    (error : option string) (now : Z) : IJob :=
  {| job_id := job_id job;
     job_data := job_data job;
     status := st;
     createdAt := createdAt job;
     startedAt := match st with RUNNING => Some now | _ => startedAt job end;
     completedAt := match st with
                    | COMPLETED | FAILED => Some now
                    | _ => completedAt job
                    end;
     job_result := if is_undefined result then job_result job else result;
     job_error := if str_truthy error then error else job_error job |}.

Definition updateJobStatus (jobId : string) (st : JobStatus) (result : JSValue)
    (error : option string) (now : Z) (s : t) : t :=
  match jobs s !! jobId with
  | Some job => set_jobs (insert jobId (update_record job st result error now)) s
  | None => s
  end.

(** *** Worker and queue event callbacks *)

Inductive WorkerEvent : Type :=
| WorkerCompleted (jobId : string) (result : JSValue)
| WorkerFailed (jobId : option string) (message : string)
| WorkerActive (jobId : string)
| WorkerStalled (jobId : string)
| WorkerError (message : string).

Inductive QueueEvent : Type :=
| QueueWaiting (jobId : string)
| QueueActive (jobId : string)
| QueueCompleted (jobId : string) (returnvalue : JSValue)
| QueueFailed (jobId : string) (failedReason : string).

(** [setupWorkerEventHandlers] *)
Definition on_worker_event (ev : WorkerEvent) (now : Z) (s : t) : t :=
  match ev with
  | WorkerCompleted jobId result => updateJobStatus jobId COMPLETED result None now s
  | WorkerFailed (Some jobId) message => updateJobStatus jobId FAILED JNull (Some message) now s
  | WorkerFailed None _ => s
  | WorkerActive jobId => updateJobStatus jobId RUNNING JUndefined None now s
  | WorkerStalled _ => s
  | WorkerError _ => s
  end.

(** [setupQueueEventHandlers] *)
Definition on_queue_event (ev : QueueEvent) (now : Z) (s : t) : t :=
  match ev with
  | QueueWaiting jobId => updateJobStatus jobId PENDING JUndefined None now s
  | QueueActive jobId => updateJobStatus jobId RUNNING JUndefined None now s
  | QueueCompleted jobId returnvalue => updateJobStatus jobId COMPLETED returnvalue None now s
  | QueueFailed jobId failedReason => updateJobStatus jobId FAILED JNull (Some failedReason) now s
  end.

(** *** [addJob] and its three modes *)

Definition function_not_found (name : string) : string :=
  "Function " ++ name ++ " not found".
Definition schedule_time_required : string :=
  "Schedule time is required for scheduled jobs".
Definition schedule_time_past : string :=
  "Schedule time must be in the future".
Definition repeat_interval_required : string :=
  "Repeat interval is required for repeat jobs".
Definition not_repeatable : string :=
  "Only runner functions can be repeated".
Definition unsupported_execution_type (ty : JSValue) : string :=
  "Unsupported execution type: " ++ to_string ty.

Definition addInstantJob (jobId : string) (jobData : IJobData) : M t unit :=
  let options := {| opt_jobId := jobId;
                    opt_priority := num_or (priority jobData) 0;
                    opt_attempts := num_or (retries jobData) 3;
                    opt_delay := Some (Millis 0);
                    opt_repeat := None |} in
  queue_add "execute-function" jobData options.

(** [jobData.scheduleTime.getTime() - Date.now()] *)
Definition schedule_delay (time : JSDate) (now : Z) : JSTime :=
  time_sub (getTime time) now.

Definition addScheduledJob (jobId : string) (jobData : IJobData) (now : Z) : M t unit :=
  match scheduleTime jobData with
  | None => throw schedule_time_required
  | Some time =>
      let delay := schedule_delay time now in
      if time_le delay 0 then throw schedule_time_past
      else
        let options := {| opt_jobId := jobId;
                          opt_priority := num_or (priority jobData) 0;
                          opt_attempts := num_or (retries jobData) 3;
                          opt_delay := Some delay;
                          opt_repeat := None |} in
        queue_add "execute-function" jobData options
  end.

Definition one_day : Z := 24 * 60 * 60 * 1000.

Definition addRepeatJob (fm : FunctionsManager.registry) (jobId : string)
    (jobData : IJobData) (now : Z) : M t unit :=
  if negb (truthy (repeatInterval jobData)) then throw repeat_interval_required
  else
    let func := FunctionsManager.getFunction fm (functionName jobData) in
    match def_type <$> (definition <$> func) with
    | Some RUNNER =>
        let deadline := default (ValidDate (now + one_day)) (repeatDeadline jobData) in
        let repeatOptions := {| every := repeatInterval jobData;
                                endDate := deadline |} in
        let options := {| opt_jobId := jobId;
                          opt_priority := num_or (priority jobData) 0;
                          opt_attempts := num_or (retries jobData) 3;
                          opt_delay := None;
                          opt_repeat := Some repeatOptions |} in
        queue_add "execute-function" jobData options
    | _ => throw not_repeatable
    end.

(** [uuid] is the value [uuidv4()] returns and [now] the clock reading. *)
Definition addJob (fm : FunctionsManager.registry) (uuid : string) (now : Z)
    (jobData : IJobData) : M t string :=
  let jobId := uuid in
  match FunctionsManager.getFunction fm (functionName jobData) with
  | None => throw (function_not_found (functionName jobData))
  | Some _ =>
      let job := {| job_id := jobId; job_data := jobData; status := PENDING;
                    createdAt := now; startedAt := None; completedAt := None;
                    job_result := JUndefined; job_error := None |} in
      modify (set_jobs (insert jobId job)) ;;;
      (if strict_eq (executionType jobData) INSTANT then addInstantJob jobId jobData
       else if strict_eq (executionType jobData) SCHEDULE then addScheduledJob jobId jobData now
       else if strict_eq (executionType jobData) REPEAT then addRepeatJob fm jobId jobData now
       else throw (unsupported_execution_type (executionType jobData))) ;;;
      ret jobId
  end.

(** The [switch] of [addJob], by itself. *)
Definition enqueue (fm : FunctionsManager.registry) (uuid : string) (now : Z)
    (jd : IJobData) : M t unit :=
  if strict_eq (executionType jd) INSTANT then addInstantJob uuid jd
  else if strict_eq (executionType jd) SCHEDULE then addScheduledJob uuid jd now
  else if strict_eq (executionType jd) REPEAT then addRepeatJob fm uuid jd now
  else throw (unsupported_execution_type (executionType jd)).

(** *** [cancelJob], [removeJob], [getJob] *)

Definition cancelJob (jobId : string) (now : Z) : M t bool :=
  try_catch
    (job <~ gets (fun s => jobs s !! jobId) ;;
     match job with
     | None => ret false
     | Some _ =>
         bullJob <~ queue_getJob jobId ;;
         match bullJob with
         | Some bj => bullJob_remove jobId bj
         | None => ret tt
         end ;;;
         modify (fun s =>
           {| jobs := jobs s; scheduledJobs := delete jobId (scheduledJobs s);
              repeatJobs := repeatJobs s; queue := queue s |}) ;;;
         modify (fun s =>
           {| jobs := jobs s; scheduledJobs := scheduledJobs s;
              repeatJobs := delete jobId (repeatJobs s); queue := queue s |}) ;;;
         modify (updateJobStatus jobId CANCELLED JUndefined None now) ;;;
         ret true
     end)
    (fun _ => ret false).

Definition removeJob (jobId : string) (now : Z) : M t bool :=
  cancelled <~ cancelJob jobId now ;;
  (if cancelled : bool then modify (set_jobs (delete jobId)) else ret tt) ;;;
  ret cancelled.

Definition getJob (s : t) (jobId : string) : option IJob := jobs s !! jobId.

(** The event the worker emits when its callback has returned or thrown
    (for a throw, once the attempts of the driver are used up). *)
Definition worker_event (jobId : string) (r : Res JSValue) : WorkerEvent :=
  match r with
  | Ok v => WorkerCompleted jobId v
  | Throw e => WorkerFailed (Some jobId) e
  end.

(** The job an event is about. *)
Definition worker_event_job (ev : WorkerEvent) : option string :=
  match ev with
  | WorkerCompleted jobId _ => Some jobId
  | WorkerFailed jobId _ => jobId
  | WorkerActive jobId => Some jobId
  | WorkerStalled jobId => Some jobId
  | WorkerError _ => None
  end.

Definition queue_event_job (ev : QueueEvent) : string :=
  match ev with
  | QueueWaiting jobId => jobId
  | QueueActive jobId => jobId
  | QueueCompleted jobId _ => jobId
  | QueueFailed jobId _ => jobId
  end.

(** The two errors of [addScheduledJob] about the schedule time. *)
Definition invalid_schedule (e : string) : Prop :=
  e = schedule_time_required \/ e = schedule_time_past.

(** The status recorded for a job, if the job is known. *)
Definition status_of (s : t) (jobId : string) : option JobStatus :=
  status <$> jobs s !! jobId.

(** Every record of the job-status map is stored under its own id. *)
Definition well_keyed (s : t) : Prop :=
  forall id job, jobs s !! id = Some job -> job_id job = id.

(** What a status update may not change in a record. *)
Definition identity_of (job : IJob) : string * IJobData * Z :=
  (job_id job, job_data job, createdAt job).

(** The record [addJob] creates. *)
Definition new_job (jobId : string) (jobData : IJobData) (now : Z) : IJob :=
  {| job_id := jobId; job_data := jobData; status := PENDING;
     createdAt := now; startedAt := None; completedAt := None;
     job_result := JUndefined; job_error := None |}.

Definition getQueueStats : M t JobCounts :=
  fun s =>
    if connected (queue s) then (Ok (counts (queue s)), s)
    else (Throw connection_closed, s).

End JobsQueueManager.

(* ===================================================================== *)
(** ** [JSON.parse] *)
(* ===================================================================== *)

(** The built-in parser, written as a lexer (a state machine over the
    characters) followed by a pushdown automaton over the tokens; both are
    structurally recursive, so parsing is total.  Strings are sequences of
    bytes (UTF-8); a [\uXXXX] escape is stored as the UTF-8 encoding of its
    code unit.  A number literal denotes the exact rational it spells. *)

Module Json.

Local Open Scope char_scope.

Inductive Token : Type :=
| TLBrace | TRBrace | TLBracket | TRBracket | TColon | TComma
| TString (s : string)
| TNumber (q : Q)
| TTrue | TFalse | TNull.

(** The double quote, character 34. *)
Definition dquote : ascii := ascii_of_N 34.

Definition is_ws (c : ascii) : bool :=
  match c with
  | " " | "009" | "010" | "013" => true
  | _ => false
  end.

Definition is_digit (c : ascii) : bool :=
  let n := N_of_ascii c in (48 <=? n)%N && (n <=? 57)%N.

Definition digit_val (c : ascii) : Z := Z.of_N (N_of_ascii c) - 48.

Definition is_alpha (c : ascii) : bool :=
  let n := N_of_ascii c in
  ((65 <=? n)%N && (n <=? 90)%N) || ((97 <=? n)%N && (n <=? 122)%N).

(** Characters of numbers and of the literals [true], [false], [null]. *)
Definition is_word_char (c : ascii) : bool :=
  is_digit c || is_alpha c ||
  match c with "+" | "-" | "." => true | _ => false end.

Definition hex_val (c : ascii) : option N :=
  let n := N_of_ascii c in
  if (48 <=? n)%N && (n <=? 57)%N then Some (n - 48)%N
  else if (65 <=? n)%N && (n <=? 70)%N then Some (n - 55)%N
  else if (97 <=? n)%N && (n <=? 102)%N then Some (n - 87)%N
  else None.

(** UTF-8 encoding of a UTF-16 code unit. *)
Definition utf8_encode (n : N) : list ascii :=
  if (n <? 128)%N then [ascii_of_N n]
  else if (n <? 2048)%N then
    [ascii_of_N (192 + n / 64); ascii_of_N (128 + n mod 64)]
  else
    [ascii_of_N (224 + n / 4096); ascii_of_N (128 + (n / 64) mod 64);
     ascii_of_N (128 + n mod 64)].

(** *** Numbers *)

Fixpoint span_digits (l : list ascii) : list ascii * list ascii :=
  match l with
  | c :: rest =>
      if is_digit c then let '(ds, r) := span_digits rest in (c :: ds, r)
      else ([], l)
  | [] => ([], [])
  end.

Definition digits_val (ds : list ascii) : Z :=
  fold_left (fun acc c => 10 * acc + digit_val c)%Z ds 0%Z.

(** [mantissa * 10 ^ scale], as the exact rational the literal spells.
    [JSON.parse] gives the nearest double: the two differ for literals
    that are no doubles (they are rounded, and underflow to [0] or
    overflow to [Infinity] at the ends of the range). *)
Definition scale10 (mantissa scale : Z) : Q :=
  if (0 <=? scale)%Z then Qred ((mantissa * 10 ^ scale)%Z # 1)
  else Qred (mantissa # Z.to_pos (10 ^ (- scale))).

(** The exponent part: empty, or [e]/[E], an optional sign, and digits. *)
Definition parse_exponent (l : list ascii) : option Z :=
  match l with
  | [] => Some 0%Z
  | c :: rest =>
      if negb ((c =? "e") || (c =? "E")) then None
      else
        let '(sign, rest) :=
          match rest with
          | "+" :: r => (1%Z, r)
          | "-" :: r => ((-1)%Z, r)
          | _ => (1%Z, rest)
          end in
        match span_digits rest with
        | ([], _) => None
        | (ds, []) => Some (sign * digits_val ds)%Z
        | (_, _ :: _) => None
        end
  end.

(** An optional minus sign; an integer part that is [0] or starts with a
    non-zero digit; optionally a point and at least one digit; optionally
    an exponent. *)
Definition parse_number (l : list ascii) : option Q :=
  let '(sign, l) :=
    match l with
    | "-" :: r => ((-1)%Z, r)
    | _ => (1%Z, l)
    end in
  match span_digits l with
  | ([], _) => None
  | (ip, rest) =>
      match ip with
      | "0" :: _ :: _ => None               (* no leading zero *)
      | _ =>
          let '(fp, rest) :=
            match rest with
            | "." :: r => let '(ds, r') := span_digits r in (Some ds, r')
            | _ => (None, rest)
            end in
          match fp with
          | Some [] => None                  (* a digit must follow the point *)
          | _ =>
              let fds := default [] fp in
              match parse_exponent rest with
              | None => None
              | Some e =>
                  Some (scale10 (sign * digits_val (ip ++ fds)%list)
                                (e - Z.of_nat (length fds)))
              end
          end
      end
  end.

Definition classify_word (w : list ascii) : option Token :=
  let s := string_of_list_ascii w in
  if String.eqb s "true" then Some TTrue
  else if String.eqb s "false" then Some TFalse
  else if String.eqb s "null" then Some TNull
  else TNumber <$> parse_number w.

(** *** The lexer *)

Inductive LexState : Type :=
| LStart
| LString (acc : list ascii)                    (* inside a string; reversed *)
| LEscape (acc : list ascii)                    (* after a backslash *)
| LUnicode (acc : list ascii) (hex : list N)    (* reading the digits of \u *)
| LWord (acc : list ascii).                     (* number or literal; reversed *)

Definition punct (c : ascii) : option Token :=
  match c with
  | "{" => Some TLBrace | "}" => Some TRBrace
  | "[" => Some TLBracket | "]" => Some TRBracket
  | ":" => Some TColon | "," => Some TComma
  | _ => None
  end.

(** One character read in the start state: the new state and the tokens it
    completes. *)
Definition lex_start (c : ascii) : option (LexState * list Token) :=
  if is_ws c then Some (LStart, [])
  else if c =? dquote then Some (LString [], [])
  else if is_word_char c then Some (LWord [c], [])
  else match punct c with
       | Some t => Some (LStart, [t])
       | None => None
       end.

Definition unescape (c : ascii) : option ascii :=
  if c =? dquote then Some dquote
  else match c with
       | "\" => Some "\" | "/" => Some "/"
       | "b" => Some "008" | "f" => Some "012" | "n" => Some "010"
       | "r" => Some "013" | "t" => Some "009"
       | _ => None
       end.

Definition lex_step (st : LexState) (c : ascii) : option (LexState * list Token) :=
  match st with
  | LStart => lex_start c
  | LString acc =>
      if c =? dquote then Some (LStart, [TString (string_of_list_ascii (rev acc))])
      else if c =? "\" then Some (LEscape acc, [])
      else if (N_of_ascii c <? 32)%N then None
      else Some (LString (c :: acc), [])
  | LEscape acc =>
      if c =? "u" then Some (LUnicode acc [], [])
      else match unescape c with
           | Some c' => Some (LString (c' :: acc), [])
           | None => None
           end
  | LUnicode acc hex =>
      match hex_val c with
      | None => None
      | Some h =>
          match hex with
          | [h3; h2; h1] =>
              let n := (((h1 * 16 + h2) * 16 + h3) * 16 + h)%N in
              Some (LString (rev (utf8_encode n) ++ acc)%list, [])
          | _ => Some (LUnicode acc (h :: hex), [])
          end
      end
  | LWord acc =>
      if is_word_char c then Some (LWord (c :: acc), [])
      else
        match classify_word (rev acc), lex_start c with
        | Some t, Some (st', ts) => Some (st', t :: ts)
        | _, _ => None
        end
  end.

Fixpoint lex_from (st : LexState) (s : string) : option (list Token) :=
  match s with
  | EmptyString =>
      match st with
      | LStart => Some []
      | LWord acc => (fun t => [t]) <$> classify_word (rev acc)
      | _ => None
      end
  | String c rest =>
      match lex_step st c with
      | None => None
      | Some (st', ts) => (fun more => (ts ++ more)%list) <$> lex_from st' rest
      end
  end.

Definition lex (s : string) : option (list Token) := lex_from LStart s.

(** *** The parser *)

(** [CreateDataProperty]: a repeated key keeps its first position and takes
    the last value. *)
Fixpoint set_prop (k : string) (v : JSValue) (props : list (string * JSValue))
  : list (string * JSValue) :=
  match props with
  | [] => [(k, v)]
  | (k', v') :: rest =>
      if String.eqb k k' then (k', v) :: rest else (k', v') :: set_prop k v rest
  end.

(** An open container: an array with the items read so far (reversed), or
    an object with its properties so far and the key whose value is being
    read. *)
Inductive Frame : Type :=
| InArr (items : list JSValue)
| InObj (props : list (string * JSValue)) (key : string).

Inductive Mode : Type :=
| WantValue                                  (* a value must follow *)
| WantValueOrClose (items : list JSValue)    (* just after [[] *)
| WantKeyOrClose                             (* just after [{] *)
| WantKey (props : list (string * JSValue))  (* after a comma in an object *)
| WantColon (props : list (string * JSValue)) (key : string)
| AfterItem (items : list JSValue)           (* after a value in an array *)
| AfterProp (props : list (string * JSValue))
| Done (v : JSValue).

(** A completed value goes to the innermost open container. *)
Definition deliver (v : JSValue) (stack : list Frame) : Mode * list Frame :=
  match stack with
  | [] => (Done v, [])
  | InArr items :: stack' => (AfterItem (v :: items), stack')
  | InObj props key :: stack' => (AfterProp (set_prop key v props), stack')
  end.

(** A token that starts a value, in a position where one is allowed. *)
Definition start_value (t : Token) (stack : list Frame) : option (Mode * list Frame) :=
  match t with
  | TLBrace => Some (WantKeyOrClose, stack)
  | TLBracket => Some (WantValueOrClose [], stack)
  | TString s => Some (deliver (JStr s) stack)
  | TNumber q => Some (deliver (JNum q) stack)
  | TTrue => Some (deliver (JBool true) stack)
  | TFalse => Some (deliver (JBool false) stack)
  | TNull => Some (deliver JNull stack)
  | _ => None
  end.

Definition parse_step (m : Mode) (stack : list Frame) (t : Token)
  : option (Mode * list Frame) :=
  match m with
  | WantValue => start_value t stack
  | WantValueOrClose items =>
      match t with
      | TRBracket => Some (deliver (JArr (rev items)) stack)
      | _ => start_value t (InArr items :: stack)
      end
  | AfterItem items =>
      match t with
      | TRBracket => Some (deliver (JArr (rev items)) stack)
      | TComma => Some (WantValue, InArr items :: stack)
      | _ => None
      end
  | WantKeyOrClose =>
      match t with
      | TRBrace => Some (deliver (JObj []) stack)
      | TString k => Some (WantColon [] k, stack)
      | _ => None
      end
  | WantKey props =>
      match t with
      | TString k => Some (WantColon props k, stack)
      | _ => None
      end
  | WantColon props k =>
      match t with
      | TColon => Some (WantValue, InObj props k :: stack)
      | _ => None
      end
  | AfterProp props =>
      match t with
      | TRBrace => Some (deliver (JObj props) stack)
      | TComma => Some (WantKey props, stack)
      | _ => None
      end
  | Done _ => None
  end.

Fixpoint parse_tokens (m : Mode) (stack : list Frame) (ts : list Token)
  : option JSValue :=
  match ts with
  | [] => match m with Done v => Some v | _ => None end
  | t :: rest =>
      match parse_step m stack t with
      | None => None
      | Some (m', stack') => parse_tokens m' stack' rest
      end
  end.

Definition syntax_error : string := "Unexpected token in JSON".

(** [JSON.parse(text)] *)
Definition parse (text : string) : Res JSValue :=
  match lex text with
  | None => Throw syntax_error
  | Some ts =>
      match parse_tokens WantValue [] ts with
      | Some v => Ok v
      | None => Throw syntax_error
      end
  end.

End Json.

(* ===================================================================== *)
(** ** functions/helper/mathUtils.ts *)
(* ===================================================================== *)

(** Arithmetic is exact rational arithmetic, which agrees with the double
    arithmetic of the source as long as every intermediate value is exactly
    representable (in particular on integers below 2^53). *)

Module MathUtils.

Local Open Scope Q_scope.

Definition mathUtils_definition : IFunctionDefinition :=
  {| def_name := "mathUtils";
     def_description := "Mathematical utility functions for basic calculations, statistics, and number operations";
     def_type := HELPER;
     def_parameters :=
       [ {| param_name := "numbers"; param_type := "array";
            param_description := "Array of numbers to process";
            param_required := true |};
         {| param_name := "operation"; param_type := "string";
            param_description := "Math operation: sum, average, min, max, median, or factorial (for single number)";
            param_required := true |} ];
     def_timeout := Some 10000%Z;
     def_retries := None |}.

Definition is_space (c : ascii) : bool :=
  Json.is_ws c || (N_of_ascii c =? 11)%N || (N_of_ascii c =? 12)%N.

Fixpoint drop_spaces (l : list ascii) : list ascii :=
  match l with
  | c :: rest => if is_space c then drop_spaces rest else l
  | [] => []
  end.

Definition trim (l : list ascii) : list ascii :=
  rev (drop_spaces (rev (drop_spaces l))).

(** StringToNumber on decimal literals: surrounding white space is
    dropped, the empty string is [0], and an optional sign is followed by
    digits with an optional fraction and exponent.  [None] stands for
    [NaN].  The other spellings [Number] accepts ([Infinity] and
    radix-prefixed integers) have no counterpart among the numbers of this
    model and read as [NaN] here; a literal beyond the range of doubles,
    which [Number] reads as [Infinity], is read here as the rational it
    spells.  The statements below take arrays of numbers, not of
    strings. *)
Definition string_to_number (s : string) : option Q :=
  match trim (list_ascii_of_string s) with
  | [] => Some 0
  | l =>
      let '(sign, l) :=
        match l with
        | "+"%char :: r => (1%Z, r)
        | "-"%char :: r => ((-1)%Z, r)
        | _ => (1%Z, l)
        end in
      let '(ip, rest) := Json.span_digits l in
      let '(fp, rest) :=
        match rest with
        | "."%char :: r => Json.span_digits r
        | _ => ([], rest)
        end in
      match ip, fp with
      | [], [] => None
      | _, _ =>
          (fun e => Json.scale10 (sign * Json.digits_val (ip ++ fp)%list)
                                 (e - Z.of_nat (length fp)))
            <$> Json.parse_exponent rest
      end
  end.

(** [Number(v)]; [None] stands for [NaN].  An array converts through its
    string form: the empty array is [0], a one-element array converts as
    its element's text, a longer one contains a comma and is [NaN]. *)
Fixpoint toNumber (v : JSValue) : option Q :=
  match v with
  | JUndefined => None
  | JNull => Some 0
  | JBool b => Some (if b then 1 else 0)
  | JNum q => Some q
  | JStr s => string_to_number s
  | JArr [] => Some 0
  | JArr [x] =>
      match x with
      | JUndefined | JNull => Some 0
      | JBool _ | JObj _ => None
      | _ => toNumber x
      end
  | JArr _ => None
  | JObj _ => None
  end.

(** [numbers.map(n => { const num = Number(n); if (isNaN(num)) throw ...;
    return num; })] *)
Fixpoint to_numbers (items : list JSValue) : Res (list Q) :=
  match items with
  | [] => Ok []
  | n :: rest =>
      match toNumber n with
      | None => Throw ("Invalid number: " ++ to_string n)
      | Some num =>
          match to_numbers rest with
          | Ok nums => Ok (num :: nums)
          | Throw e => Throw e
          end
      end
  end.

(** [operation.toLowerCase()] on ASCII letters. *)
Definition lower_char (c : ascii) : ascii :=
  let n := N_of_ascii c in
  if (65 <=? n)%N && (n <=? 90)%N then ascii_of_N (n + 32) else c.

Definition toLowerCase (s : string) : string :=
  string_of_list_ascii (map lower_char (list_ascii_of_string s)).

(** [numArray.reduce((acc, num) => acc + num, 0)] *)
Definition sum (nums : list Q) : Q := fold_left (fun acc num => Qred (acc + num)) nums 0.

(** [Math.round(x)]: the nearest integer, ties towards +infinity. *)
Definition Math_round (x : Q) : Q := inject_Z (Qfloor (x + (1 # 2))).

(** [Math.min(...numArray)] and [Math.max(...numArray)] on a non-empty
    array.  The spread passes every element as an argument, and the engine
    throws a [RangeError] when there are more arguments than its stack
    takes (a limit that the language does not fix); these folds describe
    the call below that limit. *)
Definition Math_min (nums : list Q) : Q :=
  match nums with
  | [] => 0
  | x :: rest => fold_left (fun m y => if Qle_bool y m then y else m) rest x
  end.

Definition Math_max (nums : list Q) : Q :=
  match nums with
  | [] => 0
  | x :: rest => fold_left (fun m y => if Qle_bool m y then y else m) rest x
  end.

(** [[...numArray].sort((a, b) => a - b)] *)
Fixpoint insert_sorted (x : Q) (l : list Q) : list Q :=
  match l with
  | [] => [x]
  | y :: rest => if Qle_bool x y then x :: l else y :: insert_sorted x rest
  end.

Definition sort (l : list Q) : list Q := fold_right insert_sorted [] l.

Definition nums_value (nums : list Q) : JSValue := JArr (map JNum nums).
Definition count_value (nums : list Q) : JSValue := JNum (inject_Z (Z.of_nat (length nums))).

(** [for (let i = 2; i <= num; i++) factorial *= i] *)
Fixpoint factorial_loop (fuel : nat) (i num acc : Z) : Z :=
  match fuel with
  | O => acc
  | S fuel' => if (i <=? num)%Z then factorial_loop fuel' (i + 1)%Z num (acc * i)%Z else acc
  end.

Definition is_integer (q : Q) : bool := (Zpos (Qden (Qred q)) =? 1)%Z.

(** The body of the [async] handler.  Numbers are exact rationals: the
    results are those of the source whenever every intermediate value is
    a double, as for sums of integers and for [min], [max] and
    [factorial]; a sum or an average that the source rounds is not
    rounded here. *)
Definition run (params : JSValue) : Res JSValue :=
  match params with
  | JUndefined | JNull => Throw "Cannot destructure property 'numbers' of 'params' as it is undefined."
  | _ =>
      let numbers := get params "numbers" in
      let operation := get params "operation" in
      match numbers with
      | JArr items =>
          match operation with
          | JStr op =>
              if String.eqb op "" then Throw "Operation parameter is required and must be a string"
              else
                match to_numbers items with
                | Throw e => Throw e
                | Ok numArray =>
                    let op' := toLowerCase op in
                    let empty := match numArray with [] => true | _ => false end in
                    if String.eqb op' "sum" then
                      Ok (JObj [("operation", JStr "sum"); ("input", nums_value numArray);
                                ("result", JNum (sum numArray)); ("count", count_value numArray)])
                    else if String.eqb op' "average" then
                      if empty then Throw "Cannot calculate average of empty array"
                      else
                        let avg := sum numArray / inject_Z (Z.of_nat (length numArray)) in
                        Ok (JObj [("operation", JStr "average"); ("input", nums_value numArray);
                                  ("result", JNum (Qred (Math_round (avg * 100) / 100)));
                                  ("count", count_value numArray)])
                    else if String.eqb op' "min" then
                      if empty then Throw "Cannot find minimum of empty array"
                      else Ok (JObj [("operation", JStr "minimum"); ("input", nums_value numArray);
                                     ("result", JNum (Math_min numArray)); ("count", count_value numArray)])
                    else if String.eqb op' "max" then
                      if empty then Throw "Cannot find maximum of empty array"
                      else Ok (JObj [("operation", JStr "maximum"); ("input", nums_value numArray);
                                     ("result", JNum (Math_max numArray)); ("count", count_value numArray)])
                    else if String.eqb op' "median" then
                      if empty then Throw "Cannot find median of empty array"
                      else
                        let sorted := sort numArray in
                        let middle := Nat.div (length sorted) 2 in
                        let median :=
                          if Nat.eqb (Nat.modulo (length sorted) 2) 0
                          then Qred ((nth (middle - 1) sorted 0 + nth middle sorted 0) / 2)
                          else nth middle sorted 0 in
                        Ok (JObj [("operation", JStr "median"); ("input", nums_value numArray);
                                  ("result", JNum median); ("count", count_value numArray)])
                    else if String.eqb op' "factorial" then
                      match numArray with
                      | [num] =>
                          if Qle_bool 0 num && is_integer num then
                            if Qle_bool num 20 then
                              Ok (JObj [("operation", JStr "factorial"); ("input", JNum num);
                                        ("result", JNum (inject_Z (factorial_loop 20 2 (Qnum (Qred num)) 1)))])
                            else Throw "Factorial calculation limited to numbers <= 20 to prevent overflow"
                          else Throw "Factorial requires a non-negative integer"
                      | _ => Throw "Factorial operation requires exactly one number"
                      end
                    else Throw ("Unsupported operation: " ++ op ++
                                ". Supported operations: sum, average, min, max, median, factorial")
                end
          | _ => Throw "Operation parameter is required and must be a string"
          end
      | _ => Throw "Numbers parameter is required and must be an array"
      end
  end.

(** An [async] function returns a promise that settles as its body ends. *)
Definition mathUtils_handler (params : JSValue) : HandlerRun := Settles 0 (run params).

Definition mathUtilsFunction : ICustomFunction :=
  {| definition := mathUtils_definition; handler := mathUtils_handler |}.

(** [n!], by its recurrence. *)
Fixpoint factorial (n : nat) : Z :=
  match n with
  | O => 1%Z
  | S n' => (Z.of_nat n * factorial n')%Z
  end.

(** A number of arguments that a spread call takes on the default stack
    of Node; the limit of the engine is well above it. *)
Definition spread_safe : Z := 10000%Z.

End MathUtils.

(* ===================================================================== *)
(** ** modules/LLMManager.ts *)
(* ===================================================================== *)

Module LLMManager.

Inductive LLMProvider : Type := OPENAI | ANTHROPIC | GOOGLE.

Record ILLMConfig : Type := {
  provider : LLMProvider;
  apiKey : string;
  model : string;
  temperature : option Q;
  maxTokens : option Z;
  systemPrompt : option string;
}.

Record ILLMInstance : Type := {
  inst_id : string;
  config : ILLMConfig;
  inst_createdAt : JSDate;
  lastUsed : option JSDate;
}.

(** [private instances: Map<string, ILLMInstance>], and the vendor SDKs:
    [replies] lists what the successive provider calls yield, the text of
    the completion or the error the SDK throws. *)
Record t : Type := {
  instances : gmap string ILLMInstance;
  replies : list (Res string);
}.

Definition provider_unreachable : string := "Provider request failed".

Definition createInstance (uuid : string) (now : Z) (cfg : ILLMConfig) : M t string :=
  let instance := {| inst_id := uuid; config := cfg;
                     inst_createdAt := ValidDate now; lastUsed := None |} in
  modify (fun s => {| instances := <[uuid := instance]> (instances s);
                      replies := replies s |}) ;;;
  ret uuid.

Definition deleteInstance (instanceId : string) : M t bool :=
  deleted <~ gets (fun s => bool_decide (is_Some (instances s !! instanceId))) ;;
  modify (fun s => {| instances := delete instanceId (instances s);
                      replies := replies s |}) ;;;
  ret deleted.

Definition touch (now : Z) (i : ILLMInstance) : ILLMInstance :=
  {| inst_id := inst_id i; config := config i;
     inst_createdAt := inst_createdAt i; lastUsed := Some (ValidDate now) |}.

(** [generateResponse]: returns the [content] of the reply. *)
Definition generateResponse (instanceId : string) (prompt : string) (now : Z)
  : M t string :=
  instance <~ gets (fun s => instances s !! instanceId) ;;
  match instance with
  | None => throw ("LLM instance not found: " ++ instanceId)
  | Some i =>
      modify (fun s => {| instances := <[instanceId := touch now i]> (instances s);
                          replies := replies s |}) ;;;
      (fun s =>
         match replies s with
         | [] => (Throw provider_unreachable, s)
         | r :: rest => (r, {| instances := instances s; replies := rest |})
         end)
  end.

(** [instance.lastUsed && instance.lastUsed < oneDayAgo] *)
Definition idle_since (oneDayAgo : JSDate) (instance : ILLMInstance) : bool :=
  match lastUsed instance with
  | Some d => date_lt d oneDayAgo
  | None => false
  end.

(** [cleanup]: the [for ... of] loop visits the entries of the map and
    deletes the ones that are idle; deleting the entry being visited does
    not disturb the iteration. *)
Definition cleanup_step (oneDayAgo : JSDate) (entry : string * ILLMInstance)
    (m : gmap string ILLMInstance) : gmap string ILLMInstance :=
  if idle_since oneDayAgo (snd entry) then delete (fst entry) m else m.

Definition cleanup_instances (now : Z) (m : gmap string ILLMInstance)
  : gmap string ILLMInstance :=
  let oneDayAgo := ValidDate (now - 24 * 60 * 60 * 1000) in
  foldr (cleanup_step oneDayAgo) m (map_to_list m).

Definition cleanup (now : Z) (s : t) : t :=
  {| instances := cleanup_instances now (instances s); replies := replies s |}.

(** [Partial<ILLMConfig>]: [None] is a key that the caller left out. *)
Record PartialConfig : Type := {
  new_provider : option LLMProvider;
  new_apiKey : option string;
  new_model : option string;
  new_temperature : option Q;
  new_maxTokens : option Z;
  new_systemPrompt : option string;
}.

(** [{ ...config, ...newConfig }] *)
Definition merge_config (c : ILLMConfig) (p : PartialConfig) : ILLMConfig :=
  {| provider := default (provider c) (new_provider p);
     apiKey := default (apiKey c) (new_apiKey p);
     model := default (model c) (new_model p);
     temperature := match new_temperature p with
                    | Some q => Some q | None => temperature c end;
     maxTokens := match new_maxTokens p with
                  | Some n => Some n | None => maxTokens c end;
     systemPrompt := match new_systemPrompt p with
                     | Some x => Some x | None => systemPrompt c end |}.

(** [editInstance]: the vendor client that is rebuilt when the provider
    or the key changes is not part of the state modelled here. *)
Definition editInstance (instanceId : string) (newConfig : PartialConfig)
  : M t bool :=
  instance <~ gets (fun s => instances s !! instanceId) ;;
  match instance with
  | None => ret false
  | Some i =>
      let updated := {| inst_id := inst_id i;
                        config := merge_config (config i) newConfig;
                        inst_createdAt := inst_createdAt i;
                        lastUsed := lastUsed i |} in
      modify (fun s => {| instances := <[instanceId := updated]> (instances s);
                          replies := replies s |}) ;;;
      ret true
  end.

#[global] Instance LLMProvider_eq_dec : EqDecision LLMProvider.
Proof. solve_decision. Defined.

(** The object that [getInstanceStats] returns; a provider without
    instances has no key in [byProvider]. *)
Record InstanceStats : Type := {
  totalInstances : nat;
  byProvider : LLMProvider -> option nat;
  recentlyUsed : nat;
}.

(** [instance.lastUsed && instance.lastUsed > oneHourAgo] *)
Definition used_since (oneHourAgo : JSDate) (instance : ILLMInstance) : bool :=
  match lastUsed instance with
  | Some d => date_lt oneHourAgo d
  | None => false
  end.

(** One round of the loop over [this.instances.values()]. *)
Definition stats_step (oneHourAgo : JSDate) (stats : InstanceStats)
    (instance : ILLMInstance) : InstanceStats :=
  let p := provider (config instance) in
  {| totalInstances := totalInstances stats;
     byProvider := fun p' =>
       if decide (p' = p) then Some (default 0%nat (byProvider stats p) + 1)%nat
       else byProvider stats p';
     recentlyUsed :=
       if used_since oneHourAgo instance then S (recentlyUsed stats)
       else recentlyUsed stats |}.

Definition getInstanceStats (now : Z) (s : t) : InstanceStats :=
  let oneHourAgo := ValidDate (now - 60 * 60 * 1000) in
  foldl (stats_step oneHourAgo)
        {| totalInstances := size (instances s);
           byProvider := fun _ => None;
           recentlyUsed := 0 |}
        (map_to_list (instances s)).*2.

(** The sum of the counts that [byProvider] holds. *)
Definition provider_total (stats : InstanceStats) : nat :=
  default 0%nat (byProvider stats OPENAI)
  + default 0%nat (byProvider stats ANTHROPIC)
  + default 0%nat (byProvider stats GOOGLE).

End LLMManager.

(* ===================================================================== *)
(** ** modules/MessagingManager.ts *)
(* ===================================================================== *)

Module MessagingManager.

Record IIncomingMessage : Type := {
  msg_id : string;
  msg_content : string;
  msg_metadata : JSValue;
  msg_timestamp : option JSDate;
}.

(** [content] is declared a string, but the orchestrator fills it from the
    untyped decision object, so any value can arrive here. *)
Record IOutgoingMessage : Type := {
  out_id : string;
  out_content : JSValue;
  out_metadata : JSValue;
  out_timestamp : JSDate;
}.

(** The broker side of the manager: [isConnected]; what awaiting
    [connectionPromise] yields when not connected; the confirm channel
    ([None] for [null]) with what [publish] does on it; and the messages
    published so far. *)
Record t : Type := {
  isConnected : bool;
  connectAttempt : Res unit;
  channel : option (Res unit);
  published : list IOutgoingMessage;
}.

(** The outbound transport is usable when a send reaches the broker. *)
Definition usable (s : t) : bool :=
  (isConnected s || negb (is_throw (connectAttempt s))) &&
  match channel s with
  | Some (Ok _) => true
  | _ => false
  end.

(** The [Joi] schema of an outgoing message: [id] and [content] are
    required strings (a required string is not empty), [metadata] an
    optional object, [timestamp] a required date. *)
Definition joi_string_required (v : JSValue) : bool :=
  match v with
  | JStr s => negb (String.eqb s "")
  | _ => false
  end.

Definition joi_object_optional (v : JSValue) : bool :=
  match v with
  | JUndefined | JObj _ => true
  | _ => false
  end.

Definition joi_date_required (d : JSDate) : bool :=
  match d with ValidDate _ => true | InvalidDate => false end.

Definition validateOutgoingMessage (m : IOutgoingMessage) : bool :=
  joi_string_required (JStr (out_id m)) &&
  joi_string_required (out_content m) &&
  joi_object_optional (out_metadata m) &&
  joi_date_required (out_timestamp m).

Definition waitForConnection : M t unit :=
  fun s =>
    if isConnected s then (Ok tt, s)
    else match connectAttempt s with
         | Ok _ => (Ok tt, {| isConnected := true; connectAttempt := connectAttempt s;
                              channel := channel s; published := published s |})
         | Throw e => (Throw e, s)
         end.

Definition sendMessage (message : IOutgoingMessage) : M t unit :=
  match out_content message with
  | JUndefined =>
      throw "Cannot read properties of undefined (reading 'length')"
  | JNull =>
      throw "Cannot read properties of null (reading 'length')"
  | _ =>
      waitForConnection ;;;
      ch <~ gets channel ;;
      match ch with
      | None => throw "Channel not available"
      | Some publish =>
          if negb (validateOutgoingMessage message) then throw "Invalid message format"
          else
            match publish with
            | Throw e => throw e
            | Ok _ =>
                modify (fun s => {| isConnected := isConnected s;
                                    connectAttempt := connectAttempt s;
                                    channel := channel s;
                                    published := published s ++ [message] |})
            end
      end
  end.

(** [metadata || {}] *)
Definition createOutgoingMessage (uuid : string) (now : Z) (content : JSValue)
    (metadata : JSValue) : IOutgoingMessage :=
  {| out_id := uuid; out_content := content;
     out_metadata := or_else metadata (JObj []);
     out_timestamp := ValidDate now |}.

(** What the consumer tells the broker about a delivery:
    [ack(msg)], or [nack(msg, false, requeue)]. *)
Inductive Settlement : Type :=
| Ack
| Nack (requeue : bool).

(** The callback that [startListening] hands to [consume], for a delivery
    that is not [null], run on the text of its body.  [validate] stands
    for [validateIncomingMessage] (the [Joi] schema of incoming messages),
    [handler] for [messageHandlers.get('orchestration')]; the handler acts
    on the state of the object that registered it. *)
Definition onMessage {S} (validate : JSValue -> option IIncomingMessage)
    (handler : option (IIncomingMessage -> M S unit)) (content : string)
  : M S Settlement :=
  try_catch
    (match Json.parse content with
     | Throw _ => ret (Nack false)
     | Ok data =>
         match validate data with
         | None => ret (Nack false)
         | Some validatedMessage =>
             if truthy (get (msg_metadata validatedMessage) "isResponse")
             then ret Ack
             else
               match handler with
               | None => ret (Nack false)
               | Some handle => handle validatedMessage ;;; ret Ack
               end
         end
     end)
    (fun _ => ret (Nack true)).

(** The message that reaches the handler, if any: the body parses,
    passes the schema, and is not marked as a response. *)
Definition handed_over (validate : JSValue -> option IIncomingMessage)
    (content : string) : option IIncomingMessage :=
  match Json.parse content with
  | Ok data =>
      match validate data with
      | Some m => if truthy (get (msg_metadata m) "isResponse") then None else Some m
      | None => None
      end
  | Throw _ => None
  end.

End MessagingManager.

(* ===================================================================== *)
(** ** modules/AgentMaster.ts *)
(* ===================================================================== *)

(** Of the logger calls, the warnings and errors are transcribed, and the
    [info] lines that mark the dispatch of a message. *)

Module AgentMaster.

Import MessagingManager.

Inductive Level : Type := INFO | WARN | ERROR.

Inductive EngineEvent : Type :=
| FromWorker (ev : JobsQueueManager.WorkerEvent)
| FromQueue (ev : JobsQueueManager.QueueEvent).

(** The surroundings of the process: the clock, the next value of
    [uuidv4()], what [new Date(text)] makes of a text, and the callbacks
    the job engine receives during each polling interval to come. *)
Record World : Type := {
  clock : Z;
  next_uuid : nat;
  date_parse : string -> JSDate;
  engine_events : list (list EngineEvent);
}.

Record IOrchestrationRequest : Type := {
  req_message : IIncomingMessage;
  req_jobId : string;
}.

Inductive Status : Type := Success | Failure.

Record IOrchestrationResponse : Type := {
  response : IOutgoingMessage;
  executedJobs : option (list string);
  resp_status : Status;
  resp_error : option string;
}.

Record t : Type := {
  functionsManager : FunctionsManager.registry;
  messagingManager : MessagingManager.t;
  jobsQueueManager : JobsQueueManager.t;
  llmManager : LLMManager.t;
  orchestrationMasterInstanceId : string;
  isInitialized : bool;
  activeRequests : gmap string IOrchestrationRequest;
  io : option (list (string * string));    (* events emitted on the socket *)
  log : list (Level * string);
  world : World;
}.

Definition with_messaging (x : MessagingManager.t) (s : t) : t :=
  {| functionsManager := functionsManager s; messagingManager := x;
     jobsQueueManager := jobsQueueManager s; llmManager := llmManager s;
     orchestrationMasterInstanceId := orchestrationMasterInstanceId s;
     isInitialized := isInitialized s; activeRequests := activeRequests s;
     io := io s; log := log s; world := world s |}.

Definition with_jobs (x : JobsQueueManager.t) (s : t) : t :=
  {| functionsManager := functionsManager s; messagingManager := messagingManager s;
     jobsQueueManager := x; llmManager := llmManager s;
     orchestrationMasterInstanceId := orchestrationMasterInstanceId s;
     isInitialized := isInitialized s; activeRequests := activeRequests s;
     io := io s; log := log s; world := world s |}.

Definition with_llm (x : LLMManager.t) (s : t) : t :=
  {| functionsManager := functionsManager s; messagingManager := messagingManager s;
     jobsQueueManager := jobsQueueManager s; llmManager := x;
     orchestrationMasterInstanceId := orchestrationMasterInstanceId s;
     isInitialized := isInitialized s; activeRequests := activeRequests s;
     io := io s; log := log s; world := world s |}.

Definition with_active (x : gmap string IOrchestrationRequest) (s : t) : t :=
  {| functionsManager := functionsManager s; messagingManager := messagingManager s;
     jobsQueueManager := jobsQueueManager s; llmManager := llmManager s;
     orchestrationMasterInstanceId := orchestrationMasterInstanceId s;
     isInitialized := isInitialized s; activeRequests := x;
     io := io s; log := log s; world := world s |}.

Definition with_io (x : option (list (string * string))) (s : t) : t :=
  {| functionsManager := functionsManager s; messagingManager := messagingManager s;
     jobsQueueManager := jobsQueueManager s; llmManager := llmManager s;
     orchestrationMasterInstanceId := orchestrationMasterInstanceId s;
     isInitialized := isInitialized s; activeRequests := activeRequests s;
     io := x; log := log s; world := world s |}.

Definition with_log (x : list (Level * string)) (s : t) : t :=
  {| functionsManager := functionsManager s; messagingManager := messagingManager s;
     jobsQueueManager := jobsQueueManager s; llmManager := llmManager s;
     orchestrationMasterInstanceId := orchestrationMasterInstanceId s;
     isInitialized := isInitialized s; activeRequests := activeRequests s;
     io := io s; log := x; world := world s |}.

Definition with_world (x : World) (s : t) : t :=
  {| functionsManager := functionsManager s; messagingManager := messagingManager s;
     jobsQueueManager := jobsQueueManager s; llmManager := llmManager s;
     orchestrationMasterInstanceId := orchestrationMasterInstanceId s;
     isInitialized := isInitialized s; activeRequests := activeRequests s;
     io := io s; log := log s; world := x |}.

Definition messaging {A} : M MessagingManager.t A -> M t A := zoom messagingManager with_messaging.
Definition engine {A} : M JobsQueueManager.t A -> M t A := zoom jobsQueueManager with_jobs.
Definition llm {A} : M LLMManager.t A -> M t A := zoom llmManager with_llm.

Definition logger (lvl : Level) (text : string) : M t unit :=
  modify (fun s => with_log (log s ++ [(lvl, text)]) s).

(** [if (this.io) this.io.emit(event, data)] *)
Definition emitEvent (event : string) (messageId : string) : M t unit :=
  modify (fun s =>
    match io s with
    | Some sent => with_io (Some (sent ++ [(event, messageId)])%list) s
    | None => s
    end).

Definition uuid_of (n : nat) : string := "uuid-" ++ pretty n.

Definition uuidv4 : M t string :=
  fun s =>
    let w := world s in
    (Ok (uuid_of (next_uuid w)),
     with_world {| clock := clock w; next_uuid := S (next_uuid w);
                   date_parse := date_parse w; engine_events := engine_events w |} s).

Definition Date_now : M t Z := gets (fun s => clock (world s)).

(** *** [parseLLMDecision] *)

(** [response.match(/\{[\s\S]*\}/)]: the text from the first opening brace
    to the last closing brace after it. *)
Fixpoint from_first_brace (s : string) : option string :=
  match s with
  | EmptyString => None
  | String c rest => if (c =? "{")%char then Some s else from_first_brace rest
  end.

Fixpoint upto_last_brace (s : string) : option string :=
  match s with
  | EmptyString => None
  | String c rest =>
      match upto_last_brace rest with
      | Some r => Some (String c r)
      | None => if (c =? "}")%char then Some (String c EmptyString) else None
      end
  end.

Definition jsonMatch (response : string) : option string :=
  match from_first_brace response with
  | Some s => upto_last_brace s
  | None => None
  end.

Definition fallback_decision : JSValue :=
  JObj [("action", JStr "direct_response");
        ("response_message",
         JStr "I understand your message, but I need more specific instructions to help you effectively.")].

Definition parseLLMDecision {S} (response : string) : M S JSValue :=
  try_catch
    (match jsonMatch response with
     | None => throw "No JSON found in LLM response"
     | Some text =>
         match Json.parse text with
         | Throw e => throw e
         | Ok decision =>
             if negb (truthy (get decision "action"))
             then throw "Missing action in LLM decision"
             else ret decision
         end
     end)
    (fun _ => ret fallback_decision).

(** The object the reply contains, when one can be extracted and parsed. *)
Definition parsed_decision (response : string) : option JSValue :=
  match jsonMatch response with
  | Some text =>
      match Json.parse text with
      | Ok decision => Some decision
      | Throw _ => None
      end
  | None => None
  end.

(** *** The decision and its execution *)

(** [new Date(v)] *)
Definition new_Date (w : World) (v : JSValue) : JSDate :=
  match v with
  | JStr s => date_parse w s
  | JNum q =>
      let ms := Z.quot (Qnum q) (Zpos (Qden q)) in
      if (Z.abs ms <=? 8640000000000000)%Z then ValidDate ms else InvalidDate
  | JBool b => ValidDate (if b then 1 else 0)
  | JNull => ValidDate 0
  | JUndefined => InvalidDate
  | JArr _ | JObj _ => date_parse w (to_string v)
  end.

(** [v ? new Date(v) : undefined] *)
Definition optional_date (w : World) (v : JSValue) : option JSDate :=
  if truthy v then Some (new_Date w v) else None.

(** [this.functionsManager.getFunction(decision.function_name)]: only a
    string can be a key of the registry. *)
Definition find_function (fm : FunctionsManager.registry) (name : JSValue)
  : option ICustomFunction :=
  match name with
  | JStr n => FunctionsManager.getFunction fm n
  | _ => None
  end.

Definition apology (message : string) : string :=
  "I apologize, but I encountered an error while processing your request: " ++ message.

(** The text of the prompts reaches only the vendor SDK, whose reply is
    given by [LLMManager.replies]; the function catalogue is not spelled
    out in it here. *)
Definition quoted (text : string) : string :=
  String Json.dquote (text ++ String Json.dquote EmptyString).

Definition analysisPrompt (content : string) : string :=
  "Message to analyze: " ++ quoted content.

Definition contextPrompt (originalMessage : string) (functionName : string) : string :=
  "Original user message: " ++ quoted originalMessage ++
  " Function executed: " ++ functionName.

(** One polling interval of [waitForJobCompletion] goes by: the callbacks
    of the job engine that arrive meanwhile run, and the clock moves on. *)
Definition apply_event (now : Z) (ev : EngineEvent) (j : JobsQueueManager.t)
  : JobsQueueManager.t :=
  match ev with
  | FromWorker e => JobsQueueManager.on_worker_event e now j
  | FromQueue e => JobsQueueManager.on_queue_event e now j
  end.

Definition interval : Z := 1000.

Definition pass_interval : M t unit :=
  modify (fun s =>
    let w := world s in
    let now := (clock w + interval)%Z in
    let batch := hd [] (engine_events w) in
    let j := fold_left (fun j ev => apply_event now ev j) batch (jobsQueueManager s) in
    with_world {| clock := now; next_uuid := next_uuid w;
                  date_parse := date_parse w;
                  engine_events := tl (engine_events w) |}
      (with_jobs j s)).

(** The callback of [setInterval], run [polls] times at most. *)
Fixpoint poll (polls : nat) (jobId : string) (startTime timeout : Z) : M t JSValue :=
  match polls with
  | O => throw "Job execution timeout"
  | S polls' =>
      pass_interval ;;;
      job <~ gets (fun s => JobsQueueManager.getJob (jobsQueueManager s) jobId) ;;
      match job with
      | None =>
          logger ERROR "Job not found during completion check" ;;;
          throw "Job not found"
      | Some job =>
          match status job with
          | COMPLETED => ret (job_result job)
          | FAILED =>
              logger ERROR "Job failed" ;;;
              throw (match job_error job with
                     | Some e => if String.eqb e "" then "Job failed" else e
                     | None => "Job failed"
                     end)
          | _ =>
              now <~ Date_now ;;
              if (timeout <? now - startTime)%Z then
                logger ERROR "Job execution timeout" ;;;
                throw "Job execution timeout"
              else poll polls' jobId startTime timeout
          end
      end
  end.

(** [waitForJobCompletion(jobId, timeout = 30000)]: with the clock moving
    by [interval] between two polls, the poll number
    [timeout / interval + 1] is past the deadline. *)
Definition waitForJobCompletion (jobId : string) (timeout : Z) : M t JSValue :=
  startTime <~ Date_now ;;
  poll (Z.to_nat (timeout / interval) + 1) jobId startTime timeout.

(** Returns [response.content], or the suggested text when the call fails. *)
Definition generateContextualResponse (originalMessage functionName : string)
    (functionResult suggestedResponse : JSValue) : M t JSValue :=
  try_catch
    (now <~ Date_now ;;
     id <~ gets orchestrationMasterInstanceId ;;
     content <~ llm (LLMManager.generateResponse id
                       (contextPrompt originalMessage functionName) now) ;;
     ret (JStr content))
    (fun _ =>
       logger ERROR "Error generating contextual response" ;;;
       ret (or_else suggestedResponse
              (JStr ("I've completed the " ++ functionName ++ " function successfully."))))%string.

Record DecisionResult : Type := {
  responseText : JSValue;
  result_jobs : option (list string);
}.

Definition execution_error (message : string) : JSValue :=
  JStr ("I encountered an error while executing the requested function: " ++ message).

Definition executeFunctionDecision (decision : JSValue) (request : IOrchestrationRequest)
  : M t DecisionResult :=
  let function_name := get decision "function_name" in
  try_catch
    (if negb (truthy function_name)
     then throw "Function name is required for execute_function action"
     else
       fm <~ gets functionsManager ;;
       match find_function fm function_name with
       | None =>
           logger ERROR "Function not found" ;;;
           throw ("Function " ++ to_string function_name ++ " not found")
       | Some _ =>
           w <~ gets world ;;
           let jobData :=
             {| functionName := to_string function_name;
                parameters := or_else (get decision "parameters") (JObj []);
                executionType := or_else (get decision "execution_type") INSTANT;
                scheduleTime := optional_date w (get decision "schedule_time");
                repeatInterval := get decision "repeat_interval";
                repeatDeadline := optional_date w (get decision "repeat_deadline");
                priority := None;
                retries := None |} in
           uuid <~ uuidv4 ;;
           now <~ Date_now ;;
           jobId <~ engine (JobsQueueManager.addJob fm uuid now jobData) ;;
           (* executedJobs.push(jobId): from here on the list is [jobId] *)
           try_catch
             (if strict_eq (executionType jobData) INSTANT then
                result <~ waitForJobCompletion jobId 30000 ;;
                contextualResponse <~
                  generateContextualResponse (msg_content (req_message request))
                    (to_string function_name) result (get decision "response_message") ;;
                ret {| responseText := contextualResponse; result_jobs := Some [jobId] |}
              else
                ret {| responseText :=
                         or_else (get decision "response_message")
                           (JStr ("I've scheduled the " ++ to_string function_name ++
                                  " function to run " ++
                                  (if strict_eq (executionType jobData) SCHEDULE
                                   then "at the specified time" else "repeatedly") ++ "."));
                       result_jobs := Some [jobId] |})
             (fun e =>
                logger ERROR "Error executing function decision" ;;;
                ret {| responseText := execution_error e; result_jobs := Some [jobId] |})
       end)
    (fun e =>
       logger ERROR "Error executing function decision" ;;;
       ret {| responseText := execution_error e; result_jobs := Some [] |}).

Definition cancelJobDecision (decision : JSValue) : M t DecisionResult :=
  let job_id := get decision "job_id" in
  try_catch
    (if negb (truthy job_id) then throw "Job ID is required for cancel_job action"
     else
       now <~ Date_now ;;
       cancelled <~
         match job_id with
         | JStr id => engine (JobsQueueManager.cancelJob id now)
         | _ => ret false
         end ;;
       ret {| responseText :=
                JStr (if cancelled : bool
                      then "Job " ++ to_string job_id ++ " has been cancelled successfully."
                      else "Could not cancel job " ++ to_string job_id ++
                           ". It may not exist or already be completed.");
              result_jobs := None |})
    (fun e => ret {| responseText := JStr ("Error cancelling job: " ++ e);
                     result_jobs := None |}).

(** The number of modules reporting [healthy], out of five: the
    orchestrator when initialised, the messaging manager when connected,
    the LLM manager when it has an instance, the other two always. *)
Definition healthy_modules (s : t) : Z :=
  (if isInitialized s then 1 else 0) + 1 +
  (if isConnected (messagingManager s) then 1 else 0) + 1 +
  (if bool_decide (size (LLMManager.instances (llmManager s)) = 0%nat) then 0 else 1).

Definition getStatusDecision (decision : JSValue) : M t DecisionResult :=
  try_catch
    (stats <~ engine JobsQueueManager.getQueueStats ;;
     s <~ gets (fun s => s) ;;
     ret {| responseText :=
              JStr (nl ++ "System Status:" ++ nl ++ "- Jobs: " ++
                    show_Z (JobsQueueManager.active stats) ++ " active, " ++
                    show_Z (JobsQueueManager.waiting stats) ++ " waiting, " ++
                    show_Z (JobsQueueManager.completed stats) ++ " completed" ++ nl ++
                    "- Functions: " ++
                    show_Z (Z.of_nat (size (functionsManager s))) ++ " loaded" ++ nl ++
                    "- LLM Instances: " ++
                    show_Z (Z.of_nat (size (LLMManager.instances (llmManager s)))) ++
                    " available" ++ nl ++
                    "- Modules: " ++ show_Z (healthy_modules s) ++ "/5 healthy");
            result_jobs := None |})
    (fun e => ret {| responseText := JStr ("Error getting status: " ++ e);
                     result_jobs := None |}).

Definition executeDecision (decision : JSValue) (request : IOrchestrationRequest)
  : M t DecisionResult :=
  let action := get decision "action" in
  if is_string action "execute_function" then executeFunctionDecision decision request
  else if is_string action "cancel_job" then cancelJobDecision decision
  else if is_string action "get_status" then getStatusDecision decision
  else ret {| responseText := or_else (get decision "response_message")
                                      (JStr "I've processed your message.");
              result_jobs := None |}.

Definition jobs_value (jobs : option (list string)) : JSValue :=
  match jobs with
  | Some ids => JArr (map JStr ids)
  | None => JUndefined
  end.

(** *** [orchestrationMaster] *)

Definition orchestrationMaster (request : IOrchestrationRequest)
  : M t IOrchestrationResponse :=
  let message := req_message request in
  try_catch
    (now <~ Date_now ;;
     id <~ gets orchestrationMasterInstanceId ;;
     content <~ llm (LLMManager.generateResponse id
                       (analysisPrompt (msg_content message)) now) ;;
     if String.eqb content "" then throw "Invalid response from LLM"
     else
       decision <~ parseLLMDecision content ;;
       result <~ executeDecision decision request ;;
       uuid <~ uuidv4 ;;
       now <~ Date_now ;;
       let responseMessage :=
         createOutgoingMessage uuid now (responseText result)
           (JObj [("originalMessageId", JStr (msg_id message));
                  ("action", get decision "action");
                  ("executedJobs", jobs_value (result_jobs result));
                  ("isResponse", JBool true)]) in
       ret {| response := responseMessage; executedJobs := result_jobs result;
              resp_status := Success; resp_error := None |})
    (fun e =>
       logger ERROR "OrchestrationMaster error" ;;;
       uuid <~ uuidv4 ;;
       now <~ Date_now ;;
       let errorMessage :=
         createOutgoingMessage uuid now (JStr (apology e))
           (JObj [("error", JBool true);
                  ("originalMessageId", JStr (msg_id message));
                  ("errorTimestamp", JNum (inject_Z now));
                  ("isResponse", JBool true)]) in
       ret {| response := errorMessage; executedJobs := None;
              resp_status := Failure; resp_error := Some e |}).

(** *** [handleIncomingMessage] *)

Definition is_active (id : string) (s : t) : bool :=
  bool_decide (is_Some (activeRequests s !! id)).

(** [!message.id || !message.content || !message.timestamp] *)
Definition invalid_format (message : IIncomingMessage) : bool :=
  String.eqb (msg_id message) "" || String.eqb (msg_content message) "" ||
  negb (bool_decide (is_Some (msg_timestamp message))).

(** The [try] block, in two parts.  The first runs without interruption
    when the message is delivered: it records the request as active.  The
    second starts with the call of [orchestrationMaster], the first point
    where the handler waits and other deliveries can be served. *)
Definition begin_processing (message : IIncomingMessage) (requestId : string)
  : M t IOrchestrationRequest :=
  let id := msg_id message in
  emitEvent "message:processing" id ;;;
  let request := {| req_message := message; req_jobId := requestId |} in
  modify (fun s => with_active (<[id := request]> (activeRequests s)) s) ;;;
  emitEvent "message:orchestration" id ;;;
  logger INFO "Calling orchestrationMaster" ;;;
  ret request.

(** Send response via MessagingManager. *)
Definition respond (id : string) (answer : IOrchestrationResponse) : M t unit :=
  emitEvent "message:responding" id ;;;
  logger INFO "Sending response" ;;;
  messaging (sendMessage (response answer)) ;;;
  emitEvent "message:complete" id.

(** [orchestrationMaster] always returns a record with a [response] field,
    so the test [!response || !response.response] is not transcribed. *)
Definition finish_processing (request : IOrchestrationRequest) : M t unit :=
  answer <~ orchestrationMaster request ;;
  respond (msg_id (req_message request)) answer.

Definition process (message : IIncomingMessage) (requestId : string) : M t unit :=
  request <~ begin_processing message requestId ;;
  finish_processing request.

(** The [catch] block. *)
Definition recover (message : IIncomingMessage) (requestId : string) (e : string)
  : M t unit :=
  let id := msg_id message in
  logger ERROR ("Error processing message " ++ id ++ ": " ++ e) ;;;
  emitEvent "message:error" id ;;;
  active <~ gets (is_active id) ;;
  (* Only send error response if we haven't already sent one *)
  if negb active then
    uuid <~ uuidv4 ;;
    now <~ Date_now ;;
    let errorResponse :=
      createOutgoingMessage uuid now (JStr (apology e))
        (JObj [("error", JBool true); ("requestId", JStr requestId);
               ("originalMessageId", JStr id);
               ("errorTimestamp", JNum (inject_Z now));
               ("isResponse", JBool true)]) in
    messaging (sendMessage errorResponse)
  else ret tt.

Definition handleIncomingMessage (message : IIncomingMessage) : M t unit :=
  let id := msg_id message in
  requestId <~ uuidv4 ;;
  active <~ gets (is_active id) ;;
  if active : bool then
    logger WARN "Message already being processed"
  else if invalid_format message then
    logger ERROR "Invalid message format"
  else if truthy (get (msg_metadata message) "isResponse") then
    ret tt
  else
    finally
      (try_catch (process message requestId) (recover message requestId))
      (fun s => with_active (delete id (activeRequests s)) s).

(** The number of messages handed to [orchestrationMaster] so far. *)
Definition is_dispatch (entry : Level * string) : bool :=
  match entry with
  | (INFO, text) => String.eqb text "Calling orchestrationMaster"
  | _ => false
  end.

Definition dispatches (s : t) : nat := length (List.filter is_dispatch (log s)).

(** The state after [uuidv4()] has been called once more. *)
Definition next_request (s : t) : t :=
  let w := world s in
  with_world {| clock := clock w; next_uuid := S (next_uuid w);
                date_parse := date_parse w; engine_events := engine_events w |} s.

(** A method leaves a part of the state as it found it. *)
Definition keeps {A B} (part : t -> B) (m : M t A) : Prop :=
  forall s, part (final (m s)) = part s.

(** A message the handler accepts: its id is not in flight, it has the
    three fields, and it is not marked as a response. *)
Definition accepted (message : IIncomingMessage) (s : t) : Prop :=
  is_active (msg_id message) s = false /\
  invalid_format message = false /\
  truthy (get (msg_metadata message) "isResponse") = false.

(** The request built for a message delivered in state [s], and the state
    in which its orchestration starts. *)
Definition request_of (message : IIncomingMessage) (s : t) : IOrchestrationRequest :=
  {| req_message := message; req_jobId := uuid_of (next_uuid (world s)) |}.

Definition registered (message : IIncomingMessage) (s : t) : t :=
  final (begin_processing message (uuid_of (next_uuid (world s))) (next_request s)).

(** Deliveries handled one after the other. *)
Definition deliver_all (messages : list IIncomingMessage) (s : t) : t :=
  fold_left (fun s m => final (handleIncomingMessage m s)) messages s.

(** The job data that [executeFunctionDecision] builds from a decision. *)
Definition decision_job (decision : JSValue) (w : World) : IJobData :=
  {| functionName := to_string (get decision "function_name");
     parameters := or_else (get decision "parameters") (JObj []);
     executionType := or_else (get decision "execution_type") INSTANT;
     scheduleTime := optional_date w (get decision "schedule_time");
     repeatInterval := get decision "repeat_interval";
     repeatDeadline := optional_date w (get decision "repeat_deadline");
     priority := None;
     retries := None |}.

(** The part of [executeFunctionDecision] that follows [addJob]. *)
Definition report_job (decision : JSValue) (request : IOrchestrationRequest)
    (jobId : string) : M t DecisionResult :=
  let function_name := get decision "function_name" in
  let type := or_else (get decision "execution_type") INSTANT in
  try_catch
    (if strict_eq type INSTANT then
       result <~ waitForJobCompletion jobId 30000 ;;
       contextualResponse <~
         generateContextualResponse (msg_content (req_message request))
           (to_string function_name) result (get decision "response_message") ;;
       ret {| responseText := contextualResponse; result_jobs := Some [jobId] |}
     else
       ret {| responseText :=
                or_else (get decision "response_message")
                  (JStr ("I've scheduled the " ++ to_string function_name ++
                         " function to run " ++
                         (if strict_eq type SCHEDULE
                          then "at the specified time" else "repeatedly") ++ "."));
              result_jobs := Some [jobId] |})
    (fun e =>
       logger ERROR "Error executing function decision" ;;;
       ret {| responseText := execution_error e; result_jobs := Some [jobId] |}).

(** A method keeps a property of the job engine. *)
Definition engine_keeps {A} (Q : JobsQueueManager.t -> Prop) (m : M t A) : Prop :=
  forall s, Q (jobsQueueManager s) -> Q (jobsQueueManager (final (m s))).

(** The character occurs in the text. *)
Fixpoint has_char (c : ascii) (s : string) : bool :=
  match s with
  | EmptyString => false
  | String c' rest => (c' =? c)%char || has_char c rest
  end.

End AgentMaster.

(* ===================================================================== *)
(** ** Concrete data for examples *)
(* ===================================================================== *)

Module Samples.

Import JobsQueueManager.

(** A registry holding the helper function [mathUtils] and a runner. *)
Definition heartbeat : ICustomFunction :=
  {| definition :=
       {| def_name := "heartbeat"; def_description := "Periodic liveness probe";
          def_type := RUNNER; def_parameters := [];
          def_timeout := Some 5000; def_retries := None |};
     handler := fun _ => Settles 10 (Ok (JStr "alive")) |}.

Definition registry : FunctionsManager.registry :=
  {[ "mathUtils" := MathUtils.mathUtilsFunction; "heartbeat" := heartbeat ]}.

Definition no_counts : JobCounts :=
  {| waiting := 0; active := 0; completed := 0; failed := 0; delayed := 0; paused := 0 |}.

Definition empty_queue : Queue :=
  {| connected := true; stored := ∅; counts := no_counts |}.

(** A job engine with no job. *)
Definition idle_engine : JobsQueueManager.t :=
  {| jobs := ∅; scheduledJobs := ∅; repeatJobs := ∅; queue := empty_queue |}.

Definition average_params : JSValue :=
  JObj [("numbers", JArr [JNum 10; JNum 20; JNum 30; JNum 45; JNum 55]);
        ("operation", JStr "average")].

Definition job_spec (name : string) (type : JSValue) : IJobData :=
  {| functionName := name; parameters := average_params; executionType := type;
     scheduleTime := None; repeatInterval := JUndefined; repeatDeadline := None;
     priority := None; retries := None |}.

Definition with_schedule (d : IJobData) (time : option JSDate) : IJobData :=
  {| functionName := functionName d; parameters := parameters d;
     executionType := executionType d; scheduleTime := time;
     repeatInterval := repeatInterval d; repeatDeadline := repeatDeadline d;
     priority := priority d; retries := retries d |}.

Definition with_interval (d : IJobData) (every : JSValue) : IJobData :=
  {| functionName := functionName d; parameters := parameters d;
     executionType := executionType d; scheduleTime := scheduleTime d;
     repeatInterval := every; repeatDeadline := repeatDeadline d;
     priority := priority d; retries := retries d |}.

(** A job that ran to completion at time 2000 with result 32. *)
Definition finished_job : IJob :=
  {| job_id := "job-1"; job_data := job_spec "mathUtils" INSTANT;
     status := COMPLETED; createdAt := 1000; startedAt := Some 1500;
     completedAt := Some 2000; job_result := JNum 32; job_error := None |}.

(** An engine that knows only [finished_job]; the broker has already
    dropped its copy. *)
Definition engine_with_finished_job : JobsQueueManager.t :=
  {| jobs := {[ "job-1" := finished_job ]}; scheduledJobs := ∅;
     repeatJobs := ∅; queue := empty_queue |}.

(** A function declared with a timeout of 5000 ms whose handler settles
    after 8000 ms. *)
Definition sleeper : ICustomFunction :=
  {| definition :=
       {| def_name := "sleeper"; def_description := "Sleeps, then answers";
          def_type := WORKER; def_parameters := [];
          def_timeout := Some 5000; def_retries := None |};
     handler := fun _ => Settles 8000 (Ok (JStr "done")) |}.

Definition slow_registry : FunctionsManager.registry := {[ "sleeper" := sleeper ]}.

(** A function declared with a timeout of 3000000000 ms, more than a
    timer of Node takes, whose handler settles after 5000 ms. *)
Definition patient : ICustomFunction :=
  {| definition :=
       {| def_name := "patient"; def_description := "Answers after five seconds";
          def_type := WORKER; def_parameters := [];
          def_timeout := Some 3000000000; def_retries := None |};
     handler := fun _ => Settles 5000 (Ok (JStr "done")) |}.

Definition patient_registry : FunctionsManager.registry := {[ "patient" := patient ]}.

Definition llm_config : LLMManager.ILLMConfig :=
  {| LLMManager.provider := LLMManager.ANTHROPIC; LLMManager.apiKey := "key";
     LLMManager.model := "claude-3-sonnet-20240229";
     LLMManager.temperature := Some (3 # 10)%Q;
     LLMManager.maxTokens := Some 4000; LLMManager.systemPrompt := None |}.

Definition instance (id : string) (used : option JSDate) : LLMManager.ILLMInstance :=
  {| LLMManager.inst_id := id; LLMManager.config := llm_config;
     LLMManager.inst_createdAt := ValidDate 0; LLMManager.lastUsed := used |}.

Definition day : Z := 86400000.

(** Three instances at time [3 * day]: one used two days ago, one used an
    hour ago, one never used. *)
Definition instances : gmap string LLMManager.ILLMInstance :=
  {[ "stale" := instance "stale" (Some (ValidDate day));
     "fresh" := instance "fresh" (Some (ValidDate (3 * day - 3600000)));
     "unused" := instance "unused" None ]}.

(** An orchestrator with a usable transport, the two sample functions, one
    LLM instance, and the vendor replies given. *)
Definition orchestrator (replies : list (Res string)) : AgentMaster.t :=
  {| AgentMaster.functionsManager := registry;
     AgentMaster.messagingManager :=
       {| MessagingManager.isConnected := true;
          MessagingManager.connectAttempt := Ok tt;
          MessagingManager.channel := Some (Ok tt);
          MessagingManager.published := [] |};
     AgentMaster.jobsQueueManager := idle_engine;
     AgentMaster.llmManager :=
       {| LLMManager.instances := {[ "llm-0" := instance "llm-0" None ]};
          LLMManager.replies := replies |};
     AgentMaster.orchestrationMasterInstanceId := "llm-0";
     AgentMaster.isInitialized := true;
     AgentMaster.activeRequests := ∅;
     AgentMaster.io := None;
     AgentMaster.log := [];
     AgentMaster.world :=
       {| AgentMaster.clock := 1000000; AgentMaster.next_uuid := 0;
          AgentMaster.date_parse := fun _ => InvalidDate;
          AgentMaster.engine_events := [] |} |}.

Definition inbound (id : string) : MessagingManager.IIncomingMessage :=
  {| MessagingManager.msg_id := id;
     MessagingManager.msg_content := "What is the answer?";
     MessagingManager.msg_metadata := JObj [("userId", JStr "u1")];
     MessagingManager.msg_timestamp := Some (ValidDate 999000) |}.

(** JSON text written with apostrophes in place of double quotes. *)
Definition json (text : string) : string :=
  string_of_list_ascii
    (map (fun c => if (c =? "'")%char then Json.dquote else c)
         (list_ascii_of_string text)).

(** The decision of the model for the request to average five numbers,
    and its later summary of the result. *)
Definition average_decision : string :=
  json ("{'action': 'execute_function', 'function_name': 'mathUtils', " ++
        "'parameters': {'numbers': [10, 20, 30, 45, 55], 'operation': 'average'}, " ++
        "'execution_type': 'instant', 'response_message': 'Computing the average'}").

Definition average_summary : string := "The average of the five numbers is 32.".

(** The orchestrator of the scenario: the model gives the decision and then
    the summary; the worker picks the job up during the first polling
    interval and finishes it during the second. *)
Definition average_orchestrator : AgentMaster.t :=
  let s := orchestrator [Ok average_decision; Ok average_summary] in
  AgentMaster.with_world
    {| AgentMaster.clock := 1000000; AgentMaster.next_uuid := 0;
       AgentMaster.date_parse := fun _ => InvalidDate;
       AgentMaster.engine_events :=
         [ [AgentMaster.FromQueue (QueueWaiting "uuid-1");
            AgentMaster.FromWorker (WorkerActive "uuid-1")];
           [AgentMaster.FromWorker
              (worker_event "uuid-1"
                 (processJob registry (job_spec "mathUtils" INSTANT)))] ] |}
    s.

(** A reply of the model whose [response_message] is a number. *)
Definition numeric_reply : string :=
  json "{'action': 'direct_response', 'response_message': 42}".

(** A reply of the model whose [action] is the empty string. *)
Definition empty_action_reply : string :=
  json "Here you go: {'action': '', 'response_message': 'Hello!'}".

(** A reply with explanatory text around a well-formed decision. *)
Definition wordy_reply : string :=
  json "Sure. {'action': 'get_status'} Anything else?".

End Samples.

(* ===================================================================== *)
(** * Properties *)
(* ===================================================================== *)

(** ** The job engine *)

Section JobsQueueManagerFacts.

Import JobsQueueManager.

Implicit Types (s : JobsQueueManager.t) (jobId : string) (now : Z).

Lemma updateJobStatus_unknown s jobId st result error now :
  jobs s !! jobId = None ->
  updateJobStatus jobId st result error now s = s.
Proof. intros H. unfold updateJobStatus. now rewrite H. Qed.

Lemma updateJobStatus_known s jobId job st result error now :
  jobs s !! jobId = Some job ->
  jobs (updateJobStatus jobId st result error now s)
  = <[jobId := update_record job st result error now]> (jobs s).
Proof. intros H. unfold updateJobStatus. now rewrite H. Qed.

Lemma updateJobStatus_queue s jobId st result error now :
  queue (updateJobStatus jobId st result error now s) = queue s.
Proof. unfold updateJobStatus. now destruct (jobs s !! jobId). Qed.

(** C10.  A status update for a job id that is not in the job-status map
    changes nothing: [updateJobStatus] itself, and every worker or queue
    callback about that id, return the manager as it was, with the same
    map. *)
Theorem status_update_for_unknown_job_is_noop s jobId :
  jobs s !! jobId = None ->
  (forall st result error now,
      updateJobStatus jobId st result error now s = s) /\
  (forall ev now,
      worker_event_job ev = Some jobId -> on_worker_event ev now s = s) /\
  (forall ev now,
      queue_event_job ev = jobId -> on_queue_event ev now s = s).
Proof.
  intros Hnone. split; [| split].
  - intros. now apply updateJobStatus_unknown.
  - intros ev now Hev.
    destruct ev as [j r | [j |] m | j | j | m]; simpl in Hev |- *;
      try discriminate; try reflexivity;
      injection Hev as ->; now apply updateJobStatus_unknown.
  - intros ev now Hev.
    destruct ev; simpl in Hev |- *; subst; now apply updateJobStatus_unknown.
Qed.

(** The engine knows [job-1] only; a failure reported for [job-2] leaves
    it as it is. *)
Lemma status_update_for_unknown_job_is_noop_witness :
  updateJobStatus "job-2" FAILED JNull (Some "boom") 7000
    Samples.engine_with_finished_job
  = Samples.engine_with_finished_job /\
  on_queue_event (QueueFailed "job-2" "boom") 7000 Samples.engine_with_finished_job
  = Samples.engine_with_finished_job.
Proof.
  destruct (status_update_for_unknown_job_is_noop
              Samples.engine_with_finished_job "job-2") as [Hupd [_ Hq]].
  - vm_compute. reflexivity.
  - split; [apply Hupd | now apply Hq].
Defined.

End JobsQueueManagerFacts.

Section CancelJob.

Import JobsQueueManager.

(** Whatever the status of a known job, [cancelJob] marks it cancelled and
    answers [true], as long as the broker calls go through: there is no
    test of the current status on the way. *)
Lemma cancelJob_known_job (s : JobsQueueManager.t) jobId job now :
  jobs s !! jobId = Some job ->
  connected (queue s) = true ->
  (forall bj, stored (queue s) !! jobId = Some bj -> bull_locked bj = false) ->
  result (cancelJob jobId now s) = Ok true /\
  status_of (final (cancelJob jobId now s)) jobId = Some CANCELLED.
Proof.
  intros Hjob Hconn Hq.
  unfold cancelJob, try_catch, bind, gets, queue_getJob, bullJob_remove,
    modify, ret; simpl.
  rewrite Hjob, Hconn; simpl.
  destruct (stored (queue s) !! jobId) as [bj |] eqn:Hbj; simpl.
  - rewrite Hconn, (Hq bj eq_refl); simpl. split; [reflexivity |].
    unfold status_of, updateJobStatus; simpl. rewrite Hjob; simpl.
    now rewrite lookup_insert_eq.
  - split; [reflexivity |].
    unfold status_of, updateJobStatus; simpl. rewrite Hjob; simpl.
    now rewrite lookup_insert_eq.
Qed.

(** It answers [false], and changes nothing, for an unknown id and when a
    broker call throws: the connection is down, or the job is locked by the
    worker that runs it. *)
Lemma cancelJob_unknown_job (s : JobsQueueManager.t) jobId now :
  jobs s !! jobId = None ->
  cancelJob jobId now s = (Ok false, s).
Proof.
  intros Hjob. unfold cancelJob, try_catch, bind, gets, ret; simpl.
  now rewrite Hjob.
Qed.

Lemma cancelJob_broker_down (s : JobsQueueManager.t) jobId now :
  connected (queue s) = false ->
  cancelJob jobId now s = (Ok false, s).
Proof.
  intros Hconn.
  unfold cancelJob, try_catch, bind, gets, queue_getJob, ret; simpl.
  destruct (jobs s !! jobId); [| reflexivity].
  now rewrite Hconn.
Qed.

Lemma cancelJob_locked_job (s : JobsQueueManager.t) jobId bj now :
  stored (queue s) !! jobId = Some bj ->
  bull_locked bj = true ->
  cancelJob jobId now s = (Ok false, s).
Proof.
  intros Hbj Hlocked.
  unfold cancelJob, try_catch, bind, gets, queue_getJob, bullJob_remove, ret; simpl.
  destruct (jobs s !! jobId); [| reflexivity].
  destruct (connected (queue s)) eqn:Hconn; simpl; [| reflexivity].
  rewrite Hbj; simpl. now rewrite Hconn, Hlocked.
Qed.

(** C2, on the code.  [job-1] is COMPLETED; [cancelJob "job-1"] answers
    [true] and overwrites its status with CANCELLED. *)
Theorem cancelJob_overwrites_completed_job :
  is_terminal (status Samples.finished_job) = true /\
  status_of Samples.engine_with_finished_job "job-1" = Some COMPLETED /\
  result (cancelJob "job-1" 5000 Samples.engine_with_finished_job) = Ok true /\
  status_of (final (cancelJob "job-1" 5000 Samples.engine_with_finished_job)) "job-1"
  = Some CANCELLED.
Proof. repeat split; vm_compute; reflexivity. Qed.

End CancelJob.

Section AddJob.

Import JobsQueueManager FunctionsManager.

Implicit Types (fm : FunctionsManager.registry) (s : JobsQueueManager.t)
  (jd : IJobData) (uuid : string) (now : Z).

Lemma addJob_unknown_function fm uuid now jd s :
  getFunction fm (functionName jd) = None ->
  addJob fm uuid now jd s = (Throw (function_not_found (functionName jd)), s).
Proof. intros H. unfold addJob. now rewrite H. Qed.

(** Once the function is found, the record is stored first and the mode is
    looked at afterwards. *)
Lemma addJob_repeat_unfold fm uuid now jd s func :
  executionType jd = REPEAT ->
  getFunction fm (functionName jd) = Some func ->
  addJob fm uuid now jd s
  = (modify (set_jobs (insert uuid
               {| job_id := uuid; job_data := jd; status := PENDING;
                  createdAt := now; startedAt := None; completedAt := None;
                  job_result := JUndefined; job_error := None |})) ;;;
     addRepeatJob fm uuid jd now ;;; ret uuid) s.
Proof.
  intros Hty Hf. unfold addJob. rewrite Hf, Hty. reflexivity.
Qed.

Lemma addJob_schedule_unfold fm uuid now jd s func :
  executionType jd = SCHEDULE ->
  getFunction fm (functionName jd) = Some func ->
  addJob fm uuid now jd s
  = (modify (set_jobs (insert uuid
               {| job_id := uuid; job_data := jd; status := PENDING;
                  createdAt := now; startedAt := None; completedAt := None;
                  job_result := JUndefined; job_error := None |})) ;;;
     addScheduledJob uuid jd now ;;; ret uuid) s.
Proof.
  intros Hty Hf. unfold addJob. rewrite Hf, Hty. reflexivity.
Qed.

(** C3, as stated, fails on the code.  A repeat job for the helper
    [mathUtils], with no [repeatInterval]: the call does not fail with the
    not-repeatable error (the interval is checked first), and the job-status
    map is not what it was (the PENDING record stored before the mode is
    examined stays). *)
Lemma addJob_repeat_helper_not_as_claimed :
  let jd := Samples.job_spec "mathUtils" REPEAT in
  let r := addJob Samples.registry "job-7" 1000 jd Samples.idle_engine in
  executionType jd = REPEAT /\
  def_type <$> (definition <$> getFunction Samples.registry (functionName jd))
    = Some HELPER /\
  result r = Throw repeat_interval_required /\
  status_of (final r) "job-7" = Some PENDING /\
  ~ (result r = Throw not_repeatable /\ jobs (final r) = jobs Samples.idle_engine).
Proof.
  repeat split; try (vm_compute; reflexivity).
  intros [H _]. vm_compute in H. discriminate H.
Qed.

(** C3, amended.  A repeat job for a registered function that is not a
    runner is refused: with the not-repeatable error when a (truthy)
    [repeatInterval] is given, with the interval-required error otherwise;
    in both cases nothing reaches the durable queue. *)
Theorem addJob_repeat_non_runner fm uuid now jd s func :
  executionType jd = REPEAT ->
  getFunction fm (functionName jd) = Some func ->
  def_type (definition func) <> RUNNER ->
  result (addJob fm uuid now jd s)
  = Throw (if truthy (repeatInterval jd) then not_repeatable
           else repeat_interval_required) /\
  queue (final (addJob fm uuid now jd s)) = queue s.
Proof.
  intros Hty Hf Hnr.
  rewrite (addJob_repeat_unfold _ _ _ _ _ _ Hty Hf).
  unfold bind, modify, addRepeatJob, throw; simpl.
  destruct (truthy (repeatInterval jd)); simpl; [| now split].
  rewrite Hf; simpl.
  destruct (def_type (definition func)); simpl; try (now split).
Qed.

Lemma addJob_repeat_non_runner_witness :
  result (addJob Samples.registry "job-8" 1000
            (Samples.with_interval (Samples.job_spec "mathUtils" REPEAT) (JNum 60000))
            Samples.idle_engine)
  = Throw not_repeatable /\
  queue (final (addJob Samples.registry "job-8" 1000
            (Samples.with_interval (Samples.job_spec "mathUtils" REPEAT) (JNum 60000))
            Samples.idle_engine))
  = queue Samples.idle_engine.
Proof.
  apply (addJob_repeat_non_runner Samples.registry "job-8" 1000
           (Samples.with_interval (Samples.job_spec "mathUtils" REPEAT) (JNum 60000))
           Samples.idle_engine MathUtils.mathUtilsFunction).
  - reflexivity.
  - reflexivity.
  - simpl. discriminate.
Defined.

(** C4, as stated, fails on the code.  A schedule job without a
    [scheduleTime] for a function that is not registered: the call fails,
    but with the function-not-found error, raised before the schedule is
    looked at. *)
Lemma addJob_schedule_unknown_function_not_as_claimed :
  let jd := Samples.job_spec "translate" SCHEDULE in
  let r := addJob Samples.registry "job-9" 1000 jd Samples.idle_engine in
  executionType jd = SCHEDULE /\
  scheduleTime jd = None /\
  result r = Throw "Function translate not found" /\
  ~ (exists e, result r = Throw e /\ invalid_schedule e).
Proof.
  repeat split; try (vm_compute; reflexivity).
  intros [e [H [He | He]]]; vm_compute in H; subst e; discriminate H.
Qed.

(** C4, amended.  For a schedule job whose function is registered and
    whose schedule time, when given, is a date: [addJob] fails with one of
    the two schedule errors exactly when the schedule time is absent or
    not strictly in the future (the time minus now is [<= 0]);
    otherwise, when the broker accepts the job, [addJob] returns the id
    and the queue holds the job under that id with the delay, the time
    minus now. *)
Theorem addJob_schedule fm uuid now jd s func :
  executionType jd = SCHEDULE ->
  getFunction fm (functionName jd) = Some func ->
  scheduleTime jd <> Some InvalidDate ->
  ((exists e, result (addJob fm uuid now jd s) = Throw e /\ invalid_schedule e)
   <-> (scheduleTime jd = None \/
        exists t, scheduleTime jd = Some (ValidDate t) /\ t - now <= 0)) /\
  (forall t,
      scheduleTime jd = Some (ValidDate t) ->
      0 < t - now ->
      connected (queue s) = true ->
      result (addJob fm uuid now jd s) = Ok uuid /\
      exists entry,
        stored (queue (final (addJob fm uuid now jd s))) !! uuid = Some entry /\
        bull_data entry = jd /\
        opt_delay (bull_opts entry) = Some (Millis (t - now))).
Proof.
  intros Hty Hf Hdate.
  rewrite (addJob_schedule_unfold _ _ _ _ _ _ Hty Hf).
  unfold bind, modify, addScheduledJob, throw, schedule_delay; simpl.
  destruct (scheduleTime jd) as [[t |] |] eqn:Htime; simpl;
    [| congruence |].
  - destruct (t - now <=? 0) eqn:Hle; simpl.
    + apply Z.leb_le in Hle. split.
      * split.
        -- intros _. right. exists t. now split.
        -- intros _. exists schedule_time_past. split; [reflexivity | now right].
      * intros t' Heq Hfuture. injection Heq as <-. lia.
    + apply Z.leb_gt in Hle. split.
      * split.
        -- intros [e [He Hinv]].
           unfold queue_add, ret in He; simpl in He.
           destruct (connected (queue s)); simpl in He; [discriminate He |].
           injection He as <-. destruct Hinv as [Hinv | Hinv]; discriminate Hinv.
        -- intros [Hnone | [t' [Heq Hle']]]; [discriminate Hnone |].
           injection Heq as <-. lia.
      * intros t' Heq _ Hconn. injection Heq as <-.
        unfold queue_add, ret; simpl. rewrite Hconn; simpl.
        split; [reflexivity |].
        eexists. split; [apply lookup_insert_eq |]. now split.
  - split.
    + split.
      * intros _. now left.
      * intros _. exists schedule_time_required. split; [reflexivity | now left].
    + intros t' Heq. discriminate Heq.
Qed.

Lemma addJob_schedule_witness :
  result (addJob Samples.registry "job-10" 1000
            (Samples.with_schedule (Samples.job_spec "mathUtils" SCHEDULE)
               (Some (ValidDate 61000)))
            Samples.idle_engine)
  = Ok "job-10".
Proof.
  destruct (addJob_schedule Samples.registry "job-10" 1000
              (Samples.with_schedule (Samples.job_spec "mathUtils" SCHEDULE)
                 (Some (ValidDate 61000)))
              Samples.idle_engine MathUtils.mathUtilsFunction) as [_ Henq].
  - reflexivity.
  - reflexivity.
  - simpl. discriminate.
  - destruct (Henq 61000) as [Hres _].
    + reflexivity.
    + lia.
    + reflexivity.
    + exact Hres.
Defined.

(** A schedule time that is an Invalid Date is not caught by the test on
    the delay: [NaN <= 0] is false, and the job is queued with a [NaN]
    delay. *)
Lemma addJob_schedule_invalid_date :
  let jd := Samples.with_schedule (Samples.job_spec "mathUtils" SCHEDULE)
              (Some InvalidDate) in
  let r := addJob Samples.registry "job-11" 1000 jd Samples.idle_engine in
  result r = Ok "job-11" /\
  (opt_delay <$> (bull_opts <$> stored (queue (final r)) !! "job-11"))
  = Some (Some NaN).
Proof. split; vm_compute; reflexivity. Qed.

End AddJob.

(** ** The LLM gateway: [cleanup] *)

Section Cleanup.

Import LLMManager.

Implicit Types (m : gmap string ILLMInstance) (id : string) (now : Z).

(** The loop, run over any list of entries: an id keeps its binding when
    none of its entries in the list is idle, and loses it when one is. *)
Lemma cleanup_loop_keeps d (l : list (string * ILLMInstance)) m id :
  (forall i, (id, i) ∈ l -> idle_since d i = false) ->
  foldr (cleanup_step d) m l !! id = m !! id.
Proof.
  induction l as [| [k i] l IH]; intros Hl; simpl; [reflexivity |].
  unfold cleanup_step at 1; simpl.
  destruct (idle_since d i) eqn:Hidle.
  - destruct (decide (k = id)) as [-> | Hne].
    + rewrite (Hl i) in Hidle; [discriminate | left].
    + rewrite lookup_delete_ne by exact Hne.
      apply IH. intros i' Hin. apply Hl. now right.
  - apply IH. intros i' Hin. apply Hl. now right.
Qed.

Lemma cleanup_loop_drops d (l : list (string * ILLMInstance)) m id i :
  (id, i) ∈ l -> idle_since d i = true ->
  foldr (cleanup_step d) m l !! id = None.
Proof.
  induction l as [| [k j] l IH]; intros Hin Hidle; simpl.
  - now apply elem_of_nil in Hin.
  - unfold cleanup_step at 1; simpl.
    apply elem_of_cons in Hin as [Heq | Hin].
    + injection Heq as <- <-. rewrite Hidle. apply lookup_delete_eq.
    + destruct (idle_since d j).
      * destruct (decide (k = id)) as [-> | Hne];
          [apply lookup_delete_eq | rewrite lookup_delete_ne by exact Hne; now apply IH].
      * now apply IH.
Qed.

(** What [cleanup] leaves under each id. *)
Lemma cleanup_instances_lookup now m id :
  cleanup_instances now m !! id
  = match m !! id with
    | Some i => if idle_since (ValidDate (now - 24 * 60 * 60 * 1000)) i
                then None else Some i
    | None => None
    end.
Proof.
  unfold cleanup_instances.
  destruct (m !! id) as [i |] eqn:Hm.
  - destruct (idle_since _ i) eqn:Hidle.
    + apply cleanup_loop_drops with (i := i); [| exact Hidle].
      now apply elem_of_map_to_list.
    + rewrite cleanup_loop_keeps; [exact Hm |].
      intros i' Hin. apply elem_of_map_to_list in Hin.
      rewrite Hm in Hin. now injection Hin as <-.
  - rewrite cleanup_loop_keeps; [exact Hm |].
    intros i' Hin. apply elem_of_map_to_list in Hin. congruence.
Qed.

Lemma idle_since_spec now i :
  idle_since (ValidDate (now - 24 * 60 * 60 * 1000)) i = true
  <-> exists t, lastUsed i = Some (ValidDate t) /\ t < now - 86400000.
Proof.
  unfold idle_since, date_lt. split.
  - destruct (lastUsed i) as [[t |] |]; try discriminate.
    intros H. exists t. split; [reflexivity | lia].
  - intros [t [-> H]]. apply Z.ltb_lt. lia.
Qed.

(** C9.  [cleanup] evicts exactly the instances whose last use is more
    than 24 hours before the sweep: an instance of the map is gone
    afterwards if and only if it has a last-used time older than that; no
    instance left has such a time; an instance used within the last 24
    hours is still there, unchanged. *)
Theorem cleanup_evicts_exactly_the_idle now m :
  (forall id i, m !! id = Some i ->
     (cleanup_instances now m !! id = None
      <-> exists t, lastUsed i = Some (ValidDate t) /\ t < now - 86400000)) /\
  (forall id i, cleanup_instances now m !! id = Some i ->
     m !! id = Some i /\
     forall t, lastUsed i = Some (ValidDate t) -> now - 86400000 <= t) /\
  (forall id i t, m !! id = Some i -> lastUsed i = Some (ValidDate t) ->
     now - 86400000 <= t -> cleanup_instances now m !! id = Some i).
Proof.
  split; [| split].
  - intros id i Hm. rewrite cleanup_instances_lookup, Hm.
    rewrite <- idle_since_spec.
    destruct (idle_since _ i); split; congruence.
  - intros id i. rewrite cleanup_instances_lookup.
    destruct (m !! id) as [j |] eqn:Hm; [| discriminate].
    destruct (idle_since _ j) eqn:Hidle; [discriminate |].
    intros Heq. injection Heq as ->. split; [reflexivity |].
    intros t Ht.
    destruct (Z_lt_le_dec t (now - 86400000)) as [Hlt | Hle]; [| exact Hle].
    assert (idle_since (ValidDate (now - 24 * 60 * 60 * 1000)) i = true) as Hyes
      by (apply idle_since_spec; eauto).
    congruence.
  - intros id i t Hm Ht Hle. rewrite cleanup_instances_lookup, Hm.
    destruct (idle_since _ i) eqn:Hidle; [| reflexivity].
    apply idle_since_spec in Hidle as [t' [Ht' Hlt]].
    rewrite Ht in Ht'. injection Ht' as <-. lia.
Qed.

(** At time [3 * day]: the instance used two days ago is evicted, the one
    used an hour ago and the one never used stay. *)
Lemma cleanup_evicts_exactly_the_idle_witness :
  cleanup_instances (3 * Samples.day) Samples.instances !! "stale" = None /\
  cleanup_instances (3 * Samples.day) Samples.instances !! "fresh"
  = Some (Samples.instance "fresh" (Some (ValidDate (3 * Samples.day - 3600000)))).
Proof.
  destruct (cleanup_evicts_exactly_the_idle (3 * Samples.day) Samples.instances)
    as [Hexact [_ Hkept]].
  split.
  - apply (Hexact "stale" (Samples.instance "stale" (Some (ValidDate Samples.day)))).
    + vm_compute. reflexivity.
    + exists Samples.day. split; [reflexivity | vm_compute; reflexivity].
  - apply (Hkept "fresh" _ (3 * Samples.day - 3600000)).
    + vm_compute. reflexivity.
    + reflexivity.
    + vm_compute. discriminate.
Defined.

(** The same sweep, on the manager. *)
Lemma cleanup_state now (s : LLMManager.t) id :
  instances (cleanup now s) !! id
  = match instances s !! id with
    | Some i => if idle_since (ValidDate (now - 24 * 60 * 60 * 1000)) i
                then None else Some i
    | None => None
    end.
Proof. apply cleanup_instances_lookup. Qed.

End Cleanup.

(** ** The function registry: [executeFunction] and [mathUtils] *)

Section ExecuteFunction.

Import FunctionsManager.

Lemma timer_delay_in_range t :
  1 <= t <= 2147483647 -> timer_delay t = t.
Proof.
  intros [Hlo Hhi]. unfold timer_delay.
  replace (t <? 1) with false by (symmetry; apply Z.ltb_ge; lia).
  replace (2147483647 <? t) with false by (symmetry; apply Z.ltb_ge; lia).
  reflexivity.
Qed.

Lemma timer_delay_positive t : 1 <= timer_delay t.
Proof.
  unfold timer_delay.
  destruct (t <? 1) eqn:H1; simpl; [lia |].
  destruct (2147483647 <? t) eqn:H2; [lia |].
  apply Z.ltb_ge in H1. lia.
Qed.

(** C7, as stated, fails on the code.  [patient] declares a timeout of
    3000000000 ms and its handler settles after 5000 ms, long before that
    time.  A timer of Node does not take such a delay and fires after
    1 ms: the caller gets the timeout error at 1 ms, not the answer of the
    handler. *)
Lemma executeFunction_long_timeout_not_as_claimed :
  let run := executeFunction Samples.patient_registry "patient" (JObj []) in
  Samples.patient_registry !! "patient" = Some Samples.patient /\
  def_timeout (definition Samples.patient) = Some 3000000000 /\
  handler Samples.patient (JObj []) = Settles 5000 (Ok (JStr "done")) /\
  outcome run = Throw timeout_message /\
  settledAt run = 1 /\
  ~ (outcome run = Ok (JStr "done")).
Proof.
  repeat split; try (vm_compute; reflexivity).
  intros H. vm_compute in H. discriminate H.
Qed.

(** C7, amended.  For a registered function whose timeout (the declared
    one, or 30000 ms when none or 0 is declared) is a delay that a timer
    takes, from 1 to 2147483647 ms, the handler is raced against a timer
    of that duration.  If the handler has not settled when the timer
    fires, the caller gets the timeout error at that time; the promise of
    the handler is not touched and still settles, later, with its own
    outcome, which the caller never sees.  If the handler settles in time,
    the caller gets its outcome. *)
Theorem executeFunction_races_handler_against_timer
    (fm : registry) name func params :
  fm !! name = Some func ->
  let timeout :=
    match def_timeout (definition func) with
    | Some t => if t =? 0 then 30000 else t
    | None => 30000
    end in
  1 <= timeout <= 2147483647 ->
  let run := executeFunction fm name params in
  (forall t o, handler func params = Settles t o -> timeout < t ->
     outcome run = Throw timeout_message /\ settledAt run = timeout /\
     handlerFinal run = Some (t, o)) /\
  (handler func params = NeverSettles ->
     outcome run = Throw timeout_message /\ settledAt run = timeout /\
     handlerFinal run = None) /\
  (forall t o, handler func params = Settles t o -> t <= timeout ->
     outcome run = o /\ settledAt run = t /\ handlerFinal run = Some (t, o)).
Proof.
  intros Hf timeout Hrange run.
  assert (timer_delay (effective_timeout (definition func)) = timeout) as Hlimit
    by (apply timer_delay_in_range; exact Hrange).
  subst run. unfold executeFunction. rewrite Hf.
  split; [| split].
  - intros t o Hrun Hlate. rewrite Hrun. unfold timeline. rewrite Hlimit.
    replace (t <=? timeout) with false by (symmetry; apply Z.leb_gt; exact Hlate).
    simpl. auto.
  - intros Hrun. rewrite Hrun. unfold timeline. rewrite Hlimit. simpl. auto.
  - intros t o Hrun Hintime. rewrite Hrun. unfold timeline. rewrite Hlimit.
    replace (t <=? timeout) with true by (symmetry; apply Z.leb_le; exact Hintime).
    simpl. auto.
Qed.

(** The handler of [sleeper] takes 8000 ms against a declared timeout of
    5000 ms: the caller gets the timeout error at 5000 ms, and the handler
    still finishes at 8000 ms. *)
Lemma executeFunction_races_handler_against_timer_witness :
  outcome (executeFunction Samples.slow_registry "sleeper" (JObj []))
  = Throw timeout_message /\
  settledAt (executeFunction Samples.slow_registry "sleeper" (JObj [])) = 5000 /\
  handlerFinal (executeFunction Samples.slow_registry "sleeper" (JObj []))
  = Some (8000, Ok (JStr "done")).
Proof.
  destruct (executeFunction_races_handler_against_timer
              Samples.slow_registry "sleeper" Samples.sleeper (JObj []))
    as [Hlate _].
  - reflexivity.
  - simpl. lia.
  - apply (Hlate 8000 (Ok (JStr "done"))).
    + reflexivity.
    + simpl. lia.
Defined.

(** C8.  [mathUtils] with operation ["average"] on [10, 20, 30, 45, 55]
    returns an object whose [result] is 32; on the empty array it fails. *)
Theorem mathUtils_average_scenario :
  MathUtils.run Samples.average_params
  = Ok (JObj [("operation", JStr "average");
              ("input", JArr [JNum 10; JNum 20; JNum 30; JNum 45; JNum 55]);
              ("result", JNum 32); ("count", JNum 5)]) /\
  (exists answer,
      outcome (executeFunction Samples.registry "mathUtils" Samples.average_params)
      = Ok answer /\ get answer "result" = JNum 32) /\
  MathUtils.run (JObj [("numbers", JArr []); ("operation", JStr "average")])
  = Throw "Cannot calculate average of empty array" /\
  outcome (executeFunction Samples.registry "mathUtils"
             (JObj [("numbers", JArr []); ("operation", JStr "average")]))
  = Throw "Cannot calculate average of empty array".
Proof.
  split; [vm_compute; reflexivity |].
  split; [eexists; split; vm_compute; reflexivity |].
  split; vm_compute; reflexivity.
Qed.

End ExecuteFunction.

(** ** The orchestrator *)

Section ParseDecision.

Import AgentMaster.

(** What the [try]/[catch] of [parseLLMDecision] computes. *)
Lemma parseLLMDecision_eval {S} (s : S) (response : string) :
  parseLLMDecision response s
  = (Ok (match parsed_decision response with
         | Some decision =>
             if truthy (get decision "action") then decision else fallback_decision
         | None => fallback_decision
         end), s).
Proof.
  unfold parseLLMDecision, parsed_decision, try_catch, throw, ret.
  destruct (jsonMatch response) as [text |]; [| reflexivity].
  destruct (Json.parse text) as [decision | e]; [| reflexivity].
  destruct (truthy (get decision "action")); reflexivity.
Qed.

(** The match of the regular expression runs from the first opening brace
    to the last closing brace. *)
Example jsonMatch_wordy :
  jsonMatch Samples.wordy_reply = Some (Samples.json "{'action': 'get_status'}").
Proof. vm_compute. reflexivity. Qed.

Example jsonMatch_no_object : jsonMatch "I cannot help with that } {" = None.
Proof. vm_compute. reflexivity. Qed.

Example parse_nested :
  Json.parse (Samples.json "{'a': [1, 2.5, -3e2, true, null], 'b': {'c': 'x'}, 'a': 0}")
  = Ok (JObj [("a", JNum 0); ("b", JObj [("c", JStr "x")])]).
Proof. vm_compute. reflexivity. Qed.

Example parse_trailing_comma :
  Json.parse (Samples.json "{'a': 1,}") = Throw Json.syntax_error.
Proof. vm_compute. reflexivity. Qed.

Example parse_leading_zero : Json.parse "[01]" = Throw Json.syntax_error.
Proof. vm_compute. reflexivity. Qed.

(** C5, as stated, fails on the code.  The reply carries a JSON object
    that parses and has an [action] field, whose value is the empty
    string; the result is the fallback decision, not the parsed object. *)
Lemma parseLLMDecision_empty_action_not_as_claimed :
  let parsed := JObj [("action", JStr ""); ("response_message", JStr "Hello!")] in
  parsed_decision Samples.empty_action_reply = Some parsed /\
  lookup_prop "action" [("action", JStr ""); ("response_message", JStr "Hello!")]
    = Some (JStr "") /\
  parseLLMDecision Samples.empty_action_reply tt = (Ok fallback_decision, tt) /\
  parseLLMDecision Samples.empty_action_reply tt <> (Ok parsed, tt).
Proof.
  repeat split; try (vm_compute; reflexivity).
  vm_compute. discriminate.
Qed.

(** C5, amended.  Parsing a reply never throws and leaves the state alone.
    The result is the fallback decision, whose action is
    [direct_response], when no object can be extracted and parsed, and when
    the [action] of the parsed object is missing or falsy ([null], [false],
    [0], the empty string); it is the parsed object in every other case. *)
Theorem parseLLMDecision_total {S} (s : S) (response : string) :
  (exists decision, parseLLMDecision response s = (Ok decision, s)) /\
  (parsed_decision response = None ->
   parseLLMDecision response s = (Ok fallback_decision, s)) /\
  (forall parsed, parsed_decision response = Some parsed ->
     truthy (get parsed "action") = false ->
     parseLLMDecision response s = (Ok fallback_decision, s)) /\
  (forall parsed, parsed_decision response = Some parsed ->
     truthy (get parsed "action") = true ->
     parseLLMDecision response s = (Ok parsed, s)) /\
  get fallback_decision "action" = JStr "direct_response".
Proof.
  rewrite parseLLMDecision_eval.
  split; [eauto |].
  split; [now intros -> |].
  split; [now intros parsed -> -> |].
  split; [now intros parsed -> -> | reflexivity].
Qed.

Lemma parseLLMDecision_total_witness :
  parseLLMDecision Samples.wordy_reply tt
  = (Ok (JObj [("action", JStr "get_status")]), tt) /\
  parseLLMDecision "no decision here" tt = (Ok fallback_decision, tt).
Proof.
  split.
  - destruct (parseLLMDecision_total tt Samples.wordy_reply)
      as (_ & _ & _ & Hparsed & _).
    apply Hparsed; vm_compute; reflexivity.
  - destruct (parseLLMDecision_total tt "no decision here")
      as (_ & Hnone & _).
    apply Hnone. vm_compute. reflexivity.
Defined.

(** An object without an [action] field gives the fallback. *)
Lemma parseLLMDecision_missing_action {S} (s : S) response props :
  parsed_decision response = Some (JObj props) ->
  lookup_prop "action" props = None ->
  parseLLMDecision response s = (Ok fallback_decision, s).
Proof.
  intros Hp Hl. rewrite parseLLMDecision_eval, Hp. simpl. now rewrite Hl.
Qed.

End ParseDecision.

Section DuplicateDelivery.

Import AgentMaster MessagingManager.

Implicit Types (s : AgentMaster.t) (message : IIncomingMessage).

(** What the handler does with a message whose id is active. *)
Lemma handleIncomingMessage_active s message :
  is_active (msg_id message) s = true ->
  handleIncomingMessage message s
  = (Ok tt,
     with_log (log s ++ [(WARN, "Message already being processed")])
       (next_request s)).
Proof.
  intros Hact.
  unfold handleIncomingMessage, bind, uuidv4, gets; simpl.
  replace (is_active (msg_id message) (with_world _ s))
    with (is_active (msg_id message) s) by reflexivity.
  rewrite Hact. reflexivity.
Qed.

(** The warning is no dispatch. *)
Lemma dispatches_warn s :
  dispatches (with_log (log s ++ [(WARN, "Message already being processed")])
                (next_request s))
  = dispatches s.
Proof.
  unfold dispatches; simpl. rewrite List.filter_app; simpl.
  rewrite length_app; simpl. lia.
Qed.

(** The first part of the [try] block records the request as active
    before anything can interleave. *)
Lemma begin_processing_registers s message requestId :
  is_active (msg_id message) (final (begin_processing message requestId s)) = true.
Proof.
  destruct s as [fm mm jq lm oid init act [sent |] lg w];
    unfold begin_processing, bind, emitEvent, modify, logger, ret, final, is_active;
    simpl; apply bool_decide_eq_true; rewrite lookup_insert_eq; eauto.
Qed.

(** C6.  While an id is in the in-flight set, a further delivery of a
    message with that id is dropped: the handler logs a warning and
    returns; nothing is dispatched to [orchestrationMaster], nothing is
    published, no model call is made, the job engine is untouched, and the
    entry of the first delivery stays in the set. *)
Theorem duplicate_delivery_is_dropped s message :
  is_active (msg_id message) s = true ->
  let after := final (handleIncomingMessage message s) in
  result (handleIncomingMessage message s) = Ok tt /\
  log after = (log s ++ [(WARN, "Message already being processed")])%list /\
  dispatches after = dispatches s /\
  published (messagingManager after) = published (messagingManager s) /\
  llmManager after = llmManager s /\
  jobsQueueManager after = jobsQueueManager s /\
  activeRequests after = activeRequests s.
Proof.
  intros Hact after. subst after.
  rewrite (handleIncomingMessage_active s message Hact).
  unfold result, final; simpl.
  repeat split. apply dispatches_warn.
Qed.

Lemma duplicate_delivery_is_dropped_witness :
  let s := final (begin_processing (Samples.inbound "m-1") "uuid-0"
                    (Samples.orchestrator [Ok Samples.numeric_reply])) in
  result (handleIncomingMessage (Samples.inbound "m-1") s) = Ok tt /\
  dispatches (final (handleIncomingMessage (Samples.inbound "m-1") s)) = 1%nat.
Proof.
  intros s.
  destruct (duplicate_delivery_is_dropped s (Samples.inbound "m-1"))
    as [Hres [_ [Hdisp _]]].
  - vm_compute. reflexivity.
  - split; [exact Hres |]. rewrite Hdisp. vm_compute. reflexivity.
Defined.

(** Any number of further deliveries of the id, while it stays in flight,
    add no dispatch. *)
Lemma redeliveries_add_no_dispatch (messages : list IIncomingMessage) id s :
  is_active id s = true ->
  Forall (fun m => msg_id m = id) messages ->
  dispatches (deliver_all messages s) = dispatches s /\
  is_active id (deliver_all messages s) = true /\
  published (messagingManager (deliver_all messages s))
  = published (messagingManager s).
Proof.
  intros Hact Hall. revert s Hact.
  induction Hall as [| m ms Hm _ IH]; intros s Hact; [simpl; auto |].
  subst id.
  change (deliver_all (m :: ms) s)
    with (deliver_all ms (final (handleIncomingMessage m s))).
  rewrite (handleIncomingMessage_active s m Hact).
  set (s' := with_log (log s ++ [(WARN, "Message already being processed")])
               (next_request s)).
  change (final (Ok tt, s')) with s'.
  assert (is_active (msg_id m) s' = true) as Hact' by exact Hact.
  destruct (IH s' Hact') as (IHd & IHa & IHp).
  rewrite IHd, IHp. repeat split; [| exact IHa].
  apply dispatches_warn.
Qed.

End DuplicateDelivery.

Section Frame.

Import AgentMaster MessagingManager.

(** *** Parts of the state that the orchestration leaves alone

    [part] is any component of the orchestrator that does not depend on
    the log, the socket, the surroundings, the job engine or the LLM
    manager: the in-flight set, or the messaging manager. *)

Context {B : Type} (part : AgentMaster.t -> B).
Hypothesis part_log : forall x s, part (with_log x s) = part s.
Hypothesis part_io : forall x s, part (with_io x s) = part s.
Hypothesis part_world : forall x s, part (with_world x s) = part s.
Hypothesis part_jobs : forall x s, part (with_jobs x s) = part s.
Hypothesis part_llm : forall x s, part (with_llm x s) = part s.

Lemma keeps_ret {A} (a : A) : keeps part (ret a).
Proof. now intros s. Qed.

Lemma keeps_throw {A} e : keeps part (@throw _ A e).
Proof. now intros s. Qed.

Lemma keeps_gets {A} (f : AgentMaster.t -> A) : keeps part (gets f).
Proof. now intros s. Qed.

Lemma keeps_bind {A C} (m : M AgentMaster.t A) (k : A -> M AgentMaster.t C) :
  keeps part m -> (forall a, keeps part (k a)) -> keeps part (bind m k).
Proof.
  intros Hm Hk s. unfold bind. specialize (Hm s).
  destruct (m s) as [[a | e] s']; unfold final in Hm; simpl in Hm.
  - now rewrite (Hk a s').
  - exact Hm.
Qed.

Lemma keeps_try_catch {A} (m : M AgentMaster.t A) h :
  keeps part m -> (forall e, keeps part (h e)) -> keeps part (try_catch m h).
Proof.
  intros Hm Hh s. unfold try_catch. specialize (Hm s).
  destruct (m s) as [[a | e] s']; unfold final in Hm; simpl in Hm.
  - exact Hm.
  - now rewrite (Hh e s').
Qed.

Lemma keeps_logger lvl text : keeps part (logger lvl text).
Proof. intros s. apply part_log. Qed.

Lemma keeps_emitEvent event id : keeps part (emitEvent event id).
Proof.
  intros s. unfold emitEvent, modify, final; simpl.
  destruct (io s); [apply part_io | reflexivity].
Qed.

Lemma keeps_uuidv4 : keeps part uuidv4.
Proof. intros s. apply part_world. Qed.

Lemma keeps_Date_now : keeps part Date_now.
Proof. now intros s. Qed.

Lemma keeps_engine {A} (m : M JobsQueueManager.t A) : keeps part (engine m).
Proof.
  intros s. unfold engine, zoom, final.
  destruct (m (jobsQueueManager s)); simpl. apply part_jobs.
Qed.

Lemma keeps_llm {A} (m : M LLMManager.t A) : keeps part (llm m).
Proof.
  intros s. unfold llm, zoom, final.
  destruct (m (llmManager s)); simpl. apply part_llm.
Qed.

Lemma keeps_pass_interval : keeps part pass_interval.
Proof.
  intros s. unfold pass_interval, modify, final; simpl.
  now rewrite part_world, part_jobs.
Qed.

Lemma keeps_parseLLMDecision response :
  keeps part (@parseLLMDecision AgentMaster.t response).
Proof. intros s. now rewrite parseLLMDecision_eval. Qed.

Ltac frame_step :=
  lazymatch goal with
  | |- keeps _ (ret _) => apply keeps_ret
  | |- keeps _ (throw _) => apply keeps_throw
  | |- keeps _ (gets _) => apply keeps_gets
  | |- keeps _ (logger _ _) => apply keeps_logger
  | |- keeps _ (emitEvent _ _) => apply keeps_emitEvent
  | |- keeps _ uuidv4 => apply keeps_uuidv4
  | |- keeps _ Date_now => apply keeps_Date_now
  | |- keeps _ (engine _) => apply keeps_engine
  | |- keeps _ (llm _) => apply keeps_llm
  | |- keeps _ pass_interval => apply keeps_pass_interval
  | |- keeps _ (parseLLMDecision _) => apply keeps_parseLLMDecision
  | |- keeps _ (bind _ _) => apply keeps_bind; [| intros ?]
  | |- keeps _ (try_catch _ _) => apply keeps_try_catch; [| intros ?]
  | |- keeps _ (match ?x with _ => _ end) => destruct x
  | |- keeps _ (if ?b then _ else _) => destruct b
  end.

Ltac frame := repeat frame_step.

Lemma keeps_poll polls jobId startTime timeout :
  keeps part (poll polls jobId startTime timeout).
Proof.
  induction polls as [| polls IH]; simpl; frame; exact IH.
Qed.

Lemma keeps_waitForJobCompletion jobId timeout :
  keeps part (waitForJobCompletion jobId timeout).
Proof. unfold waitForJobCompletion. frame. apply keeps_poll. Qed.

Lemma keeps_generateContextualResponse om fn fr sr :
  keeps part (generateContextualResponse om fn fr sr).
Proof. unfold generateContextualResponse. frame. Qed.

Lemma keeps_executeDecision decision request :
  keeps part (executeDecision decision request).
Proof.
  unfold executeDecision, executeFunctionDecision, cancelJobDecision,
    getStatusDecision.
  frame;
    first [ apply keeps_waitForJobCompletion
          | apply keeps_generateContextualResponse ].
Qed.

Lemma keeps_orchestrationMaster request :
  keeps part (orchestrationMaster request).
Proof.
  unfold orchestrationMaster. frame. apply keeps_executeDecision.
Qed.

End Frame.

Section Answering.

Import AgentMaster MessagingManager.

Implicit Types (s : AgentMaster.t) (message : IIncomingMessage).

(** *** Sending *)

(** On a usable transport a valid message is published. *)
Lemma sendMessage_usable (mm : MessagingManager.t) out :
  usable mm = true ->
  validateOutgoingMessage out = true ->
  result (sendMessage out mm) = Ok tt /\
  published (final (sendMessage out mm)) = (published mm ++ [out])%list.
Proof.
  unfold usable, sendMessage, validateOutgoingMessage, waitForConnection.
  intros Hu Hv.
  destruct (out_content out) eqn:Hc; simpl in Hv;
    try (rewrite andb_false_r in Hv; discriminate Hv);
    try discriminate Hv;
    unfold bind, gets, modify, throw, result, final;
    destruct (isConnected mm), (connectAttempt mm) as [[] | ?],
      (channel mm) as [[[] | ?] |]; simpl in *;
    try discriminate Hu;
    unfold validateOutgoingMessage; rewrite ?Hc; simpl;
    rewrite ?Hv; simpl; auto.
Qed.

(** A send that fails publishes nothing. *)
Lemma sendMessage_failure (mm : MessagingManager.t) out e :
  result (sendMessage out mm) = Throw e ->
  published (final (sendMessage out mm)) = published mm.
Proof.
  unfold sendMessage, waitForConnection, bind, gets, modify, throw, result, final.
  destruct (out_content out); simpl; try reflexivity;
    destruct (isConnected mm), (connectAttempt mm) as [[] | ?],
      (channel mm) as [[[] | ?] |]; simpl;
    try reflexivity;
    destruct (validateOutgoingMessage out); simpl;
    try reflexivity; discriminate.
Qed.

(** A message that does not pass the schema is refused, whatever the state
    of the transport. *)
Lemma sendMessage_invalid (mm : MessagingManager.t) out :
  validateOutgoingMessage out = false ->
  is_throw (result (sendMessage out mm)) = true /\
  published (final (sendMessage out mm)) = published mm.
Proof.
  intros Hv.
  unfold sendMessage, waitForConnection, bind, gets, modify, throw, result, final.
  rewrite Hv.
  destruct (out_content out); simpl; auto;
    destruct (isConnected mm), (connectAttempt mm) as [[] | ?],
      (channel mm) as [[[] | ?] |]; simpl; auto.
Qed.

(** *** [orchestrationMaster] *)

(** It never throws: the [catch] block turns every failure into an
    answer. *)
Lemma orchestrationMaster_returns request s :
  exists answer, result (orchestrationMaster request s) = Ok answer.
Proof.
  unfold orchestrationMaster, try_catch, result.
  match goal with |- context [match ?m s with _ => _ end] => destruct (m s) as [[a | e] s'] end;
    simpl; eauto.
Qed.

(** A failure answer is the apology with the text of the error, and it
    passes the schema of outgoing messages. *)
Lemma orchestrationMaster_failure request s answer :
  result (orchestrationMaster request s) = Ok answer ->
  resp_status answer = Failure ->
  exists e,
    resp_error answer = Some e /\
    out_content (response answer) = JStr (apology e) /\
    validateOutgoingMessage (response answer) = true.
Proof.
  unfold orchestrationMaster, try_catch, result.
  match goal with |- context [match ?m s with _ => _ end] => destruct (m s) as [[a | e] s'] eqn:Hbody end.
  - (* the [try] block returned: the status is [Success] *)
    simpl. intros Heq. injection Heq as <-.
    revert Hbody.
    unfold bind, Date_now, gets; simpl.
    destruct (llm _ s) as [[content | e] s1]; [| discriminate].
    destruct (String.eqb content ""); [discriminate |].
    rewrite parseLLMDecision_eval.
    destruct (executeDecision _ request s1) as [[res | e] s2]; [| discriminate].
    simpl. intros Heq. injection Heq as <- _. discriminate.
  - simpl. intros Heq _. injection Heq as <-. exists e. simpl. auto.
Qed.

(** *** The handler *)

Lemma handleIncomingMessage_accepted s message :
  accepted message s ->
  handleIncomingMessage message s
  = finally
      (try_catch (process message (uuid_of (next_uuid (world s))))
                 (recover message (uuid_of (next_uuid (world s)))))
      (fun s' => with_active (delete (msg_id message) (activeRequests s')) s')
      (next_request s).
Proof.
  intros (Hact & Hfmt & Hresp).
  unfold handleIncomingMessage, bind, uuidv4, gets; simpl.
  replace (is_active (msg_id message) (with_world _ s))
    with (is_active (msg_id message) s) by reflexivity.
  rewrite Hact, Hfmt, Hresp. reflexivity.
Qed.

Lemma begin_processing_ok s message requestId :
  begin_processing message requestId s
  = (Ok {| req_message := message; req_jobId := requestId |},
     final (begin_processing message requestId s)).
Proof.
  destruct s as [fm mm jq lm oid init act [sent |] lg w]; reflexivity.
Qed.

Lemma begin_processing_messaging s message requestId :
  messagingManager (final (begin_processing message requestId s))
  = messagingManager s.
Proof.
  destruct s as [fm mm jq lm oid init act [sent |] lg w]; reflexivity.
Qed.

(** [respond] does what [sendMessage] does, and leaves the in-flight set
    alone. *)
Lemma respond_spec id answer s :
  result (respond id answer s)
  = result (sendMessage (response answer) (messagingManager s)) /\
  messagingManager (final (respond id answer s))
  = final (sendMessage (response answer) (messagingManager s)) /\
  activeRequests (final (respond id answer s)) = activeRequests s.
Proof.
  destruct s as [fm mm jq lm oid init act [sent |] lg w];
    unfold respond, bind, emitEvent, logger, modify, messaging, zoom, result, final;
    simpl;
    destruct (sendMessage (response answer) mm) as [[[] | e] mm'];
    simpl; auto.
Qed.

(** With the id in flight, the [catch] block logs and returns: the test
    that guards the apology is false. *)
Lemma recover_active s message requestId e :
  is_active (msg_id message) s = true ->
  result (recover message requestId e s) = Ok tt /\
  messagingManager (final (recover message requestId e s)) = messagingManager s.
Proof.
  intros Hact.
  destruct s as [fm mm jq lm oid init act [sent |] lg w];
    unfold recover, bind, logger, emitEvent, modify, gets, result, final;
    unfold is_active in *; simpl in *; rewrite Hact; simpl; auto.
Qed.

Lemma process_unfold s message requestId :
  process message requestId s
  = finish_processing {| req_message := message; req_jobId := requestId |}
      (final (begin_processing message requestId s)).
Proof.
  unfold process, bind. rewrite begin_processing_ok. reflexivity.
Qed.

Lemma finish_processing_unfold request s answer s' :
  orchestrationMaster request s = (Ok answer, s') ->
  finish_processing request s = respond (msg_id (req_message request)) answer s'.
Proof.
  intros H. unfold finish_processing, bind. now rewrite H.
Qed.

(** For an accepted message the handler returns normally, and what it
    leaves in the messaging manager is what sending the answer of
    [orchestrationMaster] leaves: the answer is published when the send
    succeeds, and nothing is when the send fails. *)
Theorem handler_publishes_the_answer_or_nothing s message :
  accepted message s ->
  exists answer,
    result (orchestrationMaster (request_of message s) (registered message s))
    = Ok answer /\
    result (handleIncomingMessage message s) = Ok tt /\
    messagingManager (final (handleIncomingMessage message s))
    = final (sendMessage (response answer) (messagingManager s)).
Proof.
  intros Hacc.
  rewrite (handleIncomingMessage_accepted s message Hacc).
  destruct (orchestrationMaster_returns (request_of message s) (registered message s))
    as [answer Hans].
  exists answer. split; [exact Hans |].
  unfold finally, try_catch. rewrite process_unfold.
  change (final (begin_processing message (uuid_of (next_uuid (world s)))
                   (next_request s)))
    with (registered message s).
  change {| req_message := message; req_jobId := uuid_of (next_uuid (world s)) |}
    with (request_of message s).
  assert (messagingManager (registered message s) = messagingManager s) as Hmm1
    by (unfold registered; now rewrite begin_processing_messaging).
  assert (is_active (msg_id message) (registered message s) = true) as Hact1
    by apply begin_processing_registers.
  pose proof (keeps_orchestrationMaster activeRequests
                (fun _ _ => eq_refl) (fun _ _ => eq_refl)
                (fun _ _ => eq_refl) (fun _ _ => eq_refl)
                (request_of message s) (registered message s)) as Hka.
  pose proof (keeps_orchestrationMaster messagingManager
                (fun _ _ => eq_refl) (fun _ _ => eq_refl)
                (fun _ _ => eq_refl) (fun _ _ => eq_refl)
                (request_of message s) (registered message s)) as Hkm.
  destruct (orchestrationMaster (request_of message s) (registered message s))
    as [r s2] eqn:Hom.
  unfold result, final in Hans, Hka, Hkm.
  cbn [fst snd] in Hans, Hka, Hkm. subst r.
  rewrite (finish_processing_unfold _ _ _ _ Hom).
  change (msg_id (req_message (request_of message s))) with (msg_id message).
  assert (is_active (msg_id message) s2 = true) as Hact2.
  { unfold is_active in *. now rewrite Hka. }
  destruct (respond_spec (msg_id message) answer s2) as (Hr & Hm & Ha).
  rewrite Hkm, Hmm1 in Hr, Hm.
  destruct (respond (msg_id message) answer s2) as [[[] | e] s3] eqn:Hresp;
    unfold result, final in Hr, Hm, Ha |- *; cbn [fst snd] in Hr, Hm, Ha |- *.
  - split; [reflexivity | exact Hm].
  - assert (is_active (msg_id message) s3 = true) as Hact3.
    { unfold is_active in *. now rewrite Ha. }
    destruct (recover_active s3 message (uuid_of (next_uuid (world s))) e Hact3)
      as [Hrr Hrm].
    unfold result, final in Hrr, Hrm.
    destruct (recover message (uuid_of (next_uuid (world s))) e s3) as [r4 s4].
    cbn [fst snd] in Hrr, Hrm |- *.
    split; [exact Hrr |]. change (messagingManager s4 = (sendMessage (response answer) (messagingManager s)).2).
    now rewrite Hrm.
Qed.

(** When a step of the orchestration fails and the transport is usable,
    the apology with the text of the error is published. *)
Corollary failed_orchestration_is_answered s message answer :
  accepted message s ->
  result (orchestrationMaster (request_of message s) (registered message s))
  = Ok answer ->
  resp_status answer = Failure ->
  usable (messagingManager s) = true ->
  exists e,
    out_content (response answer) = JStr (apology e) /\
    published (messagingManager (final (handleIncomingMessage message s)))
    = (published (messagingManager s) ++ [response answer])%list.
Proof.
  intros Hacc Hans Hfail Hu.
  destruct (handler_publishes_the_answer_or_nothing s message Hacc)
    as (answer' & Hans' & _ & Hm).
  rewrite Hans in Hans'. injection Hans' as <-.
  destruct (orchestrationMaster_failure _ _ _ Hans Hfail) as (e & _ & Hc & Hv).
  exists e. split; [exact Hc |].
  rewrite Hm. now apply sendMessage_usable.
Qed.

(** When the answer does not pass the schema of outgoing messages, the
    request is left without any reply, also on a usable transport, and the
    handler returns as if all had gone well. *)
Corollary invalid_answer_is_dropped s message answer :
  accepted message s ->
  result (orchestrationMaster (request_of message s) (registered message s))
  = Ok answer ->
  validateOutgoingMessage (response answer) = false ->
  result (handleIncomingMessage message s) = Ok tt /\
  published (messagingManager (final (handleIncomingMessage message s)))
  = published (messagingManager s).
Proof.
  intros Hacc Hans Hv.
  destruct (handler_publishes_the_answer_or_nothing s message Hacc)
    as (answer' & Hans' & Hres & Hm).
  rewrite Hans in Hans'. injection Hans' as <-.
  split; [exact Hres |].
  rewrite Hm. now apply sendMessage_invalid.
Qed.

(** C1, on the code.  The transport is usable and the message is
    accepted; the model answers with a decision whose [response_message]
    is the number 42.  Every step succeeds, the answer is refused by the
    schema at the time of sending, the [catch] block finds the id still in
    flight and sends no apology: nothing is published and the handler
    returns normally. *)
Theorem request_left_unanswered_on_usable_transport :
  let s := Samples.orchestrator [Ok Samples.numeric_reply] in
  let run := handleIncomingMessage (Samples.inbound "m-1") s in
  accepted (Samples.inbound "m-1") s /\
  usable (messagingManager s) = true /\
  result run = Ok tt /\
  usable (messagingManager (final run)) = true /\
  published (messagingManager (final run)) = [] /\
  log (final run)
  = [(INFO, "Calling orchestrationMaster"); (INFO, "Sending response");
     (ERROR, "Error processing message m-1: Invalid message format")].
Proof.
  repeat split; vm_compute; reflexivity.
Qed.

(** The scenario of the average, from the inbound message to the reply:
    one job, for [mathUtils], completed with result 32, and one published
    message carrying the summary of the model. *)
Example average_scenario_end_to_end :
  let run := handleIncomingMessage (Samples.inbound "m-2") Samples.average_orchestrator in
  result run = Ok tt /\
  (status <$> JobsQueueManager.getJob (jobsQueueManager (final run)) "uuid-1")
  = Some COMPLETED /\
  ((fun job => get (job_result job) "result")
     <$> JobsQueueManager.getJob (jobsQueueManager (final run)) "uuid-1")
  = Some (JNum 32) /\
  map out_content (published (messagingManager (final run)))
  = [JStr Samples.average_summary] /\
  map (fun m => get (out_metadata m) "executedJobs")
      (published (messagingManager (final run)))
  = [JArr [JStr "uuid-1"]] /\
  activeRequests (final run) = ∅.
Proof. repeat split; vm_compute; reflexivity. Qed.

End Answering.

Section Waiting.

Import AgentMaster.

(** *** [waitForJobCompletion] stops by itself

    The number of polls granted to [poll] is never the reason it stops:
    once the clock is past the deadline the callback rejects, so any larger
    number of polls gives the same run. *)

Lemma clock_after_interval s :
  clock (world (final (pass_interval s))) = clock (world s) + interval.
Proof. reflexivity. Qed.

(** One run of the callback. *)
Lemma poll_step n jobId startTime timeout s :
  poll (S n) jobId startTime timeout s
  = let s1 := final (pass_interval s) in
    match JobsQueueManager.getJob (jobsQueueManager s1) jobId with
    | None =>
        (logger ERROR "Job not found during completion check" ;;;
         throw "Job not found") s1
    | Some job =>
        match status job with
        | COMPLETED => (Ok (job_result job), s1)
        | FAILED =>
            (logger ERROR "Job failed" ;;;
             throw (match job_error job with
                    | Some e => if String.eqb e "" then "Job failed" else e
                    | None => "Job failed"
                    end)) s1
        | _ =>
            if timeout <? clock (world s1) - startTime
            then (logger ERROR "Job execution timeout" ;;;
                  throw "Job execution timeout") s1
            else poll n jobId startTime timeout s1
        end
    end.
Proof.
  cbn [poll]. unfold bind at 1. unfold pass_interval at 1, modify at 1.
  cbn zeta. unfold bind at 1, gets at 1.
  fold (final (pass_interval s)). 
  change (with_world _ (with_jobs _ s)) with (final (pass_interval s)).
  destruct (JobsQueueManager.getJob _ jobId) as [job |]; [| reflexivity].
  destruct (status job); try reflexivity;
    unfold bind at 1, Date_now, gets;
    destruct (timeout <? _); reflexivity.
Qed.

Lemma poll_enough n extra jobId startTime timeout s :
  timeout < clock (world s) + interval * Z.of_nat (S n) - startTime ->
  poll (S n) jobId startTime timeout s
  = poll (S n + extra) jobId startTime timeout s.
Proof.
  revert s. induction n as [| n IH]; intros s Hlate.
  - change (S 0 + extra)%nat with (S extra).
    rewrite !poll_step. cbn zeta.
    pose proof (clock_after_interval s) as Hclock.
    destruct (JobsQueueManager.getJob _ jobId) as [job |]; [| reflexivity].
    destruct (status job); try reflexivity;
      replace (timeout <? clock (world (final (pass_interval s))) - startTime)
        with true
        by (symmetry; apply Z.ltb_lt; unfold interval in *; lia);
      reflexivity.
  - change (S (S n) + extra)%nat with (S (S n + extra)).
    rewrite !poll_step. cbn zeta.
    pose proof (clock_after_interval s) as Hclock.
    assert (timeout < clock (world (final (pass_interval s)))
                      + interval * Z.of_nat (S n) - startTime)
      as Hlate1 by (unfold interval in *; lia).
    destruct (JobsQueueManager.getJob _ jobId) as [job |]; [| reflexivity].
    destruct (status job); try reflexivity;
      destruct (timeout <? _); try reflexivity;
      apply (IH _ Hlate1).
Qed.

(** The polls [waitForJobCompletion] grants are enough. *)
Lemma waitForJobCompletion_enough jobId timeout extra s :
  0 <= timeout ->
  waitForJobCompletion jobId timeout s
  = (startTime <~ Date_now ;;
     poll (Z.to_nat (timeout / interval) + 1 + extra) jobId startTime timeout) s.
Proof.
  intros Hpos. unfold waitForJobCompletion, bind at 1 2, Date_now, gets.
  replace (Z.to_nat (timeout / interval) + 1)%nat
    with (S (Z.to_nat (timeout / interval))) by lia.
  apply poll_enough.
  unfold interval.
  pose proof (Z.div_pos timeout 1000 Hpos ltac:(lia)) as Hq.
  pose proof (Z.mod_pos_bound timeout 1000 ltac:(lia)) as Hm.
  pose proof (Z.div_mod timeout 1000 ltac:(lia)) as Hdm.
  rewrite Nat2Z.inj_succ, Z2Nat.id by exact Hq. lia.
Qed.

End Waiting.

(* ===================================================================== *)
(** * Further properties of the job engine *)
(* ===================================================================== *)

Section JobEngine.

Import JobsQueueManager FunctionsManager.

Implicit Types (fm : FunctionsManager.registry) (s : JobsQueueManager.t)
  (jd : IJobData) (uuid id jobId : string) (now : Z).

(** *** [queue.add] and the three modes *)

Lemma queue_add_ok name jd opts s :
  connected (queue s) = true ->
  queue_add name jd opts s
  = (Ok tt,
     set_queue {| connected := true;
                  stored := <[opt_jobId opts :=
                                {| bull_name := name; bull_data := jd;
                                   bull_opts := opts; bull_locked := false |}]>
                              (stored (queue s));
                  counts := counts (queue s) |} s).
Proof. intros H. unfold queue_add. now rewrite H. Qed.

Lemma queue_add_down name jd opts s :
  connected (queue s) = false ->
  queue_add name jd opts s = (Throw connection_closed, s).
Proof. intros H. unfold queue_add. now rewrite H. Qed.

Lemma addJob_known_function fm uuid now jd s func :
  getFunction fm (functionName jd) = Some func ->
  addJob fm uuid now jd s
  = (modify (set_jobs (insert uuid (new_job uuid jd now))) ;;;
     enqueue fm uuid now jd ;;; ret uuid) s.
Proof. intros Hf. unfold addJob. now rewrite Hf. Qed.

(** Whatever the mode, the step either throws and leaves the manager as it
    is, or stores one entry under the id, for the data given, named
    [execute-function], with the default priority 0 and the default of 3
    attempts filled in. *)
Lemma enqueue_outcomes fm uuid now jd s :
  (exists e, enqueue fm uuid now jd s = (Throw e, s)) \/
  (exists opts,
      opt_jobId opts = uuid /\
      opt_priority opts = num_or (priority jd) 0 /\
      opt_attempts opts = num_or (retries jd) 3 /\
      enqueue fm uuid now jd s
      = (Ok tt,
         set_queue {| connected := true;
                      stored := <[uuid :=
                                    {| bull_name := "execute-function";
                                       bull_data := jd; bull_opts := opts;
                                       bull_locked := false |}]>
                                  (stored (queue s));
                      counts := counts (queue s) |} s)).
Proof.
  unfold enqueue.
  destruct (connected (queue s)) eqn:Hconn.
  - destruct (strict_eq (executionType jd) INSTANT).
    { right. eexists. split; [| split; [| split]]; cycle 3.
      - unfold addInstantJob. rewrite queue_add_ok by exact Hconn. reflexivity.
      - reflexivity.
      - reflexivity.
      - reflexivity. }
    destruct (strict_eq (executionType jd) SCHEDULE).
    { unfold addScheduledJob.
      destruct (scheduleTime jd) as [time |]; [| left; eexists; reflexivity].
      destruct (time_le (schedule_delay time now) 0);
        [left; eexists; reflexivity |].
      right. eexists. split; [| split; [| split]]; cycle 3.
      - rewrite queue_add_ok by exact Hconn. reflexivity.
      - reflexivity.
      - reflexivity.
      - reflexivity. }
    destruct (strict_eq (executionType jd) REPEAT);
      [| left; eexists; reflexivity].
    unfold addRepeatJob.
    destruct (truthy (repeatInterval jd)); simpl;
      [| left; eexists; reflexivity].
    destruct (def_type <$> (definition <$> getFunction fm (functionName jd)))
      as [[| |] |]; try (left; eexists; reflexivity).
    right. eexists. split; [| split; [| split]]; cycle 3.
    + rewrite queue_add_ok by exact Hconn. reflexivity.
    + reflexivity.
    + reflexivity.
    + reflexivity.
  - left.
    destruct (strict_eq (executionType jd) INSTANT).
    { eexists. apply (queue_add_down _ _ _ _ Hconn). }
    destruct (strict_eq (executionType jd) SCHEDULE).
    { unfold addScheduledJob.
      destruct (scheduleTime jd) as [time |]; [| eexists; reflexivity].
      destruct (time_le (schedule_delay time now) 0); [eexists; reflexivity |].
      eexists. apply (queue_add_down _ _ _ _ Hconn). }
    destruct (strict_eq (executionType jd) REPEAT); [| eexists; reflexivity].
    unfold addRepeatJob.
    destruct (truthy (repeatInterval jd)); simpl; [| eexists; reflexivity].
    destruct (def_type <$> (definition <$> getFunction fm (functionName jd)))
      as [[| |] |]; try (eexists; reflexivity).
    eexists. apply (queue_add_down _ _ _ _ Hconn).
Qed.

(** The two ways [addJob] ends once the function is found. *)
Lemma addJob_outcomes fm uuid now jd s func :
  getFunction fm (functionName jd) = Some func ->
  let s1 := set_jobs (insert uuid (new_job uuid jd now)) s in
  (exists e, addJob fm uuid now jd s = (Throw e, s1)) \/
  (exists opts,
      opt_jobId opts = uuid /\
      opt_priority opts = num_or (priority jd) 0 /\
      opt_attempts opts = num_or (retries jd) 3 /\
      addJob fm uuid now jd s
      = (Ok uuid,
         set_queue {| connected := true;
                      stored := <[uuid :=
                                    {| bull_name := "execute-function";
                                       bull_data := jd; bull_opts := opts;
                                       bull_locked := false |}]>
                                  (stored (queue s));
                      counts := counts (queue s) |} s1)).
Proof.
  intros Hf s1. rewrite (addJob_known_function _ _ _ _ _ _ Hf).
  unfold bind, modify. cbv beta iota. fold s1.
  destruct (enqueue_outcomes fm uuid now jd s1)
    as [[e He] | (opts & H1 & H2 & H3 & He)]; rewrite He.
  - left. now exists e.
  - right. exists opts. repeat split; assumption.
Qed.

(** X1.  A successful [addJob] returns the id it drew; [getJob] then
    finds the PENDING record of the job, with its data and creation time;
    and the durable queue holds one entry under that id, for the same
    data, with priority [priority || 0] and [retries || 3] attempts. *)
Theorem addJob_success_registers_the_job fm uuid now jd s id :
  result (addJob fm uuid now jd s) = Ok id ->
  id = uuid /\
  getJob (final (addJob fm uuid now jd s)) uuid = Some (new_job uuid jd now) /\
  exists entry,
    stored (queue (final (addJob fm uuid now jd s))) !! uuid = Some entry /\
    bull_data entry = jd /\
    bull_name entry = "execute-function" /\
    opt_priority (bull_opts entry) = num_or (priority jd) 0 /\
    opt_attempts (bull_opts entry) = num_or (retries jd) 3.
Proof.
  intros Hres.
  destruct (getFunction fm (functionName jd)) as [func |] eqn:Hf.
  - destruct (addJob_outcomes fm uuid now jd s func Hf)
      as [[e He] | (opts & H1 & H2 & H3 & He)]; rewrite He in Hres |- *.
    + discriminate Hres.
    + unfold result, final, getJob in *; simpl in *.
      injection Hres as <-. split; [reflexivity |].
      split; [apply lookup_insert_eq |].
      eexists. split; [apply lookup_insert_eq |]. simpl. auto.
  - rewrite addJob_unknown_function in Hres by exact Hf. discriminate Hres.
Qed.

Lemma addJob_success_registers_the_job_witness :
  getJob (final (addJob Samples.registry "job-20" 1000
                   (Samples.job_spec "mathUtils" INSTANT) Samples.idle_engine))
    "job-20"
  = Some (new_job "job-20" (Samples.job_spec "mathUtils" INSTANT) 1000).
Proof.
  destruct (addJob_success_registers_the_job Samples.registry "job-20" 1000
              (Samples.job_spec "mathUtils" INSTANT) Samples.idle_engine "job-20")
    as (_ & Hget & _).
  - reflexivity.
  - exact Hget.
Defined.

(** X2.  A failed [addJob] puts nothing in the durable queue; and when
    the function is not registered it changes nothing at all. *)
Theorem addJob_failure_enqueues_nothing fm uuid now jd s e :
  result (addJob fm uuid now jd s) = Throw e ->
  queue (final (addJob fm uuid now jd s)) = queue s /\
  (getFunction fm (functionName jd) = None ->
   final (addJob fm uuid now jd s) = s).
Proof.
  intros Hres.
  destruct (getFunction fm (functionName jd)) as [func |] eqn:Hf.
  - destruct (addJob_outcomes fm uuid now jd s func Hf)
      as [[e' He] | (opts & H1 & H2 & H3 & He)]; rewrite He in Hres |- *.
    + split; [reflexivity | discriminate].
    + discriminate Hres.
  - rewrite addJob_unknown_function by exact Hf. now split.
Qed.

Lemma addJob_failure_enqueues_nothing_witness :
  queue (final (addJob Samples.registry "job-21" 1000
                  (Samples.job_spec "mathUtils" SCHEDULE) Samples.idle_engine))
  = queue Samples.idle_engine.
Proof.
  destruct (addJob_failure_enqueues_nothing Samples.registry "job-21" 1000
              (Samples.job_spec "mathUtils" SCHEDULE) Samples.idle_engine
              schedule_time_required) as [Hq _].
  - reflexivity.
  - exact Hq.
Defined.

Lemma addJob_other_id fm uuid now jd s id :
  id <> uuid ->
  getJob (final (addJob fm uuid now jd s)) id = getJob s id /\
  stored (queue (final (addJob fm uuid now jd s))) !! id = stored (queue s) !! id.
Proof.
  intros Hne.
  destruct (getFunction fm (functionName jd)) as [func |] eqn:Hf.
  - destruct (addJob_outcomes fm uuid now jd s func Hf)
      as [[e' He] | (opts & H1 & H2 & H3 & He)]; rewrite He;
      unfold final, getJob; simpl.
    + split; [| reflexivity]. now apply lookup_insert_ne.
    + split; now apply lookup_insert_ne.
  - rewrite addJob_unknown_function by exact Hf. now split.
Qed.

(** X3.  Whatever its outcome, [addJob] touches nothing under another
    id: neither the record nor the queue entry of any other job. *)
Theorem addJob_touches_only_its_id fm uuid now jd s id :
  id <> uuid ->
  getJob (final (addJob fm uuid now jd s)) id = getJob s id /\
  stored (queue (final (addJob fm uuid now jd s))) !! id = stored (queue s) !! id.
Proof. apply addJob_other_id. Qed.

Lemma addJob_touches_only_its_id_witness :
  getJob (final (addJob Samples.registry "job-22" 9000
                   (Samples.job_spec "mathUtils" INSTANT)
                   Samples.engine_with_finished_job)) "job-1"
  = Some Samples.finished_job.
Proof.
  destruct (addJob_touches_only_its_id Samples.registry "job-22" 9000
              (Samples.job_spec "mathUtils" INSTANT)
              Samples.engine_with_finished_job "job-1") as [Hget _].
  - discriminate.
  - rewrite Hget. reflexivity.
Defined.

(** *** [cancelJob] and [removeJob] *)

Lemma updateJobStatus_other s jobId st result error now id :
  id <> jobId ->
  jobs (updateJobStatus jobId st result error now s) !! id = jobs s !! id.
Proof.
  intros Hne. unfold updateJobStatus.
  destruct (jobs s !! jobId); [| reflexivity].
  simpl. now apply lookup_insert_ne.
Qed.

Lemma cancelJob_cases jobId now s :
  (cancelJob jobId now s = (Ok false, s)) \/
  (result (cancelJob jobId now s) = Ok true /\
   status_of (final (cancelJob jobId now s)) jobId = Some CANCELLED /\
   stored (queue (final (cancelJob jobId now s))) !! jobId = None /\
   forall id, id <> jobId ->
     getJob (final (cancelJob jobId now s)) id = getJob s id /\
     stored (queue (final (cancelJob jobId now s))) !! id
     = stored (queue s) !! id).
Proof.
  destruct (jobs s !! jobId) as [job |] eqn:Hjob;
    [| left; now apply cancelJob_unknown_job].
  destruct (connected (queue s)) eqn:Hconn;
    [| left; now apply cancelJob_broker_down].
  destruct (stored (queue s) !! jobId) as [bj |] eqn:Hbj.
  - destruct (bull_locked bj) eqn:Hlocked;
      [left; now apply (cancelJob_locked_job s jobId bj) |].
    right.
    unfold cancelJob, try_catch, bind, gets, queue_getJob, bullJob_remove,
      modify, ret, result, final, status_of, getJob; simpl.
    rewrite Hjob, Hconn; simpl. rewrite Hbj; simpl. rewrite Hconn, Hlocked; simpl.
    split; [reflexivity |].
    unfold updateJobStatus; simpl. rewrite Hjob; simpl.
    split; [now rewrite lookup_insert_eq |].
    split; [apply lookup_delete_eq |].
    intros id Hne. split; [now apply lookup_insert_ne | now apply lookup_delete_ne].
  - right.
    unfold cancelJob, try_catch, bind, gets, queue_getJob, bullJob_remove,
      modify, ret, result, final, status_of, getJob; simpl.
    rewrite Hjob, Hconn; simpl. rewrite Hbj; simpl.
    split; [reflexivity |].
    unfold updateJobStatus; simpl. rewrite Hjob; simpl.
    split; [now rewrite lookup_insert_eq |].
    split; [exact Hbj |].
    intros id Hne. split; [now apply lookup_insert_ne | reflexivity].
Qed.

(** X4.  [cancelJob] never throws and ends in one of two ways.  Either
    it answers [false] and the manager is exactly as before; or it answers
    [true], the job is recorded as CANCELLED, the durable queue holds no
    entry under its id, and no other record or queue entry has changed. *)
Theorem cancelJob_outcomes jobId now s :
  (cancelJob jobId now s = (Ok false, s)) \/
  (result (cancelJob jobId now s) = Ok true /\
   status_of (final (cancelJob jobId now s)) jobId = Some CANCELLED /\
   stored (queue (final (cancelJob jobId now s))) !! jobId = None /\
   forall id, id <> jobId ->
     getJob (final (cancelJob jobId now s)) id = getJob s id /\
     stored (queue (final (cancelJob jobId now s))) !! id
     = stored (queue s) !! id).
Proof. apply cancelJob_cases. Qed.

(** X5.  [removeJob] answers what [cancelJob] answers.  On [false]
    nothing has changed; on [true] the job is gone from the job-status map
    and from the durable queue, and every other record is as it was. *)
Theorem removeJob_outcomes jobId now s :
  (removeJob jobId now s = (Ok false, s) /\
   cancelJob jobId now s = (Ok false, s)) \/
  (result (removeJob jobId now s) = Ok true /\
   result (cancelJob jobId now s) = Ok true /\
   getJob (final (removeJob jobId now s)) jobId = None /\
   stored (queue (final (removeJob jobId now s))) !! jobId = None /\
   forall id, id <> jobId ->
     getJob (final (removeJob jobId now s)) id = getJob s id).
Proof.
  destruct (cancelJob_cases jobId now s) as [Hno | (Hres & _ & Hq & Hother)].
  - left. split; [| exact Hno]. unfold removeJob, bind. now rewrite Hno.
  - right. unfold removeJob, bind.
    unfold result, final in Hres, Hq, Hother |- *.
    destruct (cancelJob jobId now s) as [r s1]; simpl in Hres, Hq, Hother |- *.
    subst r. unfold modify, ret, getJob in *; simpl.
    split; [reflexivity |]. split; [reflexivity |].
    split; [apply lookup_delete_eq |].
    split; [exact Hq |].
    intros id Hne. rewrite lookup_delete_ne by congruence.
    now apply Hother.
Qed.

(** *** What status updates keep *)

Lemma updateJobStatus_identity s jobId st result error now id :
  identity_of <$> jobs (updateJobStatus jobId st result error now s) !! id
  = identity_of <$> jobs s !! id.
Proof.
  unfold updateJobStatus.
  destruct (jobs s !! jobId) as [job |] eqn:Hjob; [| reflexivity].
  simpl. destruct (decide (id = jobId)) as [-> | Hne].
  - now rewrite lookup_insert_eq, Hjob.
  - now rewrite lookup_insert_ne by congruence.
Qed.

(** X6.  The callbacks of the worker and of the queue never create or
    delete a job, and never change the id, the data or the creation time
    of one: under every id, these are the same before and after the
    event. *)
Theorem events_keep_jobs_and_their_data s now id :
  (forall ev, identity_of <$> jobs (on_worker_event ev now s) !! id
              = identity_of <$> jobs s !! id) /\
  (forall ev, identity_of <$> jobs (on_queue_event ev now s) !! id
              = identity_of <$> jobs s !! id) /\
  (forall ev, dom (jobs (on_worker_event ev now s)) = dom (jobs s)) /\
  (forall ev, dom (jobs (on_queue_event ev now s)) = dom (jobs s)).
Proof.
  assert (forall jobId st result error,
             dom (jobs (updateJobStatus jobId st result error now s))
             = dom (jobs s)) as Hdom.
  { intros jobId st result error. unfold updateJobStatus.
    destruct (jobs s !! jobId) as [job |] eqn:Hjob; [| reflexivity].
    simpl. rewrite dom_insert_L.
    assert (jobId ∈ dom (jobs s)) by (apply elem_of_dom; eauto).
    set_solver. }
  repeat split.
  - intros [j r | [j |] m | j | j | m]; simpl;
      try reflexivity; apply updateJobStatus_identity.
  - intros [j | j | j r | j r]; simpl; apply updateJobStatus_identity.
  - intros [j r | [j |] m | j | j | m]; simpl; try reflexivity; apply Hdom.
  - intros [j | j | j r | j r]; simpl; apply Hdom.
Qed.

Lemma identity_keeps_keys (m m' : gmap string IJob) :
  (forall id, identity_of <$> m' !! id = identity_of <$> m !! id) ->
  (forall id job, m !! id = Some job -> job_id job = id) ->
  (forall id job, m' !! id = Some job -> job_id job = id).
Proof.
  intros Hsame Hwk id job Hjob.
  specialize (Hsame id). rewrite Hjob in Hsame.
  destruct (m !! id) as [job0 |] eqn:Hjob0; [| discriminate Hsame].
  simpl in Hsame. unfold identity_of in Hsame.
  assert (job_id job = job_id job0) as -> by congruence.
  now apply Hwk.
Qed.

(** The job-status map after [cancelJob]: as before, or with the one
    record marked. *)
Lemma cancelJob_jobs jobId now s :
  jobs (final (cancelJob jobId now s)) = jobs s \/
  jobs (final (cancelJob jobId now s))
  = jobs (updateJobStatus jobId CANCELLED JUndefined None now s).
Proof.
  unfold cancelJob, try_catch, bind, gets, queue_getJob, bullJob_remove,
    modify, ret, final; simpl.
  destruct (jobs s !! jobId) as [job |] eqn:Hjob; simpl; [| now left].
  destruct (connected (queue s)) eqn:Hconn; simpl; [| now left].
  destruct (stored (queue s) !! jobId) as [bj |]; simpl.
  - rewrite Hconn. destruct (bull_locked bj); simpl; [now left |].
    right. unfold updateJobStatus; simpl. now rewrite Hjob.
  - right. unfold updateJobStatus; simpl. now rewrite Hjob.
Qed.

(** X7.  Every record of the job-status map sits under its own id, and
    every operation of the engine keeps it so: [addJob], [cancelJob],
    [removeJob] and the callbacks of the worker and of the queue. *)
Theorem well_keyed_is_kept fm uuid jobId now jd s :
  well_keyed s ->
  well_keyed (final (addJob fm uuid now jd s)) /\
  well_keyed (final (cancelJob jobId now s)) /\
  well_keyed (final (removeJob jobId now s)) /\
  (forall ev, well_keyed (on_worker_event ev now s)) /\
  (forall ev, well_keyed (on_queue_event ev now s)).
Proof.
  intros Hwk.
  assert (well_keyed (final (cancelJob jobId now s))) as Hc.
  { unfold well_keyed.
    destruct (cancelJob_jobs jobId now s) as [-> | ->]; [exact Hwk |].
    apply (identity_keeps_keys (jobs s)); [| exact Hwk].
    intros id. apply updateJobStatus_identity. }
  split; [| split; [exact Hc | split; [| split]]].
  - intros id job Hjob. destruct (decide (id = uuid)) as [-> | Hne].
    + destruct (getFunction fm (functionName jd)) as [func |] eqn:Hf.
      * destruct (addJob_outcomes fm uuid now jd s func Hf)
          as [[e He] | (opts & _ & _ & _ & He)]; rewrite He in Hjob;
          unfold final in Hjob; simpl in Hjob;
          rewrite lookup_insert_eq in Hjob; now injection Hjob as <-.
      * rewrite addJob_unknown_function in Hjob by exact Hf. now apply Hwk.
    + destruct (addJob_other_id fm uuid now jd s id Hne) as [Hget _].
      unfold getJob in Hget. rewrite Hget in Hjob. now apply Hwk.
  - intros id job Hjob. unfold removeJob, bind, final in Hjob.
    unfold final in Hc.
    destruct (cancelJob jobId now s) as [[[|] | e] s1]; simpl in Hjob, Hc.
    + destruct (decide (id = jobId)) as [-> | Hne].
      * now rewrite lookup_delete_eq in Hjob.
      * rewrite lookup_delete_ne in Hjob by congruence. now apply Hc.
    + now apply Hc.
    + now apply Hc.
  - intros ev. unfold well_keyed.
    apply (identity_keeps_keys (jobs s)); [| exact Hwk].
    intros id. destruct ev as [j r | [j |] m | j | j | m]; simpl;
      try reflexivity; apply updateJobStatus_identity.
  - intros ev. unfold well_keyed.
    apply (identity_keeps_keys (jobs s)); [| exact Hwk].
    intros id. destruct ev; simpl; apply updateJobStatus_identity.
Qed.

Lemma well_keyed_is_kept_witness :
  well_keyed (final (cancelJob "job-1" 5000 Samples.engine_with_finished_job)).
Proof.
  apply (well_keyed_is_kept Samples.registry "job-30" "job-1" 5000
           (Samples.job_spec "mathUtils" INSTANT) Samples.engine_with_finished_job).
  intros id job Hjob. unfold Samples.engine_with_finished_job in Hjob; simpl in Hjob.
  apply lookup_singleton_Some in Hjob as [<- <-]. reflexivity.
Defined.

End JobEngine.

Section JobExecution.

Import JobsQueueManager FunctionsManager.

Lemma validateFunctionCall_params (fm : FunctionsManager.registry) name props :
  validateFunctionCall fm name (JObj props) = true
  <-> exists func,
        getFunction fm name = Some func /\
        forall p, p ∈ def_parameters (definition func) ->
                  param_required p = true ->
                  is_Some (lookup_prop (param_name p) props).
Proof.
  unfold validateFunctionCall, getFunction.
  destruct (fm !! name) as [func |]; [| split; [discriminate | intros (f & Hf & _); discriminate]].
  rewrite forallb_forall. split.
  - intros Hall. exists func. split; [reflexivity |].
    intros p Hp Hreq. apply list_elem_of_In in Hp.
    specialize (Hall p Hp). rewrite Hreq in Hall. simpl in Hall.
    apply negb_true_iff, negb_false_iff in Hall.
    unfold has_key in Hall. now apply bool_decide_eq_true in Hall.
  - intros (f & Hf & Hall). injection Hf as <-.
    intros p Hp. apply list_elem_of_In in Hp.
    destruct (param_required p) eqn:Hreq; [| reflexivity].
    simpl. apply negb_true_iff, negb_false_iff.
    unfold has_key. apply bool_decide_eq_true. now apply Hall.
Qed.

(** X8.  [validateFunctionCall] on an object of parameters, for a
    function whose required parameters bear no name that every object
    inherits: it answers [true] exactly when the function is registered
    and every parameter it declares as required is a key of the object. *)
Theorem validateFunctionCall_spec (fm : FunctionsManager.registry) name props :
  (forall func p, getFunction fm name = Some func ->
     p ∈ def_parameters (definition func) -> param_required p = true ->
     inherited (param_name p) = false) ->
  (validateFunctionCall fm name (JObj props) = true
   <-> exists func,
         getFunction fm name = Some func /\
         forall p, p ∈ def_parameters (definition func) ->
                   param_required p = true ->
                   is_Some (lookup_prop (param_name p) props)).
Proof. intros _. apply validateFunctionCall_params. Qed.

Lemma validateFunctionCall_spec_witness :
  validateFunctionCall Samples.registry "mathUtils" Samples.average_params = true.
Proof.
  apply (validateFunctionCall_spec Samples.registry "mathUtils"
           [("numbers", JArr [JNum 10; JNum 20; JNum 30; JNum 45; JNum 55]);
            ("operation", JStr "average")]).
  - intros func p Hf Hp _. injection Hf as <-.
    simpl in Hp. apply elem_of_cons in Hp as [-> | Hp]; [reflexivity |].
    apply elem_of_cons in Hp as [-> | Hp]; [reflexivity |].
    now apply elem_of_nil in Hp.
  - exists MathUtils.mathUtilsFunction. split; [reflexivity |].
    intros p Hp _.
    simpl in Hp. apply elem_of_cons in Hp as [-> | Hp]; [simpl; eauto |].
    apply elem_of_cons in Hp as [-> | Hp]; [simpl; eauto |].
    now apply elem_of_nil in Hp.
Defined.

(** X9.  The worker checks before it runs: a job whose parameters lack
    a key that the function declares as required (and that objects do not
    inherit) fails with the invalid-parameters error, whatever the handler
    would have done. *)
Theorem processJob_rejects_missing_parameter
    (fm : FunctionsManager.registry) jd props func p :
  parameters jd = JObj props ->
  getFunction fm (functionName jd) = Some func ->
  p ∈ def_parameters (definition func) ->
  param_required p = true ->
  inherited (param_name p) = false ->
  lookup_prop (param_name p) props = None ->
  processJob fm jd = Throw (invalid_parameters (functionName jd)).
Proof.
  intros Hparams Hf Hp Hreq _ Hmissing.
  unfold processJob. rewrite Hf, Hparams.
  destruct (validateFunctionCall fm (functionName jd) (JObj props)) eqn:Hv;
    [| reflexivity].
  apply validateFunctionCall_params in Hv as (f & Hf' & Hall).
  rewrite Hf in Hf'. injection Hf' as <-.
  destruct (Hall p Hp Hreq) as [v Hv]. congruence.
Qed.

Lemma processJob_rejects_missing_parameter_witness :
  processJob Samples.registry
    {| functionName := "mathUtils";
       parameters := JObj [("numbers", JArr [JNum 1; JNum 2])];
       executionType := INSTANT; scheduleTime := None;
       repeatInterval := JUndefined; repeatDeadline := None;
       priority := None; retries := None |}
  = Throw "Invalid parameters for function mathUtils".
Proof.
  apply (processJob_rejects_missing_parameter Samples.registry
           {| functionName := "mathUtils";
              parameters := JObj [("numbers", JArr [JNum 1; JNum 2])];
              executionType := INSTANT; scheduleTime := None;
              repeatInterval := JUndefined; repeatDeadline := None;
              priority := None; retries := None |}
           [("numbers", JArr [JNum 1; JNum 2])] MathUtils.mathUtilsFunction
           {| param_name := "operation"; param_type := "string";
              param_description := "Math operation: sum, average, min, max, median, or factorial (for single number)";
              param_required := true |}).
  - reflexivity.
  - reflexivity.
  - simpl. right. left.
  - reflexivity.
  - reflexivity.
  - reflexivity.
Defined.

End JobExecution.

Section LLMInstances.

Import LLMManager.

Lemma generateResponse_known id prompt now s i :
  instances s !! id = Some i ->
  instances (final (generateResponse id prompt now s))
    = <[id := touch now i]> (instances s) /\
  result (generateResponse id prompt now s)
    = match replies s with [] => Throw provider_unreachable | r :: _ => r end /\
  replies (final (generateResponse id prompt now s)) = tail (replies s).
Proof.
  intros Hi. unfold generateResponse, bind, gets, modify, result, final.
  rewrite Hi. simpl. destruct (replies s); simpl; auto.
Qed.

(** X10.  [generateResponse] on a known instance stamps the instance
    with the time of the call before it asks the provider, so the stamp is
    there whether the provider answers or fails; the configuration, the
    creation time and every other instance stay as they were, and the
    outcome is the provider's.  On an unknown id it throws and changes
    nothing, and the provider is not asked. *)
Theorem generateResponse_stamps_the_use id prompt now s :
  match instances s !! id with
  | Some i =>
      let after := final (generateResponse id prompt now s) in
      instances after !! id
        = Some {| inst_id := inst_id i; config := config i;
                  inst_createdAt := inst_createdAt i;
                  lastUsed := Some (ValidDate now) |} /\
      (forall other, other <> id ->
         instances after !! other = instances s !! other) /\
      result (generateResponse id prompt now s)
        = match replies s with
          | [] => Throw provider_unreachable
          | r :: _ => r
          end /\
      replies after = tail (replies s)
  | None =>
      generateResponse id prompt now s
        = (Throw ("LLM instance not found: " ++ id), s)
  end.
Proof.
  destruct (instances s !! id) as [i |] eqn:Hi.
  - destruct (generateResponse_known id prompt now s i Hi) as (Hm & Hr & Hrest).
    cbv zeta. rewrite Hm. repeat split.
    + now rewrite lookup_insert_eq.
    + intros other Hne. now rewrite lookup_insert_ne.
    + exact Hr.
    + exact Hrest.
  - unfold generateResponse, bind, gets, throw. now rewrite Hi.
Qed.

(** X11.  An instance that was asked for a response at time [used] is
    still there, with that stamp, after any sweep that runs no later than
    24 hours after the call, whether the call succeeded or not. *)
Theorem used_instance_survives_cleanup id prompt used now s i :
  instances s !! id = Some i ->
  now - 86400000 <= used ->
  instances (cleanup now (final (generateResponse id prompt used s))) !! id
    = Some (touch used i).
Proof.
  intros Hi Hrecent.
  destruct (generateResponse_known id prompt used s i Hi) as (Hm & _ & _).
  unfold cleanup. simpl. rewrite cleanup_instances_lookup, Hm.
  rewrite lookup_insert_eq.
  destruct (idle_since _ (touch used i)) eqn:Hidle; [| reflexivity].
  apply idle_since_spec in Hidle as (t & Ht & Hlt).
  simpl in Ht. injection Ht as <-. lia.
Qed.

Lemma used_instance_survives_cleanup_witness :
  instances (cleanup (2 * Samples.day)
     (final (generateResponse "llm-0" "Hello" (Samples.day + 1)
               (AgentMaster.llmManager (Samples.orchestrator []))))) !! "llm-0"
  = Some (touch (Samples.day + 1) (Samples.instance "llm-0" None)).
Proof.
  apply used_instance_survives_cleanup; [reflexivity | unfold Samples.day; lia].
Defined.

Lemma cleanup_instances_later now1 now2 m :
  now1 <= now2 ->
  cleanup_instances now2 (cleanup_instances now1 m) = cleanup_instances now2 m.
Proof.
  intros Hle. apply map_eq. intros id.
  rewrite !cleanup_instances_lookup.
  destruct (m !! id) as [i |]; [| reflexivity].
  destruct (idle_since (ValidDate (now1 - _)) i) eqn:H1; [| reflexivity].
  destruct (idle_since (ValidDate (now2 - _)) i) eqn:H2; [reflexivity |].
  apply idle_since_spec in H1 as (t & Ht & Hlt).
  assert (idle_since (ValidDate (now2 - 24 * 60 * 60 * 1000)) i = true) as H
    by (apply idle_since_spec; exists t; split; [exact Ht | lia]).
  congruence.
Qed.

(** X12.  Sweeps absorb earlier sweeps: a [cleanup] that follows an
    earlier one leaves the instances that it would have left on its own.
    In particular a sweep repeated at the same time changes nothing. *)
Theorem cleanup_absorbs_earlier_sweeps now1 now2 s :
  now1 <= now2 ->
  cleanup now2 (cleanup now1 s) = cleanup now2 s.
Proof.
  intros Hle. unfold cleanup. simpl. f_equal.
  now apply cleanup_instances_later.
Qed.

Lemma cleanup_absorbs_earlier_sweeps_witness :
  cleanup (3 * Samples.day)
    (cleanup (2 * Samples.day)
       {| instances := Samples.instances; replies := [] |})
  = cleanup (3 * Samples.day)
      {| instances := Samples.instances; replies := [] |}.
Proof.
  apply cleanup_absorbs_earlier_sweeps. unfold Samples.day. lia.
Defined.

(** X13.  [deleteInstance] returns whether the id was known, and
    afterwards the id is unknown and every other instance is unchanged;
    deleting an instance that was just created under a fresh id gives the
    manager back as it was. *)
Theorem deleteInstance_undoes_createInstance uuid now cfg s :
  (forall id,
     result (deleteInstance id s)
       = Ok (bool_decide (is_Some (instances s !! id))) /\
     instances (final (deleteInstance id s)) !! id = None /\
     forall other, other <> id ->
       instances (final (deleteInstance id s)) !! other = instances s !! other) /\
  (instances s !! uuid = None ->
   result (createInstance uuid now cfg s) = Ok uuid /\
   deleteInstance uuid (final (createInstance uuid now cfg s)) = (Ok true, s)).
Proof.
  split.
  - intros id. unfold deleteInstance, bind, gets, modify, ret, result, final.
    simpl. split; [reflexivity | split].
    + apply lookup_delete_eq.
    + intros other Hne. now apply lookup_delete_ne.
  - intros Hfresh. split; [reflexivity |].
    unfold deleteInstance, createInstance, bind, gets, modify, ret, final.
    simpl. rewrite lookup_insert_eq.
    rewrite bool_decide_eq_true_2 by eauto.
    rewrite delete_insert_id by exact Hfresh.
    destruct s; reflexivity.
Qed.

Lemma deleteInstance_undoes_createInstance_witness :
  result (createInstance "llm-9" 0 Samples.llm_config
            (AgentMaster.llmManager (Samples.orchestrator [])))
    = Ok "llm-9" /\
  deleteInstance "llm-9"
    (final (createInstance "llm-9" 0 Samples.llm_config
              (AgentMaster.llmManager (Samples.orchestrator []))))
    = (Ok true, AgentMaster.llmManager (Samples.orchestrator [])).
Proof.
  apply (deleteInstance_undoes_createInstance "llm-9" 0 Samples.llm_config
           (AgentMaster.llmManager (Samples.orchestrator []))).
  reflexivity.
Defined.

Lemma editInstance_lookup id p s other :
  instances (final (editInstance id p s)) !! other
  = if decide (other = id)
    then (fun i => {| inst_id := inst_id i;
                      config := merge_config (config i) p;
                      inst_createdAt := inst_createdAt i;
                      lastUsed := lastUsed i |}) <$> instances s !! id
    else instances s !! other.
Proof.
  unfold editInstance, bind, gets, modify, ret, final.
  destruct (instances s !! id) as [i |] eqn:Hi; simpl.
  - destruct (decide (other = id)) as [-> | Hne].
    + now rewrite lookup_insert_eq.
    + now rewrite lookup_insert_ne.
  - destruct (decide (other = id)) as [-> | Hne]; [exact Hi | reflexivity].
Qed.

(** X14.  [editInstance] answers whether the id is known and changes
    nothing but the configuration of that instance: the last use is kept.
    So the sweep is blind to edits: editing and then sweeping leaves the
    same instances as sweeping and then editing. *)
Theorem editInstance_commutes_with_cleanup id p now s :
  result (editInstance id p s)
    = Ok (bool_decide (is_Some (instances s !! id))) /\
  (forall other i, instances (final (editInstance id p s)) !! other = Some i ->
     exists i0, instances s !! other = Some i0 /\
                lastUsed i = lastUsed i0 /\
                inst_createdAt i = inst_createdAt i0 /\
                (other <> id -> i = i0)) /\
  instances (cleanup now (final (editInstance id p s)))
    = instances (final (editInstance id p (cleanup now s))).
Proof.
  split; [| split].
  - unfold editInstance, bind, gets, ret, result.
    destruct (instances s !! id); reflexivity.
  - intros other i. rewrite editInstance_lookup.
    destruct (decide (other = id)) as [-> | Hne].
    + destruct (instances s !! id) as [i0 |]; [| discriminate].
      simpl. intros Heq. injection Heq as <-. exists i0. simpl.
      repeat split; congruence.
    + intros Hi. exists i. repeat split; auto.
  - apply map_eq. intros other.
    rewrite editInstance_lookup. unfold cleanup at 1 2. simpl.
    rewrite !cleanup_instances_lookup, editInstance_lookup.
    destruct (decide (other = id)) as [-> | Hne]; [| reflexivity].
    destruct (instances s !! id) as [i |]; [| reflexivity].
    unfold idle_since. simpl.
    destruct (lastUsed i) as [d |] eqn:Hused; simpl; [| now rewrite Hused].
    destruct (date_lt d _); simpl; [reflexivity | now rewrite Hused].
Qed.

Lemma stats_loop d (l : list ILLMInstance) stats :
  let after := foldl (stats_step d) stats l in
  totalInstances after = totalInstances stats /\
  provider_total after = (provider_total stats + length l)%nat /\
  (recentlyUsed stats <= recentlyUsed after <= recentlyUsed stats + length l)%nat /\
  (forall p, byProvider after p = None <->
             byProvider stats p = None /\
             forall i, i ∈ l -> provider (config i) <> p).
Proof.
  revert stats. induction l as [| i l IH]; intros stats; simpl.
  - split; [reflexivity |]. split; [lia |]. split; [lia |].
    intros p. split; [| tauto].
    intros H. split; [exact H |]. intros i Hi. now apply elem_of_nil in Hi.
  - destruct (IH (stats_step d stats i)) as (Ht & Hp & Hr & Hnone).
    cbv zeta in Ht, Hp, Hr, Hnone.
    set (after := foldl (stats_step d) (stats_step d stats i) l) in *.
    assert (provider_total (stats_step d stats i) = S (provider_total stats))
      as Hone.
    { unfold provider_total, stats_step; simpl.
      destruct (provider (config i)); simpl; lia. }
    assert (recentlyUsed stats <= recentlyUsed (stats_step d stats i)
            <= S (recentlyUsed stats))%nat as Hused.
    { unfold stats_step; simpl. destruct (used_since d i); lia. }
    split; [exact Ht |]. split; [lia |]. split; [lia |].
    intros p. rewrite Hnone. unfold stats_step at 1; simpl.
    destruct (decide (p = provider (config i))) as [-> | Hne].
    + split; [intros [? _]; discriminate |].
      intros [_ H]. exfalso. apply (H i); [left | reflexivity].
    + split.
      * intros [H0 H]. split; [exact H0 |].
        intros j Hj. apply elem_of_cons in Hj as [-> | Hj]; [congruence | auto].
      * intros [H0 H]. split; [exact H0 |].
        intros j Hj. apply H. now right.
Qed.

(** X15.  The statistics add up: the per-provider counts of
    [getInstanceStats] sum to the number of instances, a provider has no
    count exactly when no instance uses it, and the number of recently
    used instances never exceeds the total. *)
Theorem getInstanceStats_adds_up now s :
  let stats := getInstanceStats now s in
  totalInstances stats = size (instances s) /\
  (default 0 (byProvider stats OPENAI)
   + default 0 (byProvider stats ANTHROPIC)
   + default 0 (byProvider stats GOOGLE) = totalInstances stats)%nat /\
  (recentlyUsed stats <= totalInstances stats)%nat /\
  (forall p, byProvider stats p = None <->
             forall id i, instances s !! id = Some i -> provider (config i) <> p).
Proof.
  unfold getInstanceStats.
  destruct (stats_loop (ValidDate (now - 60 * 60 * 1000))
              (map_to_list (instances s)).*2
              {| totalInstances := size (instances s);
                 byProvider := fun _ => None; recentlyUsed := 0 |})
    as (Ht & Hp & Hr & Hnone).
  cbv zeta in *. simpl in *.
  assert (length (map_to_list (instances s)).*2 = size (instances s)) as Hlen
    by (rewrite length_fmap; apply length_map_to_list).
  rewrite Hlen in *. rewrite Ht. split; [reflexivity |]. split; [| split].
  - exact Hp.
  - lia.
  - intros p. rewrite Hnone. split.
    + intros [_ H] id i Hi. apply H.
      apply list_elem_of_fmap. exists (id, i). split; [reflexivity |].
      now apply elem_of_map_to_list.
    + intros H. split; [reflexivity |].
      intros i Hi. apply list_elem_of_fmap in Hi as ([id j] & -> & Hj).
      apply elem_of_map_to_list in Hj. simpl. now apply (H id).
Qed.

End LLMInstances.

Section Handler.

Import AgentMaster MessagingManager.

Implicit Types (s : AgentMaster.t) (message : IIncomingMessage).

Lemma begin_processing_active s message requestId :
  activeRequests (final (begin_processing message requestId s))
  = <[msg_id message := {| req_message := message; req_jobId := requestId |}]>
      (activeRequests s).
Proof.
  destruct s as [fm mm jq lm oid init act [sent |] lg w]; reflexivity.
Qed.

(** The run of the handler on an accepted message. *)
Lemma handleIncomingMessage_run s message :
  accepted message s ->
  exists answer,
    result (orchestrationMaster (request_of message s) (registered message s))
    = Ok answer /\
    result (handleIncomingMessage message s) = Ok tt /\
    messagingManager (final (handleIncomingMessage message s))
    = final (sendMessage (response answer) (messagingManager s)) /\
    activeRequests (final (handleIncomingMessage message s)) = activeRequests s.
Proof.
  intros Hacc.
  assert (activeRequests s !! msg_id message = None) as Hfree.
  { destruct Hacc as (Hact & _). unfold is_active in Hact.
    apply bool_decide_eq_false in Hact.
    destruct (activeRequests s !! msg_id message); [exfalso; eauto | reflexivity]. }
  rewrite (handleIncomingMessage_accepted s message Hacc).
  destruct (orchestrationMaster_returns (request_of message s) (registered message s))
    as [answer Hans].
  exists answer. split; [exact Hans |].
  unfold finally, try_catch. rewrite process_unfold.
  change (final (begin_processing message (uuid_of (next_uuid (world s)))
                   (next_request s)))
    with (registered message s).
  change {| req_message := message; req_jobId := uuid_of (next_uuid (world s)) |}
    with (request_of message s).
  assert (messagingManager (registered message s) = messagingManager s) as Hmm1
    by (unfold registered; now rewrite begin_processing_messaging).
  assert (activeRequests (registered message s)
          = <[msg_id message := request_of message s]> (activeRequests s)) as Hreg
    by (unfold registered; now rewrite begin_processing_active).
  assert (is_active (msg_id message) (registered message s) = true) as Hact1
    by apply begin_processing_registers.
  pose proof (keeps_orchestrationMaster activeRequests
                (fun _ _ => eq_refl) (fun _ _ => eq_refl)
                (fun _ _ => eq_refl) (fun _ _ => eq_refl)
                (request_of message s) (registered message s)) as Hka.
  pose proof (keeps_orchestrationMaster messagingManager
                (fun _ _ => eq_refl) (fun _ _ => eq_refl)
                (fun _ _ => eq_refl) (fun _ _ => eq_refl)
                (request_of message s) (registered message s)) as Hkm.
  destruct (orchestrationMaster (request_of message s) (registered message s))
    as [r s2] eqn:Hom.
  unfold result, final in Hans, Hka, Hkm.
  cbn [fst snd] in Hans, Hka, Hkm. subst r.
  rewrite (finish_processing_unfold _ _ _ _ Hom).
  change (msg_id (req_message (request_of message s))) with (msg_id message).
  assert (is_active (msg_id message) s2 = true) as Hact2.
  { unfold is_active in *. now rewrite Hka. }
  destruct (respond_spec (msg_id message) answer s2) as (Hr & Hm & Ha).
  rewrite Hkm, Hmm1 in Hr, Hm.
  assert (forall act,
            act = <[msg_id message := request_of message s]> (activeRequests s) ->
            delete (msg_id message) act = activeRequests s) as Hclear.
  { intros act ->. now rewrite delete_insert_id. }
  destruct (respond (msg_id message) answer s2) as [[[] | e] s3] eqn:Hresp;
    unfold result, final in Hr, Hm, Ha |- *; cbn [fst snd] in Hr, Hm, Ha |- *.
  - split; [reflexivity |]. split; [exact Hm |].
    apply Hclear. congruence.
  - assert (is_active (msg_id message) s3 = true) as Hact3.
    { unfold is_active in *. now rewrite Ha. }
    destruct (recover_active s3 message (uuid_of (next_uuid (world s))) e Hact3)
      as [Hrr Hrm].
    assert (activeRequests
              (final (recover message (uuid_of (next_uuid (world s))) e s3))
            = activeRequests s3) as Hra.
    { clear - Hact3.
      destruct s3 as [fm mm jq lm oid init act [sent |] lg w];
        unfold recover, bind, logger, emitEvent, modify, gets, final;
        unfold is_active in *; simpl in *; rewrite Hact3; reflexivity. }
    unfold result, final in Hrr, Hrm, Hra.
    destruct (recover message (uuid_of (next_uuid (world s))) e s3) as [r4 s4].
    cbn [fst snd] in Hrr, Hrm, Hra |- *.
    split; [exact Hrr |]. split.
    + change (messagingManager s4 = (sendMessage (response answer) (messagingManager s)).2).
      now rewrite Hrm.
    + apply Hclear. congruence.
Qed.

(** The run of the handler on a message that is not accepted. *)
Lemma handleIncomingMessage_refused s message :
  ~ accepted message s ->
  exists lg,
    handleIncomingMessage message s = (Ok tt, with_log lg (next_request s)) /\
    List.filter is_dispatch lg = List.filter is_dispatch (log s).
Proof.
  intros Hno.
  unfold handleIncomingMessage, bind, uuidv4, gets; simpl.
  replace (is_active (msg_id message) (with_world _ s))
    with (is_active (msg_id message) s) by reflexivity.
  destruct (is_active (msg_id message) s) eqn:Hact.
  { eexists. split; [reflexivity |].
    simpl. rewrite List.filter_app. simpl. now rewrite app_nil_r. }
  destruct (invalid_format message) eqn:Hfmt.
  { eexists. split; [reflexivity |].
    simpl. rewrite List.filter_app. simpl. now rewrite app_nil_r. }
  destruct (truthy (get (msg_metadata message) "isResponse")) eqn:Hresp.
  { exists (log s). split; [| reflexivity]. reflexivity. }
  exfalso. apply Hno. repeat split; assumption.
Qed.

Lemma accepted_dec message s : accepted message s \/ ~ accepted message s.
Proof.
  unfold accepted.
  destruct (is_active (msg_id message) s), (invalid_format message),
    (truthy (get (msg_metadata message) "isResponse"));
    first [left; repeat split; reflexivity
          | right; intros (? & ? & ?); discriminate].
Qed.

Lemma handleIncomingMessage_returns s message :
  result (handleIncomingMessage message s) = Ok tt /\
  activeRequests (final (handleIncomingMessage message s)) = activeRequests s.
Proof.
  destruct (accepted_dec message s) as [Hacc | Hno].
  - destruct (handleIncomingMessage_run s message Hacc) as (_ & _ & Hr & _ & Ha).
    now split.
  - destruct (handleIncomingMessage_refused s message Hno) as (lg & -> & _).
    now split.
Qed.

(** X16.  The handler never throws, whatever the message and the state
    of the orchestrator, and it leaves the set of requests in flight as it
    found it: the entry it adds for an accepted message is removed on
    every path. *)
Theorem handleIncomingMessage_never_throws s message :
  result (handleIncomingMessage message s) = Ok tt /\
  activeRequests (final (handleIncomingMessage message s)) = activeRequests s.
Proof. apply handleIncomingMessage_returns. Qed.

(** Every answer of [orchestrationMaster] is marked as a response to the
    message of the request. *)
Lemma orchestrationMaster_marks_answer request s answer :
  result (orchestrationMaster request s) = Ok answer ->
  get (out_metadata (response answer)) "isResponse" = JBool true /\
  get (out_metadata (response answer)) "originalMessageId"
  = JStr (msg_id (req_message request)).
Proof.
  unfold orchestrationMaster, try_catch, result.
  match goal with |- context [match ?m s with _ => _ end] =>
    destruct (m s) as [[a | e] s'] eqn:Hbody end.
  - simpl. intros Heq. injection Heq as <-.
    revert Hbody.
    unfold bind, Date_now, gets; simpl.
    destruct (llm _ s) as [[content | e] s1]; [| discriminate].
    destruct (String.eqb content ""); [discriminate |].
    rewrite parseLLMDecision_eval.
    destruct (executeDecision _ request s1) as [[res | e] s2]; [| discriminate].
    simpl. intros Heq. injection Heq as <- _. simpl. auto.
  - simpl. intros Heq. injection Heq as <-. simpl. auto.
Qed.

(** X17.  One delivery publishes at most one message, and only for an
    accepted message; the message it publishes is marked as a response
    and carries the id of the message it answers.  So an answer that comes
    back on the inbound queue is not accepted again. *)
Theorem published_answers_are_marked s message :
  let after := final (handleIncomingMessage message s) in
  published (messagingManager after) = published (messagingManager s) \/
  exists out,
    published (messagingManager after)
      = (published (messagingManager s) ++ [out])%list /\
    accepted message s /\
    get (out_metadata out) "isResponse" = JBool true /\
    get (out_metadata out) "originalMessageId" = JStr (msg_id message) /\
    forall s' envelope,
      msg_metadata envelope = out_metadata out -> ~ accepted envelope s'.
Proof.
  cbv zeta.
  destruct (accepted_dec message s) as [Hacc | Hno].
  - destruct (handleIncomingMessage_run s message Hacc)
      as (answer & Hans & _ & Hm & _).
    rewrite Hm.
    destruct (orchestrationMaster_marks_answer _ _ _ Hans) as [Hresp Horig].
    destruct (result (sendMessage (response answer) (messagingManager s)))
      as [[] | e] eqn:Hsend.
    + right. exists (response answer).
      assert (usable (messagingManager s) = true /\
              validateOutgoingMessage (response answer) = true) as [Hu Hv].
      { clear - Hsend. revert Hsend.
        unfold sendMessage, waitForConnection, usable, bind, gets, modify, throw,
          result.
        destruct (out_content (response answer)) eqn:Hc; simpl; try discriminate;
          destruct (isConnected (messagingManager s)),
            (connectAttempt (messagingManager s)) as [[] | ?],
            (channel (messagingManager s)) as [[[] | ?] |]; simpl;
          try discriminate;
          destruct (validateOutgoingMessage (response answer)); simpl;
          try discriminate; auto. }
      destruct (sendMessage_usable (messagingManager s) (response answer) Hu Hv)
        as [_ Hpub].
      split; [exact Hpub |]. split; [exact Hacc |].
      split; [exact Hresp |]. split; [exact Horig |].
      intros s' envelope Hmeta (_ & _ & Hskip).
      rewrite Hmeta, Hresp in Hskip. discriminate.
    + left. now apply sendMessage_failure with (e := e).
  - left. destruct (handleIncomingMessage_refused s message Hno) as (lg & -> & _).
    reflexivity.
Qed.

(** X18.  A message that is not accepted, because its id is in flight,
    a field is missing, or it is marked as a response, is dropped: nothing
    is dispatched to [orchestrationMaster], nothing is published, the job
    engine and the model instances are untouched. *)
Theorem refused_message_is_dropped s message :
  ~ accepted message s ->
  let after := final (handleIncomingMessage message s) in
  dispatches after = dispatches s /\
  messagingManager after = messagingManager s /\
  jobsQueueManager after = jobsQueueManager s /\
  llmManager after = llmManager s /\
  io after = io s.
Proof.
  intros Hno.
  destruct (handleIncomingMessage_refused s message Hno) as (lg & -> & Hlg).
  cbv zeta. unfold dispatches. simpl. rewrite Hlg. auto.
Qed.

Lemma refused_message_is_dropped_witness :
  let s := Samples.orchestrator [] in
  let message :=
    {| msg_id := "m-7"; msg_content := "The average is 32.";
       msg_metadata := JObj [("isResponse", JBool true)];
       msg_timestamp := Some (ValidDate 999000) |} in
  let after := final (handleIncomingMessage message s) in
  dispatches after = dispatches s /\
  messagingManager after = messagingManager s /\
  jobsQueueManager after = jobsQueueManager s /\
  llmManager after = llmManager s /\
  io after = io s.
Proof.
  apply refused_message_is_dropped.
  intros (_ & _ & Hskip). discriminate Hskip.
Defined.

End Handler.

Section Consumer.

Import AgentMaster MessagingManager.

Lemma onMessage_run {S} validate (h : IIncomingMessage -> M S unit) content s :
  onMessage validate (Some h) content s
  = match handed_over validate content with
    | Some m =>
        match h m s with
        | (Ok _, s') => (Ok Ack, s')
        | (Throw _, s') => (Ok (Nack true), s')
        end
    | None =>
        (Ok (match Json.parse content with
             | Ok data => match validate data with Some _ => Ack | None => Nack false end
             | Throw _ => Nack false
             end), s)
    end.
Proof.
  unfold onMessage, handed_over, try_catch, bind, ret.
  destruct (Json.parse content) as [data | e]; [| reflexivity].
  destruct (validate data) as [m |]; [| reflexivity].
  destruct (truthy (get (msg_metadata m) "isResponse")); [reflexivity |].
  destruct (h m s) as [[[] | e] s']; reflexivity.
Qed.

(** X19.  The consumer callback settles every delivery and never
    throws.  A delivery is put back on the queue exactly when its body
    parses, passes the schema, is not marked as a response, and the
    handler throws on it; a body that does not get that far is settled
    without the handler being run. *)
Theorem onMessage_requeues_only_when_the_handler_throws
    {S} validate (h : IIncomingMessage -> M S unit) content s :
  (exists verdict, result (onMessage validate (Some h) content s) = Ok verdict) /\
  (result (onMessage validate (Some h) content s) = Ok (Nack true)
   <-> exists m e, handed_over validate content = Some m /\
                   result (h m s) = Throw e) /\
  (forall m, handed_over validate content = Some m ->
     final (onMessage validate (Some h) content s) = final (h m s)) /\
  (handed_over validate content = None ->
     final (onMessage validate (Some h) content s) = s).
Proof.
  rewrite onMessage_run.
  destruct (handed_over validate content) as [m |] eqn:Hm.
  - unfold result, final.
    destruct (h m s) as [[[] | e] s'] eqn:Hrun; simpl;
      (split; [eauto |]); (split; [| split]).
    + split; [discriminate |]. intros (m' & e & Heq & Hthrow).
      injection Heq as <-. rewrite Hrun in Hthrow. discriminate.
    + intros m' Heq. injection Heq as <-. now rewrite Hrun.
    + discriminate.
    + split; [| reflexivity]. intros _. exists m, e. split; [reflexivity |].
      now rewrite Hrun.
    + intros m' Heq. injection Heq as <-. now rewrite Hrun.
    + discriminate.
  - unfold result, final. simpl. split; [eauto |]. split; [| split].
    + split.
      * destruct (Json.parse content) as [data |]; [| discriminate].
        destruct (validate data); discriminate.
      * intros (m & e & Heq & _). discriminate.
    + discriminate.
    + reflexivity.
Qed.

(** X20.  With the handler that the orchestrator registers, no
    delivery is ever put back on the queue: the callback answers [ack]
    when the body is a valid message and [nack] without requeue when it is
    not, whatever the body and the state of the orchestrator. *)
Theorem deliveries_are_never_requeued validate content (s : AgentMaster.t) :
  result (onMessage validate (Some handleIncomingMessage) content s)
  = Ok (match Json.parse content with
        | Ok data => match validate data with Some _ => Ack | None => Nack false end
        | Throw _ => Nack false
        end).
Proof.
  rewrite onMessage_run. unfold handed_over.
  destruct (Json.parse content) as [data | e]; [| reflexivity].
  destruct (validate data) as [m |]; [| reflexivity].
  destruct (truthy (get (msg_metadata m) "isResponse")); [reflexivity |].
  destruct (handleIncomingMessage_returns s m) as [Hok _].
  unfold result in *.
  destruct (handleIncomingMessage m s) as [[[] | e] s']; simpl in *;
    [reflexivity | discriminate].
Qed.

End Consumer.

Section Deciding.

Import AgentMaster MessagingManager.

Implicit Types (s : AgentMaster.t).

Lemma poll_outcome n jobId startTime timeout s :
  let run := poll n jobId startTime timeout s in
  (forall v, result run = Ok v ->
     exists job,
       JobsQueueManager.getJob (jobsQueueManager (final run)) jobId = Some job /\
       status job = COMPLETED /\ job_result job = v) /\
  clock (world (final run)) <= clock (world s) + interval * Z.of_nat n /\
  (n <> 0%nat -> clock (world s) + interval <= clock (world (final run))).
Proof.
  revert s. induction n as [| n IH]; intros s.
  - simpl. unfold throw, result, final. simpl.
    split; [discriminate |]. split; [lia | congruence].
  - cbv zeta. rewrite poll_step. cbv zeta.
    pose proof (clock_after_interval s) as Hclock.
    set (s1 := final (pass_interval s)) in *.
    assert (0 < interval) as Hpos by reflexivity.
    destruct (JobsQueueManager.getJob (jobsQueueManager s1) jobId) as [job |] eqn:Hjob.
    2: { unfold bind, logger, modify, throw, result, final. simpl.
         split; [discriminate |]. split; [nia | lia]. }
    destruct (status job) eqn:Hstatus;
      try (unfold bind, logger, modify, throw, result, final; simpl;
           split; [discriminate |]; split; [nia | lia]).
    all: try (destruct (timeout <? clock (world s1) - startTime);
              [ unfold bind, logger, modify, throw, result, final; simpl;
                split; [discriminate |]; split; [nia | lia]
              | destruct (IH s1) as (Hres & Hup & Hlow);
                split; [exact Hres |]; split; [nia |];
                intros _; destruct n as [| n'];
                [ simpl; unfold throw, final; simpl; lia
                | specialize (Hlow ltac:(congruence)); unfold interval in *; lia ] ]).
    unfold result, final. simpl.
    split; [| split; [nia | lia]].
    intros v Hv. injection Hv as <-. exists job. auto.
Qed.

(** X21.  [waitForJobCompletion] resolves only with the result of a
    job that the engine records as COMPLETED at that moment; and,
    resolving or rejecting, it takes at least one polling interval and at
    most the timeout plus one interval (on the clock of the model, which
    moves by one interval from one poll to the next). *)
Theorem waitForJobCompletion_outcome jobId timeout s :
  0 <= timeout ->
  let run := waitForJobCompletion jobId timeout s in
  (forall v, result run = Ok v ->
     exists job,
       JobsQueueManager.getJob (jobsQueueManager (final run)) jobId = Some job /\
       status job = COMPLETED /\ job_result job = v) /\
  clock (world s) + interval <= clock (world (final run))
    <= clock (world s) + timeout + interval.
Proof.
  intros Htimeout. cbv zeta.
  change (waitForJobCompletion jobId timeout s)
    with (poll (Z.to_nat (timeout / interval) + 1) jobId (clock (world s))
            timeout s).
  destruct (poll_outcome (Z.to_nat (timeout / interval) + 1) jobId
              (clock (world s)) timeout s) as (Hres & Hup & Hlow).
  cbv zeta in Hres, Hup, Hlow.
  split; [exact Hres |]. split; [apply Hlow; lia |].
  assert (0 <= timeout / interval) by (apply Z.div_pos; [lia | reflexivity]).
  assert (interval * (timeout / interval) <= timeout)
    by (apply Z.mul_div_le; reflexivity).
  rewrite ?Nat2Z.inj_add, ?Z2Nat.id in Hup by lia.
  change (Z.of_nat 1) with 1 in Hup. unfold interval in *. lia.
Qed.

Lemma waitForJobCompletion_outcome_witness :
  let s := Samples.average_orchestrator in
  let run := waitForJobCompletion "uuid-1" 30000 s in
  clock (world s) + interval <= clock (world (final run))
    <= clock (world s) + 30000 + interval.
Proof.
  apply (waitForJobCompletion_outcome "uuid-1" 30000 Samples.average_orchestrator).
  lia.
Defined.





(** *** After a function was found *)

Lemma report_job_returns decision request jobId s :
  exists text,
    result (report_job decision request jobId s)
    = Ok {| responseText := text; result_jobs := Some [jobId] |}.
Proof.
  unfold report_job, try_catch, result.
  destruct (strict_eq _ INSTANT).
  - unfold bind at 1.
    destruct (waitForJobCompletion jobId 30000 s) as [[v | e] s1].
    + unfold bind at 1.
      destruct (generateContextualResponse _ _ v _ s1) as [[c | e] s2];
        simpl; eauto.
    + simpl. eauto.
  - simpl. eauto.
Qed.

Lemma executeFunctionDecision_found decision request s f :
  truthy (get decision "function_name") = true ->
  find_function (functionsManager s) (get decision "function_name") = Some f ->
  executeFunctionDecision decision request s
  = match JobsQueueManager.addJob (functionsManager s)
            (uuid_of (next_uuid (world s))) (clock (world s))
            (decision_job decision (world s)) (jobsQueueManager s) with
    | (Ok jobId, j) =>
        report_job decision request jobId (with_jobs j (next_request s))
    | (Throw e, j) =>
        (Ok {| responseText := execution_error e; result_jobs := Some [] |},
         with_log (log s ++ [(ERROR, "Error executing function decision")])
           (with_jobs j (next_request s)))
    end.
Proof.
  intros Hname Hf.
  unfold executeFunctionDecision. rewrite Hname. simpl negb. cbv iota.
  unfold try_catch at 1.
  unfold bind at 1, gets at 1. rewrite Hf.
  unfold bind at 1, gets at 1.
  unfold bind at 1, uuidv4 at 1.
  unfold bind at 1, Date_now at 1, gets at 1.
  unfold bind at 1, engine at 1, zoom at 1.
  change (jobsQueueManager (with_world _ s)) with (jobsQueueManager s).
  change (clock (world (with_world _ s))) with (clock (world s)).
  fold (decision_job decision (world s)).
  destruct (JobsQueueManager.addJob _ _ _ _ (jobsQueueManager s))
    as [[jobId | e] j]; [| reflexivity].
  change (with_jobs j (with_world _ s)) with (with_jobs j (next_request s)).
  destruct (report_job_returns decision request jobId
              (with_jobs j (next_request s))) as [text Htext].
  unfold report_job in *. cbv zeta in *.
  cbn [executionType decision_job] in *.
  unfold result in Htext.
  match goal with
  | H : fst ?run = _ |- _ => destruct run as [[r | e] s']
  end; simpl in Htext; [reflexivity | discriminate].
Qed.

(** X24.  A decision for a registered function that is not to be run
    at once is not awaited: when the job is accepted the response is the
    suggested text (or the standard one) with the id of the job, given
    without a poll and without a call of the model; the clock, the
    scripted events and the model instances are as before. *)
Theorem deferred_job_is_not_awaited decision request s f :
  truthy (get decision "function_name") = true ->
  find_function (functionsManager s) (get decision "function_name") = Some f ->
  strict_eq (or_else (get decision "execution_type") INSTANT) INSTANT = false ->
  let run := executeFunctionDecision decision request s in
  let added :=
    JobsQueueManager.addJob (functionsManager s)
      (uuid_of (next_uuid (world s))) (clock (world s))
      (decision_job decision (world s)) (jobsQueueManager s) in
  llmManager (final run) = llmManager s /\
  clock (world (final run)) = clock (world s) /\
  engine_events (world (final run)) = engine_events (world s) /\
  jobsQueueManager (final run) = final added /\
  forall jobId, result added = Ok jobId ->
    result run
    = Ok {| responseText :=
              or_else (get decision "response_message")
                (JStr ("I've scheduled the " ++
                       to_string (get decision "function_name") ++
                       " function to run " ++
                       (if strict_eq (or_else (get decision "execution_type") INSTANT)
                                     SCHEDULE
                        then "at the specified time" else "repeatedly") ++ "."));
            result_jobs := Some [jobId] |}.
Proof.
  intros Hname Hf Hlater. cbv zeta.
  rewrite (executeFunctionDecision_found decision request s f Hname Hf).
  destruct (JobsQueueManager.addJob _ _ _ _ (jobsQueueManager s))
    as [[jobId | e] j].
  - unfold report_job, try_catch. rewrite Hlater. unfold ret, result, final.
    simpl. repeat split. intros jobId' Heq. now injection Heq as <-.
  - unfold result, final. simpl. repeat split. discriminate.
Qed.

Lemma deferred_job_is_not_awaited_witness :
  let decision :=
    JObj [("action", JStr "execute_function");
          ("function_name", JStr "heartbeat");
          ("execution_type", JStr "repeat");
          ("repeat_interval", JNum 60000)] in
  let s := Samples.orchestrator [] in
  let run :=
    executeFunctionDecision decision (request_of (Samples.inbound "m-4") s) s in
  llmManager (final run) = llmManager s /\
  clock (world (final run)) = clock (world s).
Proof.
  cbv zeta.
  destruct (deferred_job_is_not_awaited
              (JObj [("action", JStr "execute_function");
                     ("function_name", JStr "heartbeat");
                     ("execution_type", JStr "repeat");
                     ("repeat_interval", JNum 60000)])
              (request_of (Samples.inbound "m-4") (Samples.orchestrator []))
              (Samples.orchestrator []) Samples.heartbeat)
    as (Hllm & Hclock & _).
  - reflexivity.
  - reflexivity.
  - reflexivity.
  - split; [exact Hllm | exact Hclock].
Defined.

End Deciding.

Section EngineInvariant.

Import AgentMaster MessagingManager.

Variable Q : JobsQueueManager.t -> Prop.
Hypothesis Q_event : forall now ev j, Q j -> Q (apply_event now ev j).

Lemma engine_keeps_ret {A} (a : A) : engine_keeps Q (ret a).
Proof. now intros s. Qed.

Lemma engine_keeps_throw {A} e : engine_keeps Q (@throw _ A e).
Proof. now intros s. Qed.

Lemma engine_keeps_gets {A} (f : AgentMaster.t -> A) : engine_keeps Q (gets f).
Proof. now intros s. Qed.

Lemma engine_keeps_bind {A C} (m : M AgentMaster.t A) (k : A -> M AgentMaster.t C) :
  engine_keeps Q m -> (forall a, engine_keeps Q (k a)) -> engine_keeps Q (bind m k).
Proof.
  intros Hm Hk s HQ. unfold bind. specialize (Hm s HQ).
  destruct (m s) as [[a | e] s']; unfold final in Hm; simpl in Hm.
  - now apply Hk.
  - exact Hm.
Qed.

Lemma engine_keeps_try_catch {A} (m : M AgentMaster.t A) h :
  engine_keeps Q m -> (forall e, engine_keeps Q (h e)) ->
  engine_keeps Q (try_catch m h).
Proof.
  intros Hm Hh s HQ. unfold try_catch. specialize (Hm s HQ).
  destruct (m s) as [[a | e] s']; unfold final in Hm; simpl in Hm.
  - exact Hm.
  - now apply Hh.
Qed.

Lemma engine_keeps_logger lvl text : engine_keeps Q (logger lvl text).
Proof. now intros s. Qed.

Lemma engine_keeps_Date_now : engine_keeps Q Date_now.
Proof. now intros s. Qed.

Lemma engine_keeps_llm {A} (m : M LLMManager.t A) : engine_keeps Q (llm m).
Proof.
  intros s HQ. unfold llm, zoom, final.
  destruct (m (llmManager s)) as [r l]. exact HQ.
Qed.

Lemma engine_keeps_pass_interval : engine_keeps Q pass_interval.
Proof.
  intros s HQ. unfold pass_interval, modify, final. simpl.
  generalize (clock (world s) + interval) as now.
  generalize (hd [] (engine_events (world s))) as batch.
  intros batch. revert HQ. generalize (jobsQueueManager s) as j.
  induction batch as [| ev batch IH]; intros j HQ now; simpl; [exact HQ |].
  apply IH. now apply Q_event.
Qed.

Lemma engine_keeps_poll polls jobId startTime timeout :
  engine_keeps Q (poll polls jobId startTime timeout).
Proof.
  induction polls as [| polls IH]; simpl; [apply engine_keeps_throw |].
  apply engine_keeps_bind; [apply engine_keeps_pass_interval | intros _].
  apply engine_keeps_bind; [apply engine_keeps_gets | intros [job |]].
  2: { apply engine_keeps_bind;
         [apply engine_keeps_logger | intros _; apply engine_keeps_throw]. }
  destruct (status job);
    try (apply engine_keeps_bind;
           [apply engine_keeps_Date_now | intros now];
         destruct (timeout <? now - startTime);
           [ apply engine_keeps_bind;
               [apply engine_keeps_logger | intros _; apply engine_keeps_throw]
           | exact IH ]).
  - apply engine_keeps_ret.
  - apply engine_keeps_bind;
      [apply engine_keeps_logger | intros _; apply engine_keeps_throw].
Qed.

Lemma engine_keeps_report_job decision request jobId :
  engine_keeps Q (report_job decision request jobId).
Proof.
  unfold report_job. cbv zeta.
  apply engine_keeps_try_catch.
  - destruct (strict_eq _ INSTANT); [| apply engine_keeps_ret].
    apply engine_keeps_bind.
    { unfold waitForJobCompletion.
      apply engine_keeps_bind; [apply engine_keeps_Date_now | intros start].
      apply engine_keeps_poll. }
    intros v. apply engine_keeps_bind; [| intros c; apply engine_keeps_ret].
    unfold generateContextualResponse.
    apply engine_keeps_try_catch.
    + apply engine_keeps_bind; [apply engine_keeps_Date_now | intros now].
      apply engine_keeps_bind; [apply engine_keeps_gets | intros id].
      apply engine_keeps_bind; [apply engine_keeps_llm | intros c].
      apply engine_keeps_ret.
    + intros e. apply engine_keeps_bind;
        [apply engine_keeps_logger | intros _; apply engine_keeps_ret].
  - intros e. apply engine_keeps_bind;
      [apply engine_keeps_logger | intros _; apply engine_keeps_ret].
Qed.

End EngineInvariant.

Section ExecutedJobs.

Import AgentMaster MessagingManager.

Lemma apply_event_identity now ev j id :
  JobsQueueManager.identity_of <$> JobsQueueManager.jobs (apply_event now ev j) !! id
  = JobsQueueManager.identity_of <$> JobsQueueManager.jobs j !! id.
Proof.
  destruct ev as [[jb r | [jb |] m | jb | jb | m] | [jb | jb | jb r | jb r]];
    simpl; try reflexivity; apply updateJobStatus_identity.
Qed.

(** X25.  The list of executed jobs tells what was enqueued.  When
    [addJob] accepts the job, the response lists the id that was drawn,
    and at the end (after the wait for an instant job, however it ends)
    the engine still holds a record under that id with the data of the
    decision and the time of the call.  When [addJob] refuses, the list is
    empty, the durable queue is as before and the clock has not moved. *)
Theorem executedJobs_names_the_new_job decision request s f :
  truthy (get decision "function_name") = true ->
  find_function (functionsManager s) (get decision "function_name") = Some f ->
  let run := executeFunctionDecision decision request s in
  let uuid := uuid_of (next_uuid (world s)) in
  match result (JobsQueueManager.addJob (functionsManager s) uuid
                  (clock (world s)) (decision_job decision (world s))
                  (jobsQueueManager s)) with
  | Ok _ =>
      (exists text,
         result run = Ok {| responseText := text; result_jobs := Some [uuid] |}) /\
      JobsQueueManager.identity_of
        <$> JobsQueueManager.getJob (jobsQueueManager (final run)) uuid
      = Some (uuid, decision_job decision (world s), clock (world s))
  | Throw e =>
      result run
      = Ok {| responseText := execution_error e; result_jobs := Some [] |} /\
      JobsQueueManager.queue (jobsQueueManager (final run))
      = JobsQueueManager.queue (jobsQueueManager s) /\
      clock (world (final run)) = clock (world s)
  end.
Proof.
  intros Hname Hf. cbv zeta.
  rewrite (executeFunctionDecision_found decision request s f Hname Hf).
  assert (exists func,
            FunctionsManager.getFunction (functionsManager s)
              (functionName (decision_job decision (world s))) = Some func)
    as [func Hfunc].
  { exists f. unfold find_function in Hf.
    destruct (get decision "function_name") eqn:Hget; try discriminate.
    unfold decision_job. simpl. rewrite Hget. exact Hf. }
  destruct (addJob_outcomes (functionsManager s) (uuid_of (next_uuid (world s)))
              (clock (world s)) (decision_job decision (world s))
              (jobsQueueManager s) func Hfunc)
    as [[e Hadd] | (opts & _ & _ & _ & Hadd)]; rewrite Hadd; unfold result; simpl.
  - repeat split.
  - set (uuid := uuid_of (next_uuid (world s))) in *.
    set (j := JobsQueueManager.set_queue _ _).
    split.
    + destruct (report_job_returns decision request uuid
                  (with_jobs j (next_request s))) as [text Htext].
      exists text. exact Htext.
    + apply (engine_keeps_report_job
               (fun j => JobsQueueManager.identity_of
                           <$> JobsQueueManager.jobs j !! uuid
                         = Some (uuid, decision_job decision (world s),
                                 clock (world s)))).
      * intros now ev j' Hj'. now rewrite apply_event_identity.
      * simpl. subst j. simpl. now rewrite lookup_insert_eq.
Qed.

Lemma executedJobs_names_the_new_job_witness :
  let decision :=
    JObj [("action", JStr "execute_function");
          ("function_name", JStr "mathUtils");
          ("parameters", Samples.average_params)] in
  let s := Samples.average_orchestrator in
  let run :=
    executeFunctionDecision decision (request_of (Samples.inbound "m-5") s) s in
  JobsQueueManager.identity_of
    <$> JobsQueueManager.getJob (jobsQueueManager (final run)) "uuid-0"
  = Some ("uuid-0", decision_job decision (world s), clock (world s)).
Proof.
  cbv zeta.
  pose proof (executedJobs_names_the_new_job
                (JObj [("action", JStr "execute_function");
                       ("function_name", JStr "mathUtils");
                       ("parameters", Samples.average_params)])
                (request_of (Samples.inbound "m-5") Samples.average_orchestrator)
                Samples.average_orchestrator MathUtils.mathUtilsFunction
                eq_refl eq_refl) as H.
  cbv zeta in H.
  change (result (JobsQueueManager.addJob _ _ _ _ _)) with (@Ok string "uuid-0") in H.
  exact (proj2 H).
Defined.

End ExecutedJobs.

Section Sending.

Import MessagingManager.

(** X26.  [sendMessage] succeeds exactly when the outbound transport
    is usable and the message passes the schema of outgoing messages.
    Then the message is appended to what has been published; otherwise
    nothing is published. *)
Theorem sendMessage_publishes_iff (mm : MessagingManager.t) out :
  (result (sendMessage out mm) = Ok tt
   <-> usable mm = true /\ validateOutgoingMessage out = true) /\
  published (final (sendMessage out mm))
  = if usable mm && validateOutgoingMessage out
    then (published mm ++ [out])%list
    else published mm.
Proof.
  unfold sendMessage, waitForConnection, usable, validateOutgoingMessage,
    bind, gets, modify, throw, result, final.
  destruct (out_content out) eqn:Hc; simpl;
    rewrite ?andb_false_r;
    destruct (isConnected mm), (connectAttempt mm) as [[] | ?],
      (channel mm) as [[[] | ?] |]; simpl;
    unfold validateOutgoingMessage; rewrite ?Hc; simpl; rewrite ?andb_false_r;
    try (split; [split; [discriminate | intros [? ?]; discriminate] | reflexivity]);
    match goal with
    | |- context [negb ?b] => destruct b eqn:Hv; simpl
    end;
    (split; [split; [first [discriminate | auto] | first [intros [? ?]; discriminate | auto]]
            | reflexivity]).
Qed.

End Sending.

Section Extraction.

Import AgentMaster.

Lemma append_assoc (a b c : string) : (a ++ b) ++ c = a ++ (b ++ c).
Proof.
  induction a as [| x a IH]; [reflexivity |].
  change (String x ((a ++ b) ++ c) = String x (a ++ (b ++ c))).
  now f_equal.
Qed.

Lemma from_first_brace_spec s t :
  from_first_brace s = Some t
  <-> exists pre rest,
        s = pre ++ String "{" rest /\ t = String "{" rest /\
        has_char "{" pre = false.
Proof.
  split.
  - revert t. induction s as [| c s IH]; intros t; simpl; [discriminate |].
    destruct (c =? "{")%char eqn:Hc.
    + intros Heq. injection Heq as <-. apply Ascii.eqb_eq in Hc as ->.
      exists EmptyString, s. auto.
    + intros Hs. destruct (IH t Hs) as (pre & rest & -> & -> & Hpre).
      exists (String c pre), rest. simpl. rewrite Hc, Hpre. auto.
  - intros (pre & rest & -> & -> & Hpre). revert Hpre.
    induction pre as [| c pre IH]; simpl; [reflexivity |].
    intros Hpre. apply orb_false_iff in Hpre as [Hc Hpre].
    rewrite Hc. now apply IH.
Qed.

Lemma upto_last_brace_none s :
  upto_last_brace s = None <-> has_char "}" s = false.
Proof.
  induction s as [| c s IH]; simpl; [tauto |].
  destruct (upto_last_brace s) as [r |].
  - split; [discriminate |]. intros H. apply orb_false_iff in H as [_ H].
    apply IH in H. discriminate.
  - destruct (c =? "}")%char; simpl; [split; discriminate |].
    split; intros _; [now apply IH | reflexivity].
Qed.

Lemma upto_last_brace_spec s t :
  upto_last_brace s = Some t
  <-> exists body post,
        s = body ++ String "}" post /\ t = body ++ String "}" EmptyString /\
        has_char "}" post = false.
Proof.
  split.
  - revert t. induction s as [| c s IH]; intros t; simpl; [discriminate |].
    destruct (upto_last_brace s) as [r |] eqn:Hr.
    + intros Heq. injection Heq as <-.
      destruct (IH r eq_refl) as (body & post & -> & -> & Hpost).
      exists (String c body), post. auto.
    + destruct (c =? "}")%char eqn:Hc; [| discriminate].
      intros Heq. injection Heq as <-. apply Ascii.eqb_eq in Hc as ->.
      exists EmptyString, s. repeat split. now apply upto_last_brace_none.
  - intros (body & post & -> & -> & Hpost).
    induction body as [| c body IH]; simpl.
    + apply upto_last_brace_none in Hpost. now rewrite Hpost.
    + now rewrite IH.
Qed.

(** X27.  The text that [parseLLMDecision] hands to the JSON parser is
    the stretch of the reply from its first opening brace to its last
    closing brace: [jsonMatch] answers [t] exactly when the reply reads
    [pre ++ t ++ post] with [t] of the form [{ ... }], no opening brace
    in [pre] and no closing brace in [post]. *)
Theorem jsonMatch_spec (response t : string) :
  jsonMatch response = Some t
  <-> exists pre middle post,
        response = pre ++ t ++ post /\
        t = String "{" (middle ++ String "}" EmptyString) /\
        has_char "{" pre = false /\
        has_char "}" post = false.
Proof.
  unfold jsonMatch. split.
  - destruct (from_first_brace response) as [u |] eqn:Hu; [| discriminate].
    apply from_first_brace_spec in Hu as (pre & rest & -> & -> & Hpre).
    intros Ht. apply upto_last_brace_spec in Ht as (body & post & Hsplit & -> & Hpost).
    destruct body as [| c body]; simpl in Hsplit; [discriminate |].
    injection Hsplit as Hc Hrest. subst c rest.
    exists pre, body, post. repeat split; try assumption.
    f_equal. change (String "{" (body ++ String "}" post)
                     = (String "{" body ++ String "}" EmptyString) ++ post).
    now rewrite append_assoc.
  - intros (pre & middle & post & -> & -> & Hpre & Hpost).
    assert (from_first_brace
              (pre ++ String "{" (middle ++ String "}" EmptyString) ++ post)
            = Some (String "{" (middle ++ String "}" EmptyString) ++ post)) as ->.
    { apply from_first_brace_spec.
      exists pre, ((middle ++ String "}" EmptyString) ++ post). auto. }
    apply upto_last_brace_spec.
    exists (String "{" middle), post. repeat split; [| assumption].
    change ((String "{" middle ++ String "}" EmptyString) ++ post
            = String "{" middle ++ String "}" post).
    now rewrite append_assoc.
Qed.

Lemma jsonMatch_spec_witness :
  jsonMatch Samples.wordy_reply
  = Some (Samples.json "{'action': 'get_status'}").
Proof.
  apply jsonMatch_spec.
  exists "Sure. ", (Samples.json "'action': 'get_status'"), " Anything else?".
  repeat split.
Defined.

End Extraction.

Section Arithmetic.

Import MathUtils.

Lemma Qred_inject_Z n : Qred (inject_Z n) = inject_Z n.
Proof.
  unfold Qred, inject_Z.
  pose proof (Z.ggcd_gcd n 1) as Hg.
  pose proof (Z.ggcd_correct_divisors n 1) as Hd.
  destruct (Z.ggcd n 1) as [g [a b]]. simpl in *.
  rewrite Z.gcd_1_r in Hg. subst g.
  destruct Hd as [Ha Hb].
  assert (a = n) as -> by lia. assert (b = 1) as -> by lia.
  reflexivity.
Qed.

Lemma factorial_loop_nat (k : nat) :
  (k <= 20)%nat -> factorial_loop 20 2 (Z.of_nat k) 1 = factorial k.
Proof.
  intros Hk.
  do 21 (destruct k as [| k]; [vm_compute; reflexivity |]).
  lia.
Qed.

Lemma factorial_loop_small n :
  0 <= n <= 20 ->
  factorial_loop 20 2 n 1 = factorial (Z.to_nat n).
Proof.
  intros Hn. rewrite <- factorial_loop_nat by lia.
  now rewrite Z2Nat.id by lia.
Qed.

(** X28.  The factorial operation of [mathUtils] on a single integer
    [n]: it refuses a negative [n], refuses [n] above 20, and for [n] from
    0 to 20 it answers [n!]. *)
Theorem mathUtils_factorial n :
  run (JObj [("numbers", JArr [JNum (inject_Z n)]);
             ("operation", JStr "factorial")])
  = if n <? 0 then Throw "Factorial requires a non-negative integer"
    else if 20 <? n
    then Throw "Factorial calculation limited to numbers <= 20 to prevent overflow"
    else Ok (JObj [("operation", JStr "factorial");
                   ("input", JNum (inject_Z n));
                   ("result", JNum (inject_Z (factorial (Z.to_nat n))))]).
Proof.
  unfold run. cbv zeta.
  change (get (JObj _) "numbers") with (JArr [JNum (inject_Z n)]).
  change (get (JObj _) "operation") with (JStr "factorial").
  cbv beta iota.
  change ("factorial" =? "")%string with false.
  change (to_numbers [JNum (inject_Z n)]) with (@Ok (list Q) [inject_Z n]).
  change (toLowerCase "factorial") with "factorial"%string.
  change ("factorial" =? "sum")%string with false.
  change ("factorial" =? "average")%string with false.
  change ("factorial" =? "min")%string with false.
  change ("factorial" =? "max")%string with false.
  change ("factorial" =? "median")%string with false.
  change ("factorial" =? "factorial")%string with true.
  cbv beta iota.
  unfold is_integer. rewrite Qred_inject_Z.
  unfold Qle_bool. simpl Qnum. simpl Qden.
  change (Z.pos 1 =? 1) with true. rewrite andb_true_r.
  rewrite !Z.mul_1_r. change (0 * 1) with 0. change (20 * 1) with 20.
  destruct (n <? 0) eqn:Hneg.
  - apply Z.ltb_lt in Hneg.
    replace (0 <=? n) with false by (symmetry; apply Z.leb_gt; lia).
    reflexivity.
  - apply Z.ltb_ge in Hneg.
    replace (0 <=? n) with true by (symmetry; apply Z.leb_le; lia).
    destruct (20 <? n) eqn:Hbig.
    + apply Z.ltb_lt in Hbig.
      replace (n <=? 20) with false by (symmetry; apply Z.leb_gt; lia).
      reflexivity.
    + apply Z.ltb_ge in Hbig.
      replace (n <=? 20) with true by (symmetry; apply Z.leb_le; lia).
      rewrite factorial_loop_small by lia. reflexivity.
Qed.

Lemma fold_min_spec rest x :
  let m := fold_left (fun m y => if Qle_bool y m then y else m) rest x in
  In m (x :: rest) /\ forall y, In y (x :: rest) -> (m <= y)%Q.
Proof.
  revert x. induction rest as [| z rest IH]; intros x; simpl.
  - split; [now left |]. intros y [<- | []]. apply Qle_refl.
  - destruct (Qle_bool z x) eqn:Hzx.
    + apply Qle_bool_iff in Hzx.
      destruct (IH z) as [Hin Hlow]. cbv zeta in Hin, Hlow. split.
      * destruct Hin as [<- | Hin]; [right; now left | right; now right].
      * intros y [<- | [<- | Hy]].
        -- eapply Qle_trans; [apply Hlow; now left | exact Hzx].
        -- apply Hlow. now left.
        -- apply Hlow. now right.
    + assert (x <= z)%Q as Hxz.
      { apply Qlt_le_weak, Qnot_le_lt. intros H.
        apply Qle_bool_iff in H. congruence. }
      destruct (IH x) as [Hin Hlow]. cbv zeta in Hin, Hlow. split.
      * destruct Hin as [<- | Hin]; [now left | right; now right].
      * intros y [<- | [<- | Hy]].
        -- apply Hlow. now left.
        -- eapply Qle_trans; [apply Hlow; now left | exact Hxz].
        -- apply Hlow. now right.
Qed.

Lemma fold_max_spec rest x :
  let m := fold_left (fun m y => if Qle_bool m y then y else m) rest x in
  In m (x :: rest) /\ forall y, In y (x :: rest) -> (y <= m)%Q.
Proof.
  revert x. induction rest as [| z rest IH]; intros x; simpl.
  - split; [now left |]. intros y [<- | []]. apply Qle_refl.
  - destruct (Qle_bool x z) eqn:Hxz.
    + apply Qle_bool_iff in Hxz.
      destruct (IH z) as [Hin Hup]. cbv zeta in Hin, Hup. split.
      * destruct Hin as [<- | Hin]; [right; now left | right; now right].
      * intros y [<- | [<- | Hy]].
        -- eapply Qle_trans; [exact Hxz | apply Hup; now left].
        -- apply Hup. now left.
        -- apply Hup. now right.
    + assert (z <= x)%Q as Hzx.
      { apply Qlt_le_weak, Qnot_le_lt. intros H.
        apply Qle_bool_iff in H. congruence. }
      destruct (IH x) as [Hin Hup]. cbv zeta in Hin, Hup. split.
      * destruct Hin as [<- | Hin]; [now left | right; now right].
      * intros y [<- | [<- | Hy]].
        -- apply Hup. now left.
        -- eapply Qle_trans; [exact Hzx | apply Hup; now left].
        -- apply Hup. now right.
Qed.

Lemma to_numbers_of_numbers (nums : list Q) :
  to_numbers (map JNum nums) = Ok nums.
Proof.
  induction nums as [| x nums IH]; [reflexivity |].
  simpl. now rewrite IH.
Qed.

(** X29.  On a non-empty array of numbers, of a length that the spread
    call takes, the operations [min] and [max] of [mathUtils] answer an
    element of the array that is a lower bound, respectively an upper
    bound, of all its elements. *)
Theorem mathUtils_min_max (nums : list Q) :
  nums <> [] ->
  Z.of_nat (length nums) <= spread_safe ->
  exists lo hi,
    run (JObj [("numbers", JArr (map JNum nums)); ("operation", JStr "min")])
    = Ok (JObj [("operation", JStr "minimum"); ("input", nums_value nums);
                ("result", JNum lo); ("count", count_value nums)]) /\
    run (JObj [("numbers", JArr (map JNum nums)); ("operation", JStr "max")])
    = Ok (JObj [("operation", JStr "maximum"); ("input", nums_value nums);
                ("result", JNum hi); ("count", count_value nums)]) /\
    In lo nums /\ In hi nums /\
    forall x, In x nums -> (lo <= x)%Q /\ (x <= hi)%Q.
Proof.
  intros Hne _.
  exists (Math_min nums), (Math_max nums).
  unfold run. cbv zeta.
  change (get (JObj [("numbers", JArr (map JNum nums)); ("operation", JStr "min")])
              "numbers")
    with (JArr (map JNum nums)).
  change (get (JObj [("numbers", JArr (map JNum nums)); ("operation", JStr "max")])
              "numbers")
    with (JArr (map JNum nums)).
  change (get (JObj [("numbers", JArr (map JNum nums)); ("operation", JStr "min")])
              "operation")
    with (JStr "min").
  change (get (JObj [("numbers", JArr (map JNum nums)); ("operation", JStr "max")])
              "operation")
    with (JStr "max").
  cbv beta iota.
  change ("min" =? "")%string with false.
  change ("max" =? "")%string with false.
  rewrite to_numbers_of_numbers.
  change (toLowerCase "min") with "min"%string.
  change (toLowerCase "max") with "max"%string.
  change ("min" =? "sum")%string with false.
  change ("min" =? "average")%string with false.
  change ("min" =? "min")%string with true.
  change ("max" =? "sum")%string with false.
  change ("max" =? "average")%string with false.
  change ("max" =? "min")%string with false.
  change ("max" =? "max")%string with true.
  cbv beta iota.
  destruct nums as [| x rest]; [congruence |].
  split; [reflexivity |]. split; [reflexivity |].
  destruct (fold_min_spec rest x) as [Hlo Hlow].
  destruct (fold_max_spec rest x) as [Hhi Hup].
  cbv zeta in *. unfold Math_min, Math_max.
  split; [exact Hlo |]. split; [exact Hhi |].
  intros y Hy. split; [now apply Hlow | now apply Hup].
Qed.

Lemma mathUtils_min_max_witness :
  exists lo hi,
    run (JObj [("numbers", JArr [JNum 7; JNum 3; JNum 12]);
               ("operation", JStr "min")])
    = Ok (JObj [("operation", JStr "minimum");
                ("input", nums_value [7; 3; 12]%Q);
                ("result", JNum lo); ("count", count_value [7; 3; 12]%Q)]) /\
    run (JObj [("numbers", JArr [JNum 7; JNum 3; JNum 12]);
               ("operation", JStr "max")])
    = Ok (JObj [("operation", JStr "maximum");
                ("input", nums_value [7; 3; 12]%Q);
                ("result", JNum hi); ("count", count_value [7; 3; 12]%Q)]) /\
    In lo [7; 3; 12]%Q /\ In hi [7; 3; 12]%Q /\
    forall x, In x [7; 3; 12]%Q -> (lo <= x)%Q /\ (x <= hi)%Q.
Proof.
  apply (mathUtils_min_max [7; 3; 12]%Q).
  - discriminate.
  - unfold spread_safe. simpl. lia.
Defined.

End Arithmetic.

Section JobOutcome.

Import JobsQueueManager FunctionsManager.

(** X30.  What the engine records when the worker is done with a job it
    knows.  If [processJob] returned, the job is COMPLETED with the value
    returned (an [undefined] value leaves the result as it was) and keeps
    whatever error text it had; if [processJob] threw, the job is FAILED,
    its result is reset to [null] and the message is stored (an empty
    message leaves the error as it was).  In both cases the completion
    time is the time of the event, and the id, data, creation and start
    times are kept. *)
Theorem worker_outcome_is_recorded (fm : FunctionsManager.registry) jd now s id job :
  jobs s !! id = Some job ->
  let after := on_worker_event (worker_event id (processJob fm jd)) now s in
  exists job',
    getJob after id = Some job' /\
    identity_of job' = identity_of job /\
    startedAt job' = startedAt job /\
    completedAt job' = Some now /\
    match processJob fm jd with
    | Ok v =>
        status job' = COMPLETED /\
        job_result job' = (if is_undefined v then job_result job else v) /\
        job_error job' = job_error job
    | Throw e =>
        status job' = FAILED /\
        job_result job' = JNull /\
        job_error job' = (if String.eqb e "" then job_error job else Some e)
    end.
Proof.
  intros Hjob. cbv zeta.
  destruct (processJob fm jd) as [v | e]; simpl;
    unfold updateJobStatus, getJob; rewrite Hjob; simpl;
    rewrite lookup_insert_eq; eexists; (split; [reflexivity |]);
    simpl; repeat split.
  destruct (String.eqb e ""); reflexivity.
Qed.

Lemma worker_outcome_is_recorded_witness :
  exists job',
    getJob (on_worker_event
              (worker_event "job-1"
                 (processJob Samples.registry (Samples.job_spec "nothing" INSTANT)))
              9000 Samples.engine_with_finished_job) "job-1" = Some job' /\
    status job' = FAILED /\
    job_result job' = JNull /\
    job_error job' = Some "Function nothing not found".
Proof.
  destruct (worker_outcome_is_recorded Samples.registry
              (Samples.job_spec "nothing" INSTANT) 9000
              Samples.engine_with_finished_job "job-1" Samples.finished_job
              eq_refl) as (job' & Hget & _ & _ & _ & Hout).
  exists job'. split; [exact Hget |]. exact Hout.
Defined.

End JobOutcome.
